(** * COFFEE expression rewriter: a shallow embedding and its properties

    The development follows [coffee/rewriter.py] (the rewriter facade, the
    extractor, the expander and the factorizer) and the expression graph of
    [coffee/optimizer.py].  Python objects mutated in place are modelled by
    explicit state passing; exceptions by [option]. *)

From Stdlib Require Import ZArith QArith Lia Ascii.
From stdpp Require Import base tactics option list strings countable gmap sets pretty.

Set Default Proof Using "Type".
Local Open Scope string_scope.
Local Open Scope list_scope.
Local Open Scope nat_scope.

(** ** The AST model

    A [Symbol] has a name, which Python stores either as a [str] or as a
    number ([int] or [float]), and a rank, the tuple of its indices.  Rank
    entries are compared with loop dimensions by equality only, so they are
    kept as strings.  The type [num] of numeric literals is left abstract: no
    property below depends on how Python rounds. *)

Inductive sym_name (num : Type) : Type :=
| SStr (s : string)
| SNum (v : num).
Arguments SStr {num} s.
Arguments SNum {num} v.

#[warnings="-register-all"]
Inductive expr (num : Type) : Type :=
| Symbol (symbol : sym_name num) (rank : list string)
| RawNum (v : num)
| Par (child : expr num)
| Neg (child : expr num)
| Sum (left right : expr num)
| Sub (left right : expr num)
| Prod (left right : expr num)
| Div (left right : expr num)
| FunCall (funcall_name : string) (args : list (expr num))
| Ternary (cond if_true if_false : expr num).
Arguments Symbol {num} symbol rank.
Arguments RawNum {num} v.
Arguments Par {num} child.
Arguments Neg {num} child.
Arguments Sum {num} left right.
Arguments Sub {num} left right.
Arguments Prod {num} left right.
Arguments Div {num} left right.
Arguments FunCall {num} funcall_name args.
Arguments Ternary {num} cond if_true if_false.

(** [RawNum v] is a bare Python number stored as an operand, as [replacediv]
    does in [Prod(i.left, 1.0 / i.right.symbol)]; it is not a [Node] and has
    no [children] attribute. *)

Section ExprInduction.
Context {num : Type} (P : expr num → Prop).
Hypothesis HSymbol : ∀ s r, P (Symbol s r).
Hypothesis HRawNum : ∀ v, P (RawNum v).
Hypothesis HPar : ∀ c, P c → P (Par c).
Hypothesis HNeg : ∀ c, P c → P (Neg c).
Hypothesis HSum : ∀ l r, P l → P r → P (Sum l r).
Hypothesis HSub : ∀ l r, P l → P r → P (Sub l r).
Hypothesis HProd : ∀ l r, P l → P r → P (Prod l r).
Hypothesis HDiv : ∀ l r, P l → P r → P (Div l r).
Hypothesis HFunCall : ∀ f args, Forall P args → P (FunCall f args).
Hypothesis HTernary : ∀ c t f, P c → P t → P f → P (Ternary c t f).

Fixpoint expr_nested_ind (e : expr num) : P e :=
    match e with
    | Symbol s r => HSymbol s r
    | RawNum v => HRawNum v
    | Par c => HPar c (expr_nested_ind c)
    | Neg c => HNeg c (expr_nested_ind c)
    | Sum l r => HSum l r (expr_nested_ind l) (expr_nested_ind r)
    | Sub l r => HSub l r (expr_nested_ind l) (expr_nested_ind r)
    | Prod l r => HProd l r (expr_nested_ind l) (expr_nested_ind r)
    | Div l r => HDiv l r (expr_nested_ind l) (expr_nested_ind r)
    | FunCall f args =>
        HFunCall f args
          ((fix go (l : list (expr num)) : Forall P l :=
              match l with
              | [] => Forall_nil_2 P
              | x :: l' => Forall_cons_2 P x l' (expr_nested_ind x) (go l')
              end) args)
    | Ternary c t f =>
        HTernary c t f (expr_nested_ind c) (expr_nested_ind t) (expr_nested_ind f)
    end.
End ExprInduction.

(** [node.children] of the AST library; [None] for a bare number, on which
    Python raises [AttributeError]. *)
Definition children {num} (e : expr num) : option (list (expr num)) :=
  match e with
  | Symbol _ _ => Some []
  | RawNum _ => None
  | Par c | Neg c => Some [c]
  | Sum l r | Sub l r | Prod l r | Div l r => Some [l; r]
  | FunCall _ args => Some args
  | Ternary c t f => Some [c; t; f]
  end.

(** A tree made of [Node] objects only. *)
Fixpoint all_nodes {num} (e : expr num) : bool :=
  match e with
  | Symbol _ _ => true
  | RawNum _ => false
  | Par c | Neg c => all_nodes c
  | Sum l r | Sub l r | Prod l r | Div l r => all_nodes l && all_nodes r
  | FunCall _ args => forallb all_nodes args
  | Ternary c t f => all_nodes c && all_nodes t && all_nodes f
  end.

Definition is_Symbol {num} (e : expr num) : bool :=
  match e with Symbol _ _ => true | _ => false end.

(** A symbol named by a string, the usual case. *)
Definition sym {num} (name : string) (rank : list string) : expr num :=
  Symbol (SStr name) rank.

(** The numbers used in the examples are exact rationals. *)
#[global] Instance Q_eq_dec : EqDecision Q.
Proof. solve_decision. Defined.

#[global] Instance Q_countable : Countable Q.
Proof.
  refine (inj_countable' (λ q, (Qnum q, Qden q)) (λ p, Qmake p.1 p.2) _).
  by intros [].
Defined.

#[global] Instance sym_name_eq_dec {num} `{EqDecision num} : EqDecision (sym_name num).
Proof. solve_decision. Defined.

#[global] Instance sym_name_countable {num} `{Countable num} : Countable (sym_name num).
Proof.
  refine (inj_countable'
            (λ n, match n with SStr s => inl s | SNum v => inr v end)
            (λ x, match x with inl s => SStr s | inr v => SNum v end) _).
  by intros [].
Defined.

(** The operations on numeric literals the rewriter relies on: the float
    [1.0], the product, the quotient [1.0 / v] ([None] for Python's
    [ZeroDivisionError]), the test [v in [1, 1.0]] and [float(s)] on a string
    of digits. *)
Class Number (num : Type) : Type := {
  one : num;
  mul : num → num → num;
  recip : num → option num;
  is_one : num → bool;
  float_of_digits : string → num
}.

(** ** The expression graph ([optimizer.py], class [ExpressionGraph])

    [nx.DiGraph] keeps a set of nodes and a set of directed edges;
    [add_edge u v] adds both end points as nodes. *)
Module ExpressionGraph.
Section Graph.
Context {num : Type} `{Countable num}.

Record digraph : Type := DiGraph {
    nodes : gset (sym_name num);
    edges : gset (sym_name num * sym_name num)
  }.

Definition empty_graph : digraph := DiGraph ∅ ∅.

Definition add_edge (u v : sym_name num) (g : digraph) : digraph :=
    DiGraph ({[u; v]} ∪ nodes g) ({[(u, v)]} ∪ edges g).

Definition has_edge (g : digraph) (u v : sym_name num) : bool :=
    bool_decide ((u, v) ∈ edges g).

(** [out_edges g u]: the edges leaving [u]. *)
Definition out_edges (g : digraph) (u : sym_name num)
    : gset (sym_name num * sym_name num) :=
    filter (λ e, e.1 = u) (edges g).

(** The inner function [extract_syms(sym, node, deps)]: an edge
      [sym -> node.symbol] for every [Symbol] reached through [children]. *)
Fixpoint extract_syms (s : sym_name num) (node : expr num) (deps : digraph)
    : option digraph :=
    match node with
    | Symbol n _ => Some (add_edge s n deps)
    | RawNum _ => None
    | Par c | Neg c => extract_syms s c deps
    | Sum l r | Sub l r | Prod l r | Div l r =>
        deps' ← extract_syms s l deps; extract_syms s r deps'
    | FunCall _ args =>
        (fix go (l : list (expr num)) (d : digraph) : option digraph :=
           match l with
           | [] => Some d
           | x :: l' => d' ← extract_syms s x d; go l' d'
           end) args deps
    | Ternary c t f =>
        d1 ← extract_syms s c deps; d2 ← extract_syms s t d1; extract_syms s f d2
    end.

(** [add_dependency(self, sym, expr, self_loop)]; [lhs] is [sym.symbol]. *)
Definition add_dependency (lhs : sym_name num) (rhs : expr num) (self_loop : bool)
      (g : digraph) : option digraph :=
    let g1 := if self_loop then add_edge lhs lhs g else g in
    extract_syms lhs rhs g1.

(** The names of the symbols occurring in a subtree. *)
Fixpoint symbols_of (node : expr num) : gset (sym_name num) :=
    match node with
    | Symbol n _ => {[n]}
    | RawNum _ => ∅
    | Par c | Neg c => symbols_of c
    | Sum l r | Sub l r | Prod l r | Div l r => symbols_of l ∪ symbols_of r
    | FunCall _ args => ⋃ (map symbols_of args)
    | Ternary c t f => symbols_of c ∪ symbols_of t ∪ symbols_of f
    end.
End Graph.
Arguments digraph num {_ _}.
End ExpressionGraph.

(** ** Shared helpers *)

(** A computation on a mutable object: it reads and updates the state [S],
    and [None] stands for a raised exception. *)
Definition M (S A : Type) : Type := S → option (A * S).

Definition ret {S A} (a : A) : M S A := λ s, Some (a, s).
Definition bind {S A B} (m : M S A) (k : A → M S B) : M S B :=
  λ s, match m s with Some (a, s') => k a s' | None => None end.
Definition raise {S A} : M S A := λ _, None.
Definition get {S} : M S S := λ s, Some (s, s).
Definition modify {S} (f : S → S) : M S unit := λ s, Some (tt, f s).

Declare Scope comp_scope.
Delimit Scope comp_scope with comp.
Notation "'do' x <- m ; k" := (bind m (λ x, k))
  (at level 200, x name, m at level 100, k at level 200, right associativity) : comp_scope.
Notation "'do' ' p <- m ; k" := (bind m (λ x, match x with p => k end))
  (at level 200, p pattern, m at level 100, k at level 200, right associativity) : comp_scope.
Notation "m ;; k" := (bind m (λ _, k))
  (at level 100, k at level 200, right associativity) : comp_scope.

(** Python's [sorted(l, key=key)]: a stable sort, here by insertion;
    [leb] compares two keys. *)
Section Sorted.
Context {A K : Type} (leb : K → K → bool) (key : A → K).

Fixpoint insert_by_key (x : A) (l : list A) : list A :=
  match l with
  | [] => [x]
  | y :: l' => if leb (key x) (key y) then x :: y :: l' else y :: insert_by_key x l'
  end.

Definition sorted (l : list A) : list A := foldr insert_by_key [] l.
End Sorted.

(** [l.index(x)], [None] for the [ValueError] of a missing element. *)
Fixpoint list_index {A} `{EqDecision A} (x : A) (l : list A) : option nat :=
  match l with
  | [] => None
  | y :: l' => if decide (x = y) then Some 0 else S <$> list_index x l'
  end.

(** [d.setdefault(k, []).append(v)] on an [OrderedDict]: keys stay in the
    order of their first insertion. *)
Fixpoint setdefault_append {K V} `{EqDecision K} (k : K) (v : V)
    (d : list (K * list V)) : list (K * list V) :=
  match d with
  | [] => [(k, [v])]
  | (k', vs) :: d' =>
      if decide (k = k') then (k', vs ++ [v]) :: d'
      else (k', vs) :: setdefault_append k v d'
  end.

(** Modelled from the spec: the class [MetaExpr] ([expression.py], not under
    [src/]): the dimensions of the enclosing loops in nest order, split into
    those of the domain loops and those of the other loops; [dimension] is the
    number of domain loops. *)
Record MetaExpr : Type := {
  dims : list string;
  domain_dims : list string;
  out_domain_dims : list string
}.

Definition dimension (info : MetaExpr) : nat := length (domain_dims info).

(** ** The extractor ([rewriter.py], class [ExpressionExtractor]) *)
Module ExpressionExtractor.

Inductive marker : Type := EXT | STOP.

#[global] Instance marker_eq_dec : EqDecision marker.
Proof. solve_decision. Defined.

(** The statement under rewriting, one of [Assign], [Incr], [Decr], [IMul],
    [IDiv]: a left-hand side and a right-hand side. *)
Inductive writer_kind : Type := Assign | Incr | Decr | IMul | IDiv.

Record writer (num : Type) : Type := Writer {
  kind : writer_kind;
  lvalue : expr num;
  rvalue : expr num
}.
Arguments Writer {num} kind lvalue rvalue.
Arguments kind {num} w.
Arguments lvalue {num} w.
Arguments rvalue {num} w.

Section Extractor.
Context {num Header Decls Hoisted Graph : Type}.

(** The objects a rewriter holds, with the attributes of its extractor:
    [stmt], [expr_info], [header], [decls], [hoisted] and [expr_graph] are
    shared by reference between the rewriter, its hoister and the extractor,
    so each is kept once.  The last five fields are the extractor's own
    ([self.counter], [self.mode], [self.look_ahead], [self.lda],
    [self.extracted]). *)
Record session : Type := {
  stmt : writer num;
  expr_info : MetaExpr;
  header : Header;
  decls : Decls;
  hoisted : Hoisted;
  expr_graph : Graph;
  counter : nat;
  mode : string;
  look_ahead : bool;
  lda : expr num → gset string;
  extracted : list (list string * list (expr num))
}.

Definition set_extracted (f : list (list string * list (expr num))
                              → list (list string * list (expr num)))
    (x : session) : session :=
  {| stmt := stmt x; expr_info := expr_info x; header := header x; decls := decls x;
     hoisted := hoisted x; expr_graph := expr_graph x; counter := counter x;
     mode := mode x; look_ahead := look_ahead x; lda := lda x;
     extracted := f (extracted x) |}.

(** [sorted(dep, key=lambda i: self.expr_info.dims.index(i))] *)
Definition sorted_dep (info : MetaExpr) (dep : gset string) : option (list string) :=
  keyed ← mapM (λ d, k ← list_index d (dims info); Some (k, d)) (elements dep);
  Some (snd <$> sorted Nat.leb fst keyed).

Definition _try (node : expr num) (dep : gset string) : M session bool :=
  (if is_Symbol node then ret false
   else
     do self <- get;
     let info := expr_info self in
     let should_extract :=
       if decide (mode self = "aggressive") then true
       else if decide (mode self = "only_const") then
         negb (bool_decide (dep ≠ ∅ ∧ dep ⊆ list_to_set (dims info)))
       else if decide (mode self = "only_domain") then
         negb (bool_decide (dep ⊆ list_to_set (out_domain_dims info)))
       else if decide (mode self = "only_outdomain") then
         bool_decide (dep ⊆ list_to_set (out_domain_dims info))
       else true in
     (if should_extract || look_ahead self then
        match sorted_dep info dep with
        | Some key => modify (set_extracted (setdefault_append key node))
        | None => raise
        end
      else ret tt) ;;
     ret should_extract)%comp.

Definition _soft (left right : expr num) (dep_l dep_r dep_n : gset string)
    (info_l info_r : marker) : M session (gset string * marker) :=
  (if decide (info_l = EXT ∧ info_r = EXT) then
     if decide (dep_l = dep_r) then ret (dep_l, EXT)
     else if decide (dep_l ⊆ dep_r) then
       do ok <- _try right dep_r;
       if ok then ret (dep_n, STOP) else ret (dep_n, EXT)
     else if decide (dep_r ⊆ dep_l) then
       do ok <- _try left dep_l;
       if ok then ret (dep_n, STOP) else ret (dep_n, EXT)
     else
       _try left dep_l ;; _try right dep_r ;; ret (dep_n, STOP)
   else if decide (info_r = EXT) then _try right dep_r ;; ret (dep_n, STOP)
   else if decide (info_l = EXT) then _try left dep_l ;; ret (dep_n, STOP)
   else ret (dep_n, STOP))%comp.

(** [self._try(a, da) or self._try(b, db)]: the second call is made only
    when the first returns [False]. *)
Definition try_or (a : expr num) (da : gset string) (b : expr num) (db : gset string)
    : M session bool :=
  (do ok <- _try a da; if ok then ret true else _try b db)%comp.

Definition _normal (left right : expr num) (dep_l dep_r dep_n : gset string)
    (info_l info_r : marker) : M session (gset string * marker) :=
  (if decide (info_l = EXT ∧ info_r = EXT) then
     if decide (dep_l = dep_r) then ret (dep_l, EXT)
     else if decide (dep_l = ∅) then
       do self <- get;
       if decide (list_to_set (domain_dims (expr_info self)) ∩ dep_r = ∅)
       then ret (dep_r, EXT)
       else do ok <- try_or left dep_l right dep_r;
            if ok then ret (dep_n, STOP) else ret (dep_r, EXT)
     else if decide (dep_r = ∅) then
       do self <- get;
       if decide (list_to_set (domain_dims (expr_info self)) ∩ dep_l = ∅)
       then ret (dep_l, EXT)
       else do ok <- try_or right dep_r left dep_l;
            if ok then ret (dep_n, STOP) else ret (dep_l, EXT)
     else if decide (dep_l ⊆ dep_r) then
       do ok <- _try left dep_l;
       if ok then ret (dep_n, STOP) else ret (dep_n, EXT)
     else if decide (dep_r ⊆ dep_l) then
       do ok <- _try right dep_r;
       if ok then ret (dep_n, STOP) else ret (dep_n, EXT)
     else
       _try left dep_l ;; _try right dep_r ;; ret (dep_n, STOP)
   else if decide (info_r = EXT) then _try right dep_r ;; ret (dep_n, STOP)
   else if decide (info_l = EXT) then _try left dep_l ;; ret (dep_n, STOP)
   else ret (dep_n, STOP))%comp.

Definition _aggressive (left right : expr num) (dep_l dep_r dep_n : gset string)
    (info_l info_r : marker) : M session (gset string * marker) :=
  (if decide (info_l = EXT ∧ info_r = EXT) then
     if decide (dep_l = dep_r) then ret (dep_l, EXT)
     else if decide (dep_l = ∅) then _try right dep_r ;; ret (dep_n, STOP)
     else if decide (dep_r = ∅) then _try left dep_l ;; ret (dep_n, STOP)
     else if decide (dep_l ⊆ dep_r) then
       do ok <- _try left dep_l;
       if ok then ret (dep_n, STOP) else ret (dep_n, EXT)
     else if decide (dep_r ⊆ dep_l) then
       do ok <- _try right dep_r;
       if ok then ret (dep_n, STOP) else ret (dep_n, EXT)
     else ret (dep_n, EXT)
   else if decide (info_r = EXT) then _try right dep_r ;; ret (dep_n, STOP)
   else if decide (info_l = EXT) then _try left dep_l ;; ret (dep_n, STOP)
   else ret (dep_n, STOP))%comp.

(** One attempt on [node] that decides the result: [STOP] once the node is
    extracted, else the union of the dependencies goes up as [EXT]. *)
Definition try_then (node : expr num) (dep dep_n : gset string)
    : M session (gset string * marker) :=
  (do ok <- _try node dep; ret (dep_n, if ok then STOP else EXT))%comp.

(** The last branch of [_extract]: a node with two children. *)
Definition extract_binary (left right : expr num) (rl rr : gset string * marker)
    : M session (gset string * marker) :=
  (do self <- get;
   let in_dims := list_to_set (dims (expr_info self)) : gset string in
   let dep_l := rl.1 ∩ in_dims in
   let dep_r := rr.1 ∩ in_dims in
   let dep_n := dep_l ∪ dep_r in
   if decide (mode self ∈ ["normal"; "only_const"; "only_outdomain"]) then
     _normal left right dep_l dep_r dep_n rl.2 rr.2
   else if decide (mode self = "only_domain") then
     _soft left right dep_l dep_r dep_n rl.2 rr.2
   else if decide (mode self = "aggressive") then
     _aggressive left right dep_l dep_r dep_n rl.2 rr.2
   else raise)%comp.

(** The [FunCall] and [Ternary] branch, given the results for the children. *)
Definition combine_args (arg_deps : list (gset string * marker)) : gset string * marker :=
  (⋃ (fst <$> arg_deps),
   if forallb (λ r, bool_decide (r.2 = EXT)) arg_deps then EXT else STOP).

Fixpoint _extract (node : expr num) : M session (gset string * marker) :=
  match node with
  | Symbol _ _ => (do self <- get; ret (lda self node, EXT))%comp
  | Par child => _extract child
  | FunCall _ args =>
      (do arg_deps <-
         (fix go (l : list (expr num)) : M session (list (gset string * marker)) :=
            match l with
            | [] => ret []
            | n :: l' => (do r <- _extract n; do rs <- go l'; ret (r :: rs))
            end) args;
       ret (combine_args arg_deps))%comp
  | Ternary c t f =>
      (do rc <- _extract c; do rt <- _extract t; do rf <- _extract f;
       ret (combine_args [rc; rt; rf]))%comp
  | Sum l r | Sub l r | Prod l r | Div l r =>
      (do rl <- _extract l; do rr <- _extract r; extract_binary l r rl rr)%comp
  | Neg _ | RawNum _ => raise
  end.

(** The trees [_extract] handles without raising: symbols, [Par], [FunCall],
    [Ternary] and the four binary operators. *)
Fixpoint extractable (node : expr num) : bool :=
  match node with
  | Symbol _ _ => true
  | Par c => extractable c
  | FunCall _ args => forallb extractable args
  | Ternary c t f => extractable c && extractable t && extractable f
  | Sum l r | Sub l r | Prod l r | Div l r => extractable l && extractable r
  | Neg _ | RawNum _ => false
  end.

Definition modes : list string :=
  ["normal"; "aggressive"; "only_const"; "only_domain"; "only_outdomain"].

(** [__call__(self, mode, look_ahead, lda)] *)
Definition call (mode' : string) (look_ahead' : bool) (lda' : expr num → gset string)
    : M session (list (list string * list (expr num))) :=
  (modify (λ x, {| stmt := stmt x; expr_info := expr_info x; header := header x;
                   decls := decls x; hoisted := hoisted x; expr_graph := expr_graph x;
                   counter := counter x;
                   mode := mode'; look_ahead := look_ahead'; lda := lda';
                   extracted := [] |}) ;;
   do self <- get;
   _extract (rvalue (stmt self)) ;;
   modify (λ x, {| stmt := stmt x; expr_info := expr_info x; header := header x;
                   decls := decls x; hoisted := hoisted x; expr_graph := expr_graph x;
                   counter := S (counter x);
                   mode := mode x; look_ahead := look_ahead x; lda := lda x;
                   extracted := extracted x |}) ;;
   do self <- get;
   ret (extracted self))%comp.

(** The keyword arguments [licm] reads on the look-ahead path:
    [kwargs.get('look_ahead')] by its truth value and [kwargs.get('lda')]. *)
Record licm_kwargs : Type := {
  kw_look_ahead : bool;
  kw_lda : option (expr num → gset string)
}.

(** The loop-dependence analysis [ldanalysis(self.header, value='dim')] lives
    in [visitors.py], which is not under [src/]; it is a parameter, and so are
    the two calls of the hoisting path, [self.reassociate()] and
    [self.expr_hoister.licm(mode, **kwargs)]. *)
Context (ldanalysis : Header → expr num → gset string).
Context (reassociate_step : M session unit).
Context (hoister_licm : string → licm_kwargs → M session unit).

(** [ExpressionHoister.extract(self, mode, **kwargs)] *)
Definition extract (mode' : string) (kw : licm_kwargs)
    : M session (list (list string * list (expr num))) :=
  (do self <- get;
   let lda' := default (ldanalysis (header self)) (kw_lda kw) in
   call mode' true lda')%comp.

(** What [ExpressionRewriter.licm] returns: the extractor's dictionary on the
    look-ahead path, the rewriter itself otherwise. *)
Inductive licm_result : Type :=
| Extracted (d : list (list string * list (expr num)))
| Self.

Definition licm (mode' : string) (kw : licm_kwargs) : M session licm_result :=
  (if kw_look_ahead kw then
     do d <- extract mode' kw; ret (Extracted d)
   else
     (if decide (mode' = "aggressive") then reassociate_step else ret tt) ;;
     hoister_licm mode' kw ;;
     ret Self)%comp.
End Extractor.
Arguments session : clear implicits.
Arguments licm_kwargs : clear implicits.
Arguments licm_result : clear implicits.
End ExpressionExtractor.

(** ** The rewriter facade ([rewriter.py], class [ExpressionRewriter]) *)
Module ExpressionRewriter.
Import ExpressionExtractor.

(** Modelled from the spec: [FindInstances(Symbol).visit(node)[Symbol]]
    ([visitors.py], not under [src/]): every [Symbol] occurrence of the
    subtree, here from left to right. *)
Fixpoint find_symbols {num} (node : expr num) : list (expr num) :=
  match node with
  | Symbol _ _ => [node]
  | RawNum _ => []
  | Par c | Neg c => find_symbols c
  | Sum l r | Sub l r | Prod l r | Div l r => find_symbols l ++ find_symbols r
  | FunCall _ args => concat (map find_symbols args)
  | Ternary c t f => find_symbols c ++ find_symbols t ++ find_symbols f
  end.

(** [s.rank] and [s.symbol] of a [Symbol]. *)
Definition rank_of {num} (s : expr num) : list string :=
  match s with Symbol _ r => r | _ => [] end.

Definition symbol_of {num} (s : expr num) : option (sym_name num) :=
  match s with Symbol n _ => Some n | _ => None end.

(** [Counter(l)]: the distinct elements in the order of their first
    occurrence, each with its number of occurrences. *)
Fixpoint counter_add {K} `{EqDecision K} (k : K) (c : list (K * nat)) : list (K * nat) :=
  match c with
  | [] => [(k, 1)]
  | (k', n) :: c' => if decide (k = k') then (k', S n) :: c' else (k', n) :: counter_add k c'
  end.

Definition Counter {K} `{EqDecision K} (l : list K) : list (K * nat) :=
  foldl (λ c k, counter_add k c) [] l.

(** [max(items, key=itemgetter(1))], which [most_common(1)] comes down to:
    the first item with the largest count.  The order in which a Python 2
    dictionary yields its items is unspecified; the model yields them by
    first occurrence, and the properties below hold for every order. *)
Fixpoint max_by_count {K} (best : K * nat) (c : list (K * nat)) : K * nat :=
  match c with
  | [] => best
  | x :: c' => max_by_count (if Nat.leb x.2 best.2 then best else x) c'
  end.

Definition most_common_1 {K} `{EqDecision K} (l : list K) : option K :=
  match Counter l with
  | [] => None
  | x :: c => Some (max_by_count x c).1
  end.

(** The first lines of the [standard] mode of [expand] and [factorize]:
    the dimensions the occurrences are counted on. *)
Definition standard_dims (info : MetaExpr) : list string :=
  let dims := out_domain_dims info in
  if bool_decide (dims = []) || Nat.leb 2 (dimension info) then domain_dims info
  else dims.

(** [occurrences = [tuple(r for r in s.rank if r in dims) for s in symbols]]
    without its empty tuples. *)
Definition occurrences {num} (dims : list string) (symbols : list (expr num))
    : list (list string) :=
  filter (λ o, o ≠ [])
    (map (λ s, filter (λ r, r ∈ dims) (rank_of s)) symbols).

(** The dimension [standard] settles on, [None] when no symbol has one. *)
Definition standard_dimension {num} (info : MetaExpr) (rv : expr num)
    : option (list string) :=
  most_common_1 (occurrences (standard_dims info) (find_symbols rv)).

(** [set(dimension).issubset(set(n.rank))] *)
Definition rank_includes {num} (dimension : list string) (n : expr num) : bool :=
  bool_decide (dimension ⊆ rank_of n).

(** *** [replacediv] *)
Section ReplaceDiv.
Context {num : Type} `{Number num}.

(** Python 2's [str.isdigit]: at least one character, all of them digits. *)
Definition isdigit (s : string) : bool :=
  negb (bool_decide (s = ""))
  && forallb (λ c, Ascii.leb "0"%char c && Ascii.leb c "9"%char)
       (String.list_ascii_of_string s).

(** Modelled from the spec: [FindInstances(Div).visit(node)[Div]]
    ([visitors.py], not under [src/]): every [Div] node of the subtree, the
    nested ones included. *)
Fixpoint find_divs (node : expr num) : list (expr num) :=
  match node with
  | Symbol _ _ | RawNum _ => []
  | Par c | Neg c => find_divs c
  | Div l r => node :: find_divs l ++ find_divs r
  | Sum l r | Sub l r | Prod l r => find_divs l ++ find_divs r
  | FunCall _ args => concat (map find_divs args)
  | Ternary c t f => find_divs c ++ find_divs t ++ find_divs f
  end.

(** One round of the loop [for i in divisions]: the entry added to
    [to_replace] for the division [i], if any; the outer [None] is the
    [ZeroDivisionError] of [1.0 / 0]. *)
Definition division_entry (i : expr num) : option (option (expr num)) :=
  match i with
  | Div i_left (Symbol (SNum v) _) =>
      r ← recip v; Some (Some (Prod i_left (RawNum r)))
  | Div i_left (Symbol (SStr name) _ as i_right) =>
      if isdigit name then
        r ← recip (float_of_digits name); Some (Some (Prod i_left (RawNum r)))
      else Some (Some (Prod i_left (Div (RawNum one) i_right)))
  | _ => Some None
  end.

(** The dictionary [to_replace] once the loop is over.  Its keys are node
    objects, and the value stored for a division is a function of that
    division alone, so it is read here as a function of the node. *)
Definition to_replace (n : expr num) : option (expr num) :=
  match n with
  | Div _ _ => mjoin (division_entry n)
  | _ => None
  end.

(** Modelled from the spec: [ast_replace(node, to_replace, copy=True,
    mode='symbol')] ([utils.py], whose version under [src/] predates it): a
    child found among the keys is replaced by a copy of its value, and the
    children of any other node are visited in turn. *)
Fixpoint ast_replace_under (repl : expr num → option (expr num)) (n : expr num)
    : expr num :=
  match repl n with
  | Some r => r
  | None =>
      match n with
      | Symbol _ _ | RawNum _ => n
      | Par c => Par (ast_replace_under repl c)
      | Neg c => Neg (ast_replace_under repl c)
      | Sum l r => Sum (ast_replace_under repl l) (ast_replace_under repl r)
      | Sub l r => Sub (ast_replace_under repl l) (ast_replace_under repl r)
      | Prod l r => Prod (ast_replace_under repl l) (ast_replace_under repl r)
      | Div l r => Div (ast_replace_under repl l) (ast_replace_under repl r)
      | FunCall f args => FunCall f (map (ast_replace_under repl) args)
      | Ternary c t f =>
          Ternary (ast_replace_under repl c) (ast_replace_under repl t)
            (ast_replace_under repl f)
      end
  end.

(** [replacediv] on the right-hand side of the statement: the loop runs over
    every division first, and any [ZeroDivisionError] leaves the method before
    a node is replaced. *)
Definition replacediv (rv : expr num) : option (expr num) :=
  _ ← mapM division_entry (find_divs rv);
  Some (ast_replace_under to_replace rv).

(** No division below [node]. *)
Definition div_free (node : expr num) : Prop := find_divs node = [].
End ReplaceDiv.

(** *** [reassociate] *)

(** Modelled from the spec: [explore_operator(node)] ([utils.py], whose
    version under [src/] predates it) on a [Prod]: the operands of the chain
    of products rooted at [node], from left to right. *)
Fixpoint explore_operator {num} (node : expr num) : list (expr num) :=
  match node with
  | Prod a b => explore_operator a ++ explore_operator b
  | _ => [node]
  end.

(** Modelled from the spec: [ast_make_expr(Prod, children, balance=False)]
    (same file) on the non-empty tuple [x :: rest]: the product of the
    children, nested to the right; a single child is returned as it is. *)
Fixpoint ast_make_expr {num} (x : expr num) (rest : list (expr num)) : expr num :=
  match rest with
  | [] => x
  | y :: rest' => Prod x (ast_make_expr y rest')
  end.

Section Reassociate.
Context {num K : Type} (leb : K → K → bool) (reorder : expr num → K).

(** The operands of a chain of products, as the [Prod] branch of
    [_reassociate] sees them: the nodes that are not symbols, each one after
    the recursive call on it, and the symbols.  [recur] is [_reassociate]. *)
Fixpoint reassociate_operands (recur : expr num → option (expr num)) (n : expr num)
    : option (list (expr num) * list (expr num)) :=
  match n with
  | Prod a b =>
      '(other_a, symbols_a) ← reassociate_operands recur a;
      '(other_b, symbols_b) ← reassociate_operands recur b;
      Some (other_a ++ other_b, symbols_a ++ symbols_b)
  | Symbol _ _ => Some ([], [n])
  | _ => n' ← recur n; Some ([n'], [])
  end.

(** The inner function [_reassociate(node, parent)]; the value is the node
    that stands in [parent] at the place of [node] afterwards.  In the last
    branch [warning] is called with a second argument that is not a warning
    category, which Python refuses: the branch raises. *)
Fixpoint _reassociate (node : expr num) : option (expr num) :=
  match node with
  | Symbol _ _ | Div _ _ => Some node
  | Par child => Par <$> _reassociate child
  | Sum l r => l' ← _reassociate l; r' ← _reassociate r; Some (Sum l' r')
  | Sub l r => l' ← _reassociate l; r' ← _reassociate r; Some (Sub l' r')
  | FunCall f args => FunCall f <$> mapM _reassociate args
  | Prod l r =>
      '(other_l, symbols_l) ← reassociate_operands _reassociate l;
      '(other_r, symbols_r) ← reassociate_operands _reassociate r;
      match (other_l ++ other_r) ++ sorted leb reorder (symbols_l ++ symbols_r) with
      | [] => None
      | x :: rest => Some (ast_make_expr x rest)
      end
  | Neg _ | Ternary _ _ _ | RawNum _ => None
  end.

(** [reassociate(self, reorder)] on the right-hand side of the statement;
    see [default_reorder] for the key used when [reorder] is [None]. *)
Definition reassociate (rv : expr num) : option (expr num) := _reassociate rv.

(** The trees [_reassociate] goes through without raising: [Neg], [Ternary]
    and bare numbers occur below divisions only. *)
Fixpoint reassociable (node : expr num) : bool :=
  match node with
  | Symbol _ _ | Div _ _ => true
  | Par c => reassociable c
  | Sum l r | Sub l r | Prod l r => reassociable l && reassociable r
  | FunCall _ args => forallb reassociable args
  | Neg _ | Ternary _ _ _ | RawNum _ => false
  end.
End Reassociate.

(** The default key, [lambda n: (n.rank, n.dim)], and the order of Python on
    such pairs: tuples compare entry by entry, a proper prefix first; [n.dim]
    is the number of indices of the symbol. *)
Definition default_reorder {num} (n : expr num) : list string * nat :=
  (rank_of n, length (rank_of n)).

Fixpoint rank_compare (a b : list string) : comparison :=
  match a, b with
  | [], [] => Eq
  | [], _ :: _ => Lt
  | _ :: _, [] => Gt
  | x :: a', y :: b' =>
      match String.compare x y with
      | Eq => rank_compare a' b'
      | c => c
      end
  end.

Definition default_leb (k1 k2 : list string * nat) : bool :=
  match rank_compare k1.1 k2.1 with
  | Lt => true
  | Gt => false
  | Eq => Nat.leb k1.2 k2.2
  end.

Section Facade.
Context {num Header Decls Hoisted Graph Passes : Type}.

(** The rewriter object: its attributes, the private state of the objects
    it creates ([expr_hoister], [expr_expander], [expr_factorizer]) and the
    warnings issued so far. *)
Record rewriter : Type := {
  stmt : writer num;
  expr_info : MetaExpr;
  decls : Decls;
  header : Header;
  hoisted : Hoisted;
  expr_graph : Graph;
  passes : Passes;
  warnings : list string
}.

Definition warning (msg : string) : M rewriter unit :=
  modify (λ x, {| stmt := stmt x; expr_info := expr_info x; decls := decls x;
                  header := header x; hoisted := hoisted x;
                  expr_graph := expr_graph x; passes := passes x;
                  warnings := warnings x ++ [msg] |}).

(** The keyword arguments read by [expand] and [factorize]. *)
Record kwargs : Type := {
  kw_dimensions : list string;
  kw_lda : option (sym_name num → gset string);
  kw_adhoc : list (string * list string);
  kw_heuristic : bool;
  kw_not_aggregate : bool
}.

Definition set_heuristic (kw : kwargs) : kwargs :=
  {| kw_dimensions := kw_dimensions kw; kw_lda := kw_lda kw; kw_adhoc := kw_adhoc kw;
     kw_heuristic := true; kw_not_aggregate := kw_not_aggregate kw |}.

(** What a facade method returns: [self], or [None] after a bare [return]. *)
Inductive returned : Type := ReturnedSelf | ReturnedNone.

(** The passes behind the facade are parameters here:
    [self.expr_expander.expand(should_expand, **kwargs)] followed by
    [self.decls.update(self.expr_expander.expanded_decls)],
    [self.expr_factorizer.factorize(should_factorize, **kwargs)], and, from
    files that are not under [src/], the analysis
    [ldanalysis(self.expr_info.outermost_loop, key='symbol', value='dim')] and
    the property [urepr] of a symbol. *)
Context (expander_expand : (expr num → bool) → kwargs → M rewriter unit).
Context (factorizer_factorize : (expr num → bool) → kwargs → M rewriter unit).
Context (ldanalysis : rewriter → sym_name num → gset string).
Context (urepr : expr num → string).

(** [lda.get(n.symbol)], the empty set standing for a missing entry too. *)
Definition lda_get (lda : sym_name num → gset string) (n : expr num) : gset string :=
  match symbol_of n with Some name => lda name | None => ∅ end.

Definition depends_on_any (lda : sym_name num → gset string) (dims : list string)
    (n : expr num) : bool :=
  bool_decide (lda_get lda n ≠ ∅) && bool_decide (∃ r, r ∈ lda_get lda n ∧ r ∈ dims).

Definition not_within (lda : sym_name num → gset string) (dims : list string)
    (n : expr num) : bool :=
  bool_decide (lda_get lda n ≠ ∅)
  && negb (bool_decide (lda_get lda n ⊆ list_to_set dims)).

Definition expand (mode : string) (kw : kwargs) : M rewriter returned :=
  (do self <- get;
   let run should_expand := (expander_expand should_expand kw ;; ret ReturnedSelf) in
   if decide (mode = "standard") then
     match standard_dimension (expr_info self) (rvalue (stmt self)) with
     | None => ret ReturnedSelf
     | Some dimension => run (rank_includes dimension)
     end
   else if decide (mode = "dimensions") then
     run (rank_includes (kw_dimensions kw))
   else if decide (mode ∈ ["all"; "domain"; "outdomain"]) then
     let lda := default (ldanalysis self) (kw_lda kw) in
     if decide (mode = "all") then
       run (depends_on_any lda (dims (expr_info self)))
     else if decide (mode = "domain") then
       run (depends_on_any lda (domain_dims (expr_info self)))
     else
       run (not_within lda (domain_dims (expr_info self)))
   else
     warning "Unknown expansion strategy. Skipping." ;; ret ReturnedNone)%comp.

Definition factorize (mode : string) (kw : kwargs) : M rewriter returned :=
  (do self <- get;
   let run should_factorize kw' :=
     (factorizer_factorize should_factorize kw' ;; ret ReturnedSelf) in
   if decide (mode = "standard") then
     match standard_dimension (expr_info self) (rvalue (stmt self)) with
     | None => ret ReturnedSelf
     | Some dimension => run (rank_includes dimension) kw
     end
   else if decide (mode = "dimensions") then
     run (rank_includes (kw_dimensions kw)) kw
   else if decide (mode = "adhoc") then
     match kw_adhoc kw with
     | [] => ret ReturnedSelf
     | adhoc => run (λ n, bool_decide (urepr n ∈ adhoc.*1)) kw
     end
   else if decide (mode = "heuristic") then
     run (λ _, false) (set_heuristic kw)
   else if decide (mode ∈ ["all"; "domain"; "outdomain"; "constants"]) then
     let lda := default (ldanalysis self) (kw_lda kw) in
     if decide (mode = "all") then
       run (depends_on_any lda (dims (expr_info self))) kw
     else if decide (mode = "domain") then
       run (depends_on_any lda (domain_dims (expr_info self))) kw
     else if decide (mode = "outdomain") then
       run (not_within lda (domain_dims (expr_info self))) kw
     else
       run (λ n, bool_decide (lda_get lda n = ∅)) kw
   else
     warning "Unknown factorization strategy. Skipping." ;; ret ReturnedNone)%comp.

Definition expand_modes : list string :=
  ["standard"; "dimensions"; "all"; "domain"; "outdomain"].

Definition factorize_modes : list string :=
  ["standard"; "dimensions"; "adhoc"; "heuristic"; "all"; "domain"; "outdomain";
   "constants"].
End Facade.
Arguments rewriter : clear implicits.
Arguments kwargs : clear implicits.
End ExpressionRewriter.

(** ** The expander ([rewriter.py], class [ExpressionExpander]) *)
Module ExpressionExpander.

(** The two markers of [_expand]. *)
Inductive kind : Type := GROUP | EXPAND.

#[global] Instance kind_eq_dec : EqDecision kind.
Proof. solve_decision. Defined.

(** [_expand(node, parent)] mutates the tree below [parent] and returns a
    list of node objects with a marker.  The nodes of that list are either
    nodes of the tree that now stands at the place of [node], found there
    below [Par], [Sum] and [Sub] nodes only and listed from left to right, or
    the fresh [Neg(r)] nodes of the [Sub] branch and the products built on
    them, which stand nowhere in the tree.  Both are kept in one value: the
    tree, with the nodes of the list marked in it ([Listed]) and the nodes
    that stand nowhere hung on the [Sub] node that made them ([MSub]). *)
Inductive marked (num : Type) : Type :=
| Plain (t : expr num)
| Listed (e : expr num)
| MPar (c : marked num)
| MSum (l r : marked num)
| MSub (l : marked num) (r : expr num) (negated : list (expr num)).
Arguments Plain {num} t.
Arguments Listed {num} e.
Arguments MPar {num} c.
Arguments MSum {num} l r.
Arguments MSub {num} l r negated.

Section Expander.
Context {num : Type}.

(** The tree itself. *)
Fixpoint erase (m : marked num) : expr num :=
  match m with
  | Plain t | Listed t => t
  | MPar c => Par (erase c)
  | MSum l r => Sum (erase l) (erase r)
  | MSub l r _ => Sub (erase l) r
  end.

(** The returned list. *)
Fixpoint listed (m : marked num) : list (expr num) :=
  match m with
  | Plain _ => []
  | Listed e => [e]
  | MPar c => listed c
  | MSum l r => listed l ++ listed r
  | MSub l _ negated => listed l ++ negated
  end.

(** Modelled from the spec: [ast_make_expr(op, nodes)] ([utils.py], whose
    version under [src/] predates it) with its default [balance=True]: one
    node is returned as it is, more are split in two halves; on no node at
    all the result is [None].  [fuel] bounds the depth, the length of
    [nodes] is enough. *)
Fixpoint ast_make_bal_expr {T} (op : T → T → T) (fuel : nat) (nodes : list T)
    : option T :=
  match fuel with
  | 0 => None
  | S fuel' =>
      match nodes with
      | [] => None
      | [x] => Some x
      | _ =>
          let half := length nodes / 2 in
          a ← ast_make_bal_expr op fuel' (take half nodes);
          b ← ast_make_bal_expr op fuel' (drop half nodes);
          Some (op a b)
      end
  end.

(** The [Prod] branch from [to_replace = OrderedDict()] to [ast_replace]:
    every node [exp] of the list of the expandable side is replaced, where
    it stands, by the sum of the products [Prod(exp, dcopy(grp))], one for
    each [grp] of the list of the other side; the new list is made of these
    products. *)
Fixpoint distribute (groupable : list (expr num)) (m : marked num)
    : option (marked num) :=
  match m with
  | Plain t => Some (Plain t)
  | Listed exp =>
      ast_make_bal_expr MSum (length groupable)
        ((λ grp, Listed (Prod exp grp)) <$> groupable)
  | MPar c => MPar <$> distribute groupable c
  | MSum l r =>
      l' ← distribute groupable l; r' ← distribute groupable r; Some (MSum l' r')
  | MSub l r negated =>
      l' ← distribute groupable l;
      Some (MSub l' r (exp ← negated; (λ grp, Prod exp grp) <$> groupable))
  end.

Section WithPredicate.
Context (should_expand : expr num → bool).

Fixpoint _expand (node : expr num) : option (marked num * kind) :=
  match node with
  | Symbol _ _ =>
      Some (Listed node, if should_expand node then EXPAND else GROUP)
  | Par child => '(c, k) ← _expand child; Some (MPar c, k)
  | Div l r =>
      '(l', _) ← _expand l; '(r', _) ← _expand r;
      Some (Listed (Div (erase l') (erase r')), GROUP)
  | FunCall f args =>
      args' ← mapM (λ n, erase ∘ fst <$> _expand n) args;
      Some (Listed (FunCall f args'), GROUP)
  | Prod l r =>
      '(l', l_type) ← _expand l;
      '(r', r_type) ← _expand r;
      if decide (l_type = GROUP ∧ r_type = GROUP) then
        Some (Listed (Prod (erase l') (erase r')), GROUP)
      else
        let groupable := if decide (l_type = GROUP) then listed l' else listed r' in
        let expandable := if decide (l_type = GROUP) then r' else l' in
        expanded ← distribute groupable expandable;
        Some (match listed expanded with
              | [] => Listed (erase expanded)
              | _ => expanded
              end, EXPAND)
  | Sum l r =>
      '(l', l_type) ← _expand l;
      '(r', r_type) ← _expand r;
      if decide (l_type = EXPAND ∧ r_type = EXPAND) then Some (MSum l' r', EXPAND)
      else Some (Listed (Sum (erase l') (erase r')), GROUP)
  | Sub l r =>
      '(l', l_type) ← _expand l;
      '(r', r_type) ← _expand r;
      if decide (l_type = EXPAND ∧ r_type = EXPAND) then
        Some (MSub l' (erase r') (Neg <$> listed r'), EXPAND)
      else Some (Listed (Sub (erase l') (erase r')), GROUP)
  | Neg _ | Ternary _ _ _ | RawNum _ => None
  end.

(** [expand(self, should_expand, not_aggregate=True)] on the right-hand side
    of the statement: the loop over [expressions] runs once, on
    [(self.stmt.rvalue, self.stmt)], and goes on to its next round right
    after [_expand]. *)
Definition expand (rv : expr num) : option (expr num) :=
  '(m, _) ← _expand rv; Some (erase m).

(** A sum of two symbols that both satisfy [should_expand], and a symbol
    that does not. *)
Definition expandable_sum (t : expr num) : bool :=
  match t with
  | Sum (Symbol a ra) (Symbol b rb) =>
      should_expand (Symbol a ra) && should_expand (Symbol b rb)
  | _ => false
  end.

Definition group_symbol (t : expr num) : bool :=
  match t with
  | Symbol _ _ => negb (should_expand t)
  | _ => false
  end.

(** [Prod(Sum(a, b), g)] or [Prod(g, Sum(a, b))] with [a] and [b] expandable
    symbols and [g] a symbol to group. *)
Definition undistributed (t : expr num) : bool :=
  match t with
  | Prod l r =>
      expandable_sum l && group_symbol r || group_symbol l && expandable_sum r
  | _ => false
  end.

(** No such product anywhere in the tree. *)
Fixpoint distributed (t : expr num) : bool :=
  negb (undistributed t) &&
  match t with
  | Symbol _ _ | RawNum _ => true
  | Par c | Neg c => distributed c
  | Sum l r | Sub l r | Prod l r | Div l r => distributed l && distributed r
  | FunCall _ args => forallb distributed args
  | Ternary c t f => distributed c && distributed t && distributed f
  end.

(** The product the claim is about, as the spec words it: a sum on one side
    and, on the other, a symbol [g] for which [should_expand] holds. *)
Definition sum_times_expandable (t : expr num) : bool :=
  match t with
  | Prod (Sum _ _) g | Prod g (Sum _ _) => is_Symbol g && should_expand g
  | _ => false
  end.

(** The trees [_expand] knows. *)
Fixpoint expandable_tree (t : expr num) : bool :=
  match t with
  | Symbol _ _ => true
  | Par c => expandable_tree c
  | Sum l r | Sub l r | Prod l r | Div l r => expandable_tree l && expandable_tree r
  | FunCall _ args => forallb expandable_tree args
  | Neg _ | Ternary _ _ _ | RawNum _ => false
  end.

(** The marker [_expand] returns for a tree, read off its [return]
    statements: a symbol is marked by [should_expand], a parenthesis as its
    child, a product [GROUP] when both operands are, a sum or a difference
    [EXPAND] when both operands are, a division or a call [GROUP].  A [Neg]
    node is made by the [Sub] branch for the list it returns with [EXPAND]. *)
Fixpoint marker_of (t : expr num) : kind :=
  match t with
  | Symbol _ _ => if should_expand t then EXPAND else GROUP
  | Par c => marker_of c
  | Prod l r =>
      if decide (marker_of l = GROUP ∧ marker_of r = GROUP) then GROUP else EXPAND
  | Sum l r | Sub l r =>
      if decide (marker_of l = EXPAND ∧ marker_of r = EXPAND) then EXPAND else GROUP
  | Neg _ => EXPAND
  | Div _ _ | FunCall _ _ | Ternary _ _ _ | RawNum _ => GROUP
  end.

(** A sum, a difference or a parenthesis: what a product is distributed
    over. *)
Definition spread (t : expr num) : bool :=
  match t with
  | Sum _ _ | Sub _ _ | Par _ => true
  | _ => false
  end.

(** A product with nothing left to distribute: both operands are marked
    [GROUP]; or the left one is marked [EXPAND] and is no sum, difference or
    parenthesis, and the right one is marked [GROUP] or is none either. *)
Definition settled_product (l r : expr num) : bool :=
  match marker_of l, marker_of r with
  | GROUP, GROUP => true
  | EXPAND, GROUP => negb (spread l)
  | EXPAND, EXPAND => negb (spread l) && negb (spread r)
  | GROUP, EXPAND => false
  end.

(** Every product of the tree is settled. *)
Fixpoint settled (t : expr num) : bool :=
  match t with
  | Symbol _ _ | RawNum _ => true
  | Par c | Neg c => settled c
  | Prod l r => settled_product l r && settled l && settled r
  | Sum l r | Sub l r | Div l r => settled l && settled r
  | FunCall _ args => forallb settled args
  | Ternary c t f => settled c && settled t && settled f
  end.
End WithPredicate.
End Expander.
End ExpressionExpander.

(** ** Aggregation with hoisted temporaries ([ExpressionExpander._hoist]) *)
Module Aggregation.
Import ExpressionGraph ExpressionExtractor ExpressionRewriter.

Section Graph.
Context {num : Type} `{Countable num}.

(** Modelled from the spec: the class [ExpressionGraph] the rewriter imports
    from [ast_analyzer.py], which is not under [src/].  [is_written(s)] holds
    when [s] has an outgoing edge, [is_read(s)] when it has an incoming one;
    [add_dependency(lhs, rhs)] adds an edge from [lhs] to every symbol of
    [rhs], and a self-edge when [lhs] has outgoing edges already. *)
Definition is_written (g : digraph num) (s : sym_name num) : bool :=
  bool_decide (set_Exists (λ e, e.1 = s) (edges g)).

Definition is_read (g : digraph num) (s : sym_name num) : bool :=
  bool_decide (set_Exists (λ e, e.2 = s) (edges g)).

Definition add_dependency (lhs : sym_name num) (rhs : expr num) (g : digraph num)
    : digraph num :=
  DiGraph ({[lhs]} ∪ symbols_of rhs ∪ nodes g)
    (set_map (λ s, (lhs, s)) (symbols_of rhs)
     ∪ (if is_written g lhs then {[(lhs, lhs)]} else ∅) ∪ edges g).
End Graph.

Section Hoist.
Context {num Decl Loop Place Tree : Type} `{Countable num}.

(** An entry of the registry [self.hoisted]: the defining statement, the
    declaration, the wrapping loop and the block it was placed in.  The
    statement object is kept here, once; the loop, the block and the
    declaration are references into the header tree. *)
Record hoisted_info : Type := {
  h_stmt : writer num;
  h_decl : Decl;
  h_loop : Loop;
  h_place : Place
}.

(** The expander object with what it shares with the rewriter: the registry,
    the expression graph and the header tree; [cache_map] and [cache_hits]
    are [self.cache._map] and [self.cache._hits]. *)
Record expander : Type := {
  hoisted : gmap string hoisted_info;
  expr_graph : digraph num;
  expanded_decls : gmap string Decl;
  cache_map : gmap (string * string) (expr num);
  cache_hits : gmap (string * string) nat;
  expr_id : nat;
  loops : list Loop;
  tree : Tree
}.

(** What [_hoist] takes from files that are not under [src/]: [str] of a
    node, the dimension of a loop, membership of a loop in the children of a
    block, the two updates of the header tree ([loop.body.append(stmt)],
    which raises on a missing loop, and [insert_at_elem]), and a copy of a
    declaration under a new name. *)
Context (should_expand : expr num → bool).
Context (repr : expr num → string).
Context (loop_dim : Loop → string).
Context (place_has : Tree → Place → Loop → bool).
Context (body_append : Loop → writer num → Tree → option Tree).
Context (insert_at_elem : Place → Decl → Decl → Tree → Tree).
Context (renamed_decl : Decl → string → Decl).

(** [s.symbol in self.hoisted] *)
Definition hoisted_name (self : expander) (s : expr num) : option string :=
  match s with
  | Symbol (SStr name) _ => if decide (name ∈ dom (hoisted self)) then Some name else None
  | _ => None
  end.

(** [Cache.retrieve(key)] *)
Definition retrieve (key : string * string) : M expander (option (expr num)) :=
  (do self <- get;
   match cache_map self !! key with
   | Some exp =>
       modify (λ x, {| hoisted := hoisted x; expr_graph := expr_graph x;
                       expanded_decls := expanded_decls x; cache_map := cache_map x;
                       cache_hits := <[key := S (default 0 (cache_hits x !! key))]>
                                       (cache_hits x);
                       expr_id := expr_id x; loops := loops x; tree := tree x |}) ;;
       ret (Some exp)
   | None => ret None
   end)%comp.

(** [Cache.invalidate(exp)]: every entry whose value prints as [exp] is
    dropped; the result tells whether one of them had been hit. *)
Definition invalidate (exp : expr num) : M expander bool :=
  (do self <- get;
   let stale := filter (λ kv, repr kv.2 = repr exp) (cache_map self) in
   let was_hit :=
     bool_decide (∃ key, key ∈ dom stale ∧ 0 < default 0 (cache_hits self !! key)) in
   modify (λ x, {| hoisted := hoisted x; expr_graph := expr_graph x;
                   expanded_decls := expanded_decls x;
                   cache_map := filter (λ kv, repr kv.2 ≠ repr exp) (cache_map x);
                   cache_hits := cache_hits x;
                   expr_id := expr_id x; loops := loops x; tree := tree x |}) ;;
   ret was_hit)%comp.

(** [l.dim in g.dim] on strings. *)
Definition is_substring (a b : string) : bool :=
  bool_decide (is_Some (String.index 0 a b)).

(** The inner loop [for g in grp_syms] for one loop [l]: [Some true] when a
    symbol of [grp] depends on [l], [None] for the [KeyError] of a symbol
    missing from [info].  [info g] gives the dimensions of the loops the
    references to [g] depend on. *)
Fixpoint depends_on_loop (info : sym_name num → option (list string))
    (l : Loop) (grp_syms : list (sym_name num)) : option bool :=
  match grp_syms with
  | [] => Some false
  | g :: others =>
      g_deps ← info g;
      if existsb (is_substring (loop_dim l)) g_deps then Some true
      else depends_on_loop info l others
  end.

(** The loop [for l in reversed(self.expr_info.loops)]: [true] when it runs
    to its end or to its [break], [false] when it returns [{}]. *)
Fixpoint grp_is_hoistable (info : sym_name num → option (list string))
    (grp_syms : list (sym_name num)) (place : Place) (self : expander)
    (reversed_loops : list Loop) : option bool :=
  match reversed_loops with
  | [] => Some true
  | l :: outer =>
      dependent ← depends_on_loop info l grp_syms;
      if dependent : bool then Some false
      else if place_has (tree self) place l then Some true
      else grp_is_hoistable info grp_syms place self outer
  end.

(** The loops of the nest that enclose the block [place]: those left when the
    loop above stops at its [break], on the loop that stands among the
    children of [place]. *)
Fixpoint enclosing_loops (place : Place) (self : expander)
    (reversed_loops : list Loop) : list Loop :=
  match reversed_loops with
  | [] => []
  | l :: outer =>
      if place_has (tree self) place l then outer
      else enclosing_loops place self outer
  end.

(** [SymbolReferences().visit(grp).keys()] *)
Definition symbol_names (grp : expr num) : list (sym_name num) :=
  remove_dups (omap symbol_of (find_symbols grp)).

(** A new name, ["%(loop_dep)s_EXP_%(expr_id)d_%(i)d"]. *)
Definition _expanded_sym (loop_dep : string) (expr_id i : nat) : string :=
  loop_dep +:+ "_EXP_" +:+ pretty expr_id +:+ "_" +:+ pretty i.

(** The in-place update [hoisted_stmt.rvalue = op(hoisted_stmt.rvalue,
    dcopy(grp))] followed by [self.expr_graph.add_dependency(exp, grp)]. *)
Definition expand_in_place (name : string) (h : hoisted_info) (grp : expr num)
    (x : expander) : expander :=
  {| hoisted :=
       <[name := {| h_stmt := Writer (kind (h_stmt h)) (lvalue (h_stmt h))
                                (Prod (rvalue (h_stmt h)) grp);
                    h_decl := h_decl h; h_loop := h_loop h; h_place := h_place h |}]>
         (hoisted x);
     expr_graph := add_dependency (SStr name) grp (expr_graph x);
     expanded_decls := expanded_decls x; cache_map := cache_map x;
     cache_hits := cache_hits x; expr_id := expr_id x; loops := loops x;
     tree := tree x |}.

(** The other way out: a new symbol, statement and declaration. *)
Definition expand_as_new (name : string) (rank : list string) (h : hoisted_info)
    (grp : expr num) (key : string * string) : M expander (expr num) :=
  (do self <- get;
   let exp := Symbol (SStr name) rank in
   let expr := Prod exp grp in
   let new_name := _expanded_sym name (expr_id self) (size (expanded_decls self)) in
   let hoisted_exp := Symbol (SStr new_name) rank in
   let decl := renamed_decl (h_decl h) new_name in
   let stmt := Writer Assign hoisted_exp expr in
   match body_append (h_loop h) stmt (tree self) with
   | None => raise
   | Some tree1 =>
       modify (λ x, {| hoisted :=
                         <[new_name := {| h_stmt := stmt; h_decl := decl;
                                          h_loop := h_loop h; h_place := h_place h |}]>
                           (hoisted x);
                       expr_graph := add_dependency (SStr new_name) expr (expr_graph x);
                       expanded_decls := <[new_name := decl]> (expanded_decls x);
                       cache_map := <[key := hoisted_exp]> (cache_map x);
                       cache_hits := cache_hits x; expr_id := expr_id x;
                       loops := loops x;
                       tree := insert_at_elem (h_place h) (h_decl h) decl tree1 |}) ;;
       ret hoisted_exp
   end)%comp.

(** [_hoist(self, expansion, info)] for [expansion = Prod(left, grp)]; the
    dictionary it returns has one entry at most. *)
Definition _hoist (left grp : expr num) (info : sym_name num → option (list string))
    : M expander (option (expr num * expr num)) :=
  (do self <- get;
   match filter (λ s, is_Some (hoisted_name self s) ∧ should_expand s = true)
           (find_symbols left) with
   | Symbol (SStr name) rank as exp :: _ =>
       let cache_key := (repr exp, repr grp) in
       do cached <- retrieve cache_key;
       match cached with
       | Some c => ret (Some (exp, c))
       | None =>
           match hoisted self !! name with
           | None => raise
           | Some h =>
               match grp_is_hoistable info (symbol_names grp) (h_place h) self
                       (reverse (loops self)) with
               | None => raise
               | Some false => ret None
               | Some true =>
                   do in_place <-
                     (if is_read (expr_graph self) (SStr name) then ret false
                      else do was_hit <- invalidate exp; ret (negb was_hit));
                   if in_place then
                     modify (expand_in_place name h grp) ;; ret (Some (exp, exp))
                   else
                     do hoisted_exp <- expand_as_new name rank h grp cache_key;
                     ret (Some (exp, hoisted_exp))
               end
           end
       end
   | _ => ret None
   end)%comp.

(** Every cached expansion was made for a symbol that the graph records as
    read: the entry and the edge are added by the same call. *)
Definition cache_consistent (self : expander) : Prop :=
  ∀ key c, cache_map self !! key = Some c →
    ∀ name rank grp, key = (repr (Symbol (SStr name) rank), repr grp) →
      is_read (expr_graph self) (SStr name) = true.

(** The loop [for expansion in self.expansions] of [expand], which runs
    unless [not_aggregate] is set.  [ast_replace(parent, hoisted, copy=True,
    mode='symbol')] followed by [ast_remove(parent, expansion.right,
    mode='symbol')] works on the statement; both functions belong to
    [utils.py], whose version under [src/] predates them, and the pair is a
    parameter.  An expansion [Prod(exp, grp)] is given as a pair. *)
Context (replace_and_remove : expr num * expr num → expr num → writer num → writer num).

Fixpoint aggregate (info : sym_name num → option (list string))
    (expansions : list (expr num * expr num)) (stmt : writer num)
    : M expander (writer num) :=
  match expansions with
  | [] => ret stmt
  | (exp, grp) :: others =>
      (do found <- _hoist exp grp info;
       match found with
       | Some entry => aggregate info others (replace_and_remove entry grp stmt)
       | None => aggregate info others stmt
       end)%comp
  end.

(** [expand(self, should_expand, **kwargs)] on the statement.  [expansions]
    stands for the list [self.expansions] that [_expand] leaves, and [info]
    for the result of [visit]; what is proved of [expand_statement] holds for
    every list and every [info]. *)
Definition expand_statement (not_aggregate : bool)
    (info : sym_name num → option (list string))
    (expansions : list (expr num * expr num)) (stmt : writer num)
    : M expander (writer num) :=
  match ExpressionExpander.expand should_expand (rvalue stmt) with
  | None => raise
  | Some rv =>
      let stmt' := Writer (kind stmt) (lvalue stmt) rv in
      if not_aggregate then ret stmt' else aggregate info expansions stmt'
  end.
End Hoist.
End Aggregation.

(** ** The factorizer ([rewriter.py], class [ExpressionFactorizer]) *)
Module ExpressionFactorizer.
Import ExpressionRewriter.
Section Factorizer.
Context {num : Type} `{Number num}.

(** [isinstance(s.symbol, (int, float))] *)
Definition is_literal (s : expr num) : bool :=
  match s with Symbol (SNum _) _ => true | _ => false end.

(** [[s.symbol for s in floats]] *)
Definition literal_values (symbols : list (expr num)) : list num :=
  omap (λ s, match s with Symbol (SNum v) _ => Some v | _ => None end) symbols.

(** [reduce(operator.mul, values, 1.0)] *)
Definition product (values : list num) : num := foldl mul one values.

Definition _premultiply_symbols (symbols : list (expr num)) : list (expr num) :=
  let floats := filter (λ s, is_literal s = true) symbols in
  if Nat.ltb 1 (length floats) then
    let other_symbols := filter (λ s, is_literal s = false) symbols in
    let prem := product (literal_values floats) in
    let prem := if is_one prem then [] else [Symbol (SNum prem) []] in
    prem ++ other_symbols
  else symbols.

(** The class [Term]: operands, factors and the operator of the factors. *)
Inductive term_op : Type := OpSum | OpSub | OpProd.

Record Term : Type := {
  operands : list (expr num);
  factors : list (expr num);
  op : option term_op
}.

(** [Term.process(symbols, should_factorize, op)] *)
Definition process (symbols : list (expr num)) (should_factorize : expr num → bool)
    (op' : option term_op) : Term :=
  {| operands := filter (λ s, should_factorize s = true) symbols;
     factors := filter (λ s, should_factorize s = false) symbols;
     op := op' |}.

(** The [Prod] branch of [_factorize] up to the construction of its term:
    the symbols among the operands of the chain, premultiplied, are handed
    to [Term.process]. *)
Definition prod_symbols (node : expr num) : list (expr num) :=
  filter (λ n, is_Symbol n = true) (explore_operator node).

Definition handed_symbols (node : expr num) : list (expr num) :=
  _premultiply_symbols (prod_symbols node).

Definition prod_term (should_factorize : expr num → bool) (node : expr num) : Term :=
  process (handed_symbols node) should_factorize (Some OpProd).

(** A list of at most one literal stands for a number: the literal, or 1
    when there is none. *)
Definition stands_for (literals : list num) (p : num) : Prop :=
  match literals with
  | [] => is_one p = true
  | [v] => v = p
  | _ => False
  end.
End Factorizer.
Arguments Term num : clear implicits.

(** *** [_factorize] *)
Section Factorize.
Context {num : Type} `{Number num}.

(** [o not in self.operands] compares nodes with the [==] of the AST library
    ([base.py], not under [src/]); the test is a parameter.  So is the part
    of the [Sum] and [Sub] branch that follows the recursive calls
    ([_simplify_sum], [_heuristic_collection], [_filter] and the grouping of
    the terms, lines 1249 to 1267): it goes through [str] and [urepr] of the
    nodes and through [ast_make_expr], none of which is under [src/].
    [sum_pass op terms] is the node [factorized] built from the terms of the
    addends. *)
Context (node_eq : expr num → expr num → bool).
Context (should_factorize : expr num → bool).
Context (sum_pass : term_op → list (Term num) → expr num).

(** [for o in operands: if o not in self.operands: self.operands.append(o)] *)
Definition append_new (mine others : list (expr num)) : list (expr num) :=
  foldl (λ acc o, if existsb (λ x, node_eq x o) acc then acc else acc ++ [o]) mine others.

Definition add_operands (t : Term num) (os : list (expr num)) : Term num :=
  {| operands := append_new (operands t) os; factors := factors t; op := op t |}.

Definition add_factors (t : Term num) (fs : list (expr num)) : Term num :=
  {| operands := operands t; factors := append_new (factors t) fs; op := op t |}.

(** The loop [for t in terms] of the [Prod] branch. *)
Definition merge_terms (factorized : Term num) (terms : list (Term num)) : Term num :=
  foldl (λ f t, add_factors (add_operands f (operands t)) (factors t)) factorized terms.

(** The calls [self._factorize(n, p)] on the operands of a chain of products
    that are not symbols, from left to right: their terms, and the chain
    once the calls have rewritten these operands.  [recur] is [_factorize]. *)
Fixpoint factorize_operands (recur : expr num → Term num * expr num) (n : expr num)
    : list (Term num) * expr num :=
  match n with
  | Prod a b =>
      let '(terms_a, a') := factorize_operands recur a in
      let '(terms_b, b') := factorize_operands recur b in
      (terms_a ++ terms_b, Prod a' b')
  | Symbol _ _ => ([], n)
  | _ => let '(t, n') := recur n in ([t], n')
  end.

(** The same calls on the operands of a chain of sums, and of a chain of
    differences ([explore_operator] follows the class of the root). *)
Fixpoint sum_terms (recur : expr num → Term num * expr num) (n : expr num)
    : list (Term num) :=
  match n with
  | Sum a b => sum_terms recur a ++ sum_terms recur b
  | _ => [(recur n).1]
  end.

Fixpoint sub_terms (recur : expr num → Term num * expr num) (n : expr num)
    : list (Term num) :=
  match n with
  | Sub a b => sub_terms recur a ++ sub_terms recur b
  | _ => [(recur n).1]
  end.

(** [Term([], [node])] *)
Definition factor_term (node : expr num) : Term num :=
  {| operands := []; factors := [node]; op := None |}.

(** [_factorize(self, node, parent)]: the term it returns and the node that
    stands in [parent] at the place of [node] afterwards. *)
Fixpoint _factorize (node : expr num) : Term num * expr num :=
  match node with
  | Symbol _ _ => (process [node] should_factorize None, node)
  | Par child => let '(t, child') := _factorize child in (t, Par child')
  | FunCall f args =>
      let node' := FunCall f (map (λ n, (_factorize n).2) args) in
      (factor_term node', node')
  | Div l r =>
      let node' := Div (_factorize l).2 (_factorize r).2 in
      (factor_term node', node')
  | Prod l r =>
      let '(terms_l, l') := factorize_operands _factorize l in
      let '(terms_r, r') := factorize_operands _factorize r in
      let symbols := _premultiply_symbols (prod_symbols node) in
      (merge_terms (process symbols should_factorize (Some OpProd)) (terms_l ++ terms_r),
       Prod l' r')
  | Sum l r =>
      let factorized := sum_pass OpSum (sum_terms _factorize l ++ sum_terms _factorize r) in
      (factor_term factorized, factorized)
  | Sub l r =>
      let factorized := sum_pass OpSub (sub_terms _factorize l ++ sub_terms _factorize r) in
      (factor_term factorized, factorized)
  | Neg _ | Ternary _ _ _ | RawNum _ => (factor_term node, node)
  end.

(** The operands of a chain of products, read off the tree: the values of
    its numeric literals, its other symbols, and its operands that are not
    symbols. *)
Fixpoint chain_literals (n : expr num) : list num :=
  match n with
  | Prod a b => chain_literals a ++ chain_literals b
  | Symbol (SNum v) _ => [v]
  | _ => []
  end.

Fixpoint chain_names (n : expr num) : list (expr num) :=
  match n with
  | Prod a b => chain_names a ++ chain_names b
  | Symbol (SStr _) _ => [n]
  | _ => []
  end.

Fixpoint chain_others (n : expr num) : list (expr num) :=
  match n with
  | Prod a b => chain_others a ++ chain_others b
  | Symbol _ _ => []
  | _ => [n]
  end.
End Factorize.

(** Equality of nodes by value, one reading of [==]. *)
Fixpoint expr_eqb {num} `{EqDecision num} (a b : expr num) : bool :=
  match a, b with
  | Symbol s r, Symbol s' r' => bool_decide (s = s') && bool_decide (r = r')
  | RawNum v, RawNum v' => bool_decide (v = v')
  | Par c, Par c' | Neg c, Neg c' => expr_eqb c c'
  | Sum l r, Sum l' r' | Sub l r, Sub l' r' | Prod l r, Prod l' r'
  | Div l r, Div l' r' => expr_eqb l l' && expr_eqb r r'
  | FunCall f args, FunCall f' args' =>
      bool_decide (f = f') &&
      (fix go (xs ys : list (expr num)) : bool :=
         match xs, ys with
         | [], [] => true
         | x :: xs', y :: ys' => expr_eqb x y && go xs' ys'
         | _, _ => false
         end) args args'
  | Ternary c t f, Ternary c' t' f' => expr_eqb c c' && expr_eqb t t' && expr_eqb f f'
  | _, _ => false
  end.
End ExpressionFactorizer.

(** ** Utilities ([utils.py]) *)
Module Utils.

(** Python's order on pairs of integers: by the first entry, then by the
    second. *)
Definition pair_leb (a b : Z * Z) : bool :=
  (a.1 <? b.1)%Z || ((a.1 =? b.1)%Z && (a.2 <=? b.2)%Z).

(** The loop of [itspace_merge] over the iteration spaces left, followed by
    the last [append]. *)
Fixpoint merge_from (merged_itspaces : list (Z * Z)) (current : Z * Z)
    (itspaces : list (Z * Z)) : list (Z * Z) :=
  match itspaces with
  | [] => merged_itspaces ++ [current]
  | (start, stop) :: rest =>
      if (start - 1 >? current.2)%Z then
        merge_from (merged_itspaces ++ [current]) (start, stop) rest
      else
        merge_from merged_itspaces (current.1, Z.max current.2 stop) rest
  end.

(** [itspace_merge(itspaces)]; [sorted(tuple(set(itspaces)))] is the list of
    the distinct iteration spaces in increasing order, and [itspaces[0]]
    raises [IndexError] when there is none. *)
Definition itspace_merge (itspaces : list (Z * Z)) : option (list (Z * Z)) :=
  let itspaces := sorted pair_leb id (remove_dups itspaces) in
  match itspaces with
  | [] => None
  | current :: _ => Some (merge_from [] current itspaces)
  end.

(** [itspace_size_ofs(itspace)]: [zip] over the entries of [itspace_info]
    yields the sizes and the offsets, and nothing at all on an empty
    [itspace]. *)
Definition itspace_size_ofs (itspace : list (string * (Z * Z)))
    : list (list (string * Z)) :=
  let itspace_info :=
    (λ '(var, bounds), ((var, bounds.2 - bounds.1 + 1), (var, bounds.1))%Z) <$> itspace in
  match itspace_info with
  | [] => []
  | _ => [fst <$> itspace_info; snd <$> itspace_info]
  end.

(** The symbols [ast_update_ofs] and [update_expr] work on: a name, a rank
    and the offsets, a pair (stride, offset) for each index, or [()]; any
    other node is seen through its [children] only. *)
#[warnings="-register-all"]
Inductive onode : Type :=
| OSymbol (symbol : string) (rank : list string) (offset : list (Z * Z))
| ONode (children : list onode).

(** [ast_update_ofs(node, ofs)]; the tree is updated in place, the value here
    is the tree afterwards. *)
Fixpoint ast_update_ofs (ofs : gmap string Z) (node : onode) : onode :=
  match node with
  | OSymbol symbol rank offset =>
      let old_ofs := if offset is [] then (λ _, (1, 0)%Z) <$> rank else offset in
      OSymbol symbol rank
        (zip_with (λ r o, (o.1, default o.2 (ofs !! r))) rank old_ofs)
  | ONode children => ONode (ast_update_ofs ofs <$> children)
  end.

(** The statements [inner_loops] and [is_perfect_loop] tell apart: the
    statements that can form part of a perfect loop nest (the mixin class
    [Perfect]: assignments, increments, declarations), [Block], [Root], [For]
    and the rest.  The iteration variable and the size of a loop stand for
    the results of [it_var()] and [size()], from [base.py], which is not under
    [src/]; [node.children[0]] of a loop is its body. *)
#[warnings="-register-all"]
Inductive stmt : Type :=
| Perfect (code : string)
| Block (children : list stmt)
| Root (children : list stmt)
| For (it_var : string) (size : Z) (body : stmt)
| Other (code : string).

(** The inner function [find_iloops(node, loops)]: what it returns, [None]
    counting as [False], and the loops it appends. *)
Fixpoint find_iloops (node : stmt) : bool * list stmt :=
  match node with
  | Perfect _ => (false, [])
  | Block children | Root children =>
      let found := find_iloops <$> children in
      (existsb fst found, concat (snd <$> found))
  | For _ _ body =>
      let '(found, loops) := find_iloops body in
      (true, if found then loops else loops ++ [node])
  | Other _ => (false, [])
  end.

Definition inner_loops (node : stmt) : list stmt := (find_iloops node).2.

(** The inner function [check_perfectness(node, found_block=False)]. *)
Fixpoint check_perfectness (node : stmt) (found_block : bool) : bool :=
  match node with
  | Perfect _ => true
  | For _ _ body => if found_block then false else check_perfectness body false
  | Block stmts =>
      match stmts with
      | [s] => check_perfectness s false
      | _ => forallb (λ n, check_perfectness n true) stmts
      end
  | Root _ | Other _ => false
  end.

Definition is_perfect_loop (loop : stmt) : bool :=
  match loop with
  | For _ _ _ => check_perfectness loop false
  | _ => false
  end.

#[global] Instance stmt_eq_dec : EqDecision stmt.
Proof.
  refine (fix go (a b : stmt) {struct a} : Decision (a = b) :=
    match a, b with
    | Perfect x, Perfect y => cast_if (decide (x = y))
    | Block xs, Block ys => cast_if (@list_eq_dec _ go xs ys)
    | Root xs, Root ys => cast_if (@list_eq_dec _ go xs ys)
    | For v s x, For w t y =>
        cast_if_and3 (decide (v = w)) (decide (s = t)) (go x y)
    | Other x, Other y => cast_if (decide (x = y))
    | _, _ => right _
    end); abstract congruence.
Defined.

(** [d[k] = v] on an [OrderedDict]: a known key keeps its place. *)
Fixpoint od_set {K V} `{EqDecision K} (k : K) (v : V) (d : list (K * V)) : list (K * V) :=
  match d with
  | [] => [(k, v)]
  | (k', v') :: d' => if decide (k = k') then (k', v) :: d' else (k', v') :: od_set k v d'
  end.

(** [d.get(k)] *)
Fixpoint od_get {K V} `{EqDecision K} (k : K) (d : list (K * V)) : option V :=
  match d with
  | [] => None
  | (k', v) :: d' => if decide (k = k') then Some v else od_get k d'
  end.

(** [[i+1 for i in range(size) if size % (i+1) == 0]] *)
Definition divisors (size : Z) : list Z :=
  filter (λ f, size `mod` f = 0)%Z ((λ i, Z.of_nat i + 1)%Z <$> seq 0 (Z.to_nat size)).

(** One round of the loop of [unroll_factors]; [l.it_var()] raises on a node
    that is not a loop. *)
Definition unroll_round (_inner_loops : list stmt)
    (loops_unroll : option (list (string * list Z))) (l : stmt)
    : option (list (string * list Z)) :=
  d ← loops_unroll;
  match l with
  | For itspace size _ =>
      Some (od_set itspace
              (if decide (l ∈ _inner_loops) then [1%Z] else divisors size) d)
  | _ => None
  end.

(** [unroll_factors(loops)] *)
Definition unroll_factors (loops : list stmt) : option (list (string * list Z)) :=
  let _inner_loops := filter (λ l, l ∈ inner_loops l) loops in
  foldl (unroll_round _inner_loops) (Some []) loops.
End Utils.

(** ** The loop optimizer and the first rewriter ([optimizer.py]) *)
Module Optimizer.
Import ExpressionGraph ExpressionRewriter Utils.

Section Graph.
Context {num : Type} `{Countable num}.

(** [self.deps.in_edges(sym)] *)
Definition in_edges (g : digraph num) (v : sym_name num)
    : gset (sym_name num * sym_name num) :=
  filter (λ e, e.2 = v) (edges g).

(** [has_dep(self, sym, target_sym=None)]; [sym] and [target_sym] are given
    by their names. *)
Definition has_dep (g : digraph num) (sym : sym_name num)
    (target_sym : option (sym_name num)) : bool :=
  match target_sym with
  | None => bool_decide (sym ∈ nodes g) && bool_decide (in_edges g sym ≠ ∅)
  | Some target => bool_decide (sym ∈ nodes g) && has_edge g sym target
  end.

(** What [nx.DiGraph] keeps true: the end points of an edge are nodes. *)
Definition graph_wf (g : digraph num) : Prop :=
  ∀ u v, (u, v) ∈ edges g → u ∈ nodes g ∧ v ∈ nodes g.
End Graph.

Section CountOccurrences.
Context {num : Type} `{Countable num}.
Context (str : expr num → string).

(** The key [count] files a symbol under: [str(node)] or
    [(node.symbol, node.rank)]. *)
Definition count_key (str_key : bool) (node : expr num)
    : string + sym_name num * list string :=
  if str_key then inl (str node)
  else inr (default (SStr "") (symbol_of node), rank_of node).

(** The inner function [count(node, counter)] of [count_occurrences]. *)
Fixpoint count (str_key : bool) (node : expr num)
    (counter : gmap (string + sym_name num * list string) nat)
    : option (gmap (string + sym_name num * list string) nat) :=
  match node with
  | Symbol _ _ =>
      let key := count_key str_key node in
      Some (match counter !! key with
            | Some n => <[key := n + 1]> counter
            | None => <[key := 1]> counter
            end)
  | RawNum _ => None
  | Par c | Neg c => count str_key c counter
  | Sum l r | Sub l r | Prod l r | Div l r =>
      counter' ← count str_key l counter; count str_key r counter'
  | FunCall _ args =>
      (fix go (l : list (expr num)) (c : gmap _ nat) : option (gmap _ nat) :=
         match l with
         | [] => Some c
         | x :: l' => c' ← count str_key x c; go l' c'
         end) args counter
  | Ternary c t f =>
      c1 ← count str_key c counter; c2 ← count str_key t c1; count str_key f c2
  end.

(** [count_occurrences(self, str_key=False)] on the right-hand side
    [self.stmt.children[1]]. *)
Definition count_occurrences (str_key : bool) (rvalue : expr num)
    : option (gmap (string + sym_name num * list string) nat) :=
  count str_key rvalue ∅.
End CountOccurrences.

(** *** [ExpressionRewriter.licm]: the inner function [extract] *)
Section Licm.
Context {num : Type}.

(** [extract.INV], [extract.KSE] and [extract.HOI] *)
Inductive info : Type := INV | KSE | HOI.

(** What [extract] updates: the dictionary [expr_dep], a
    [defaultdict(list)], and the flag [extract.has_extracted]. *)
Record extraction : Type := {
  expr_dep : list (list string * list (expr num));
  has_extracted : bool
}.

(** [node.loop_dep] of a symbol comes from [base.py], which is not under
    [src/]; [_licm] is [self._licm], the number of rounds done so far. *)
Context (loop_dep : expr num → list string).
Context (_licm : nat).

(** The inner function [hoist(node, dep, expr_dep, _extract=True)] *)
Definition hoist (node : expr num) (dep : list string) (_extract : bool)
    : M extraction unit :=
  modify (λ x, {| expr_dep :=
                    if _extract then
                      setdefault_append dep (if is_Symbol node then Par node else node)
                        (expr_dep x)
                    else expr_dep x;
                  has_extracted := has_extracted x || _extract |}).

(** [extract] on a node with two children, given the results for them. *)
Definition extract_node (left right : expr num)
    (rl rr : list string * info * nat) : M extraction (list string * info * nat) :=
  let '(dep_l, info_l, len_l) := rl in
  let '(dep_r, info_r, len_r) := rr in
  let node_len := len_l + len_r in
  let nonempty (dep : list string) := negb (bool_decide (dep = [])) in
  (match info_l, info_r with
   | KSE, KSE =>
       if decide (dep_l ≠ dep_r) then
         hoist left dep_l true ;; hoist right dep_r true ;; ret ([], HOI, node_len)
       else ret (dep_l, KSE, node_len)
   | KSE, INV =>
       hoist left dep_l true ;;
       hoist right dep_r (nonempty dep_r && Nat.eqb len_r 1 || Nat.ltb 1 len_r) ;;
       ret ([], HOI, node_len)
   | INV, KSE =>
       hoist right dep_r true ;;
       hoist left dep_l (nonempty dep_l && Nat.eqb len_l 1 || Nat.ltb 1 len_l) ;;
       ret ([], HOI, node_len)
   | INV, INV =>
       if negb (nonempty dep_l) && negb (nonempty dep_r) then ret ([], INV, node_len)
       else if nonempty dep_l && nonempty dep_r && negb (bool_decide (dep_l = dep_r)) then
         hoist left dep_l (Nat.eqb _licm 0 || Nat.ltb 1 len_l) ;;
         hoist right dep_r (Nat.eqb _licm 0 || Nat.ltb 1 len_r) ;;
         ret ([], HOI, node_len)
       else if nonempty dep_l && nonempty dep_r && bool_decide (dep_l = dep_r) then
         ret (dep_l, INV, node_len)
       else if nonempty dep_l && negb (nonempty dep_r) then
         hoist right dep_r (Nat.ltb 1 len_r) ;; ret (dep_l, KSE, node_len)
       else if nonempty dep_r && negb (nonempty dep_l) then
         hoist left dep_l (Nat.ltb 1 len_l) ;; ret (dep_r, KSE, node_len)
       else raise
   | HOI, KSE => hoist right dep_r (Nat.ltb 2 len_r) ;; ret ([], HOI, node_len)
   | KSE, HOI => hoist left dep_l (Nat.ltb 2 len_l) ;; ret ([], HOI, node_len)
   | HOI, _ | _, HOI => ret ([], HOI, node_len)
   end)%comp.

(** [extract(node, expr_dep, length=0)]; [left, right = node.children]
    raises unless the node has exactly two children. *)
Fixpoint extract (node : expr num) : M extraction (list string * info * nat) :=
  match node with
  | Symbol _ _ => ret (loop_dep node, INV, 1)
  | Par c => extract c
  | Sum l r | Sub l r | Prod l r | Div l r | FunCall _ [l; r] =>
      (do rl <- extract l; do rr <- extract r; extract_node l r rl rr)%comp
  | _ => raise
  end.

(** The trees [extract] can take apart: symbols, [Par] and nodes with two
    children. *)
Fixpoint two_children (node : expr num) : bool :=
  match node with
  | Symbol _ _ => true
  | Par c => two_children c
  | Sum l r | Sub l r | Prod l r | Div l r | FunCall _ [l; r] =>
      two_children l && two_children r
  | _ => false
  end.
End Licm.
Arguments extraction : clear implicits.

(** *** [LoopOptimizer.unroll] *)
(** The inner function [update_expr(node, var, factor)] of
    [LoopOptimizer.unroll]. *)
Fixpoint update_expr (var : string) (factor : Z) (node : onode) : onode :=
  match node with
  | OSymbol symbol rank offset =>
      let offset := if offset is [] then (λ _, (1, 0)%Z) <$> rank else offset in
      OSymbol symbol rank
        (zip_with (λ r ofs, if decide (r = var) then (ofs.1, ofs.2 + factor)%Z else ofs)
           rank offset)
  | ONode children => ONode (update_expr var factor <$> children)
  end.
End Optimizer.

(** ** Concrete inputs used by the examples

    A statement [A[i][j] += (X[i] + Y[i]) * (Z[i][j] + W[i][j])] inside the
    loops [i] and [j], both domain loops. *)
Module Examples.
Import ExpressionExtractor.

(** For a statement inside every loop of the nest, a symbol depends on the
    loop dimensions found in its rank. *)
Definition lda_of_rank (e : expr Q) : gset string :=
  match e with Symbol _ rank => list_to_set rank | _ => ∅ end.

Definition info_ij : MetaExpr :=
  {| dims := ["i"; "j"]; domain_dims := ["i"; "j"]; out_domain_dims := [] |}.

Definition poorer : expr Q := Sum (sym "X" ["i"]) (sym "Y" ["i"]).
Definition richer : expr Q := Sum (sym "Z" ["i"; "j"]) (sym "W" ["i"; "j"]).

Definition stmt_ij : writer Q :=
  Writer Incr (sym "A" ["i"; "j"]) (Prod poorer richer).

Definition session_ij (md : string) : session Q unit unit unit unit :=
  {| stmt := stmt_ij; expr_info := info_ij; header := tt; decls := tt;
     hoisted := tt; expr_graph := tt; counter := 0; mode := md;
     look_ahead := false; lda := lda_of_rank; extracted := [] |}.

(** [A[i] += X[i] * Y[i] * Z[k]]: one domain loop [i], one other loop [k]. *)
Definition info_ik : MetaExpr :=
  {| dims := ["i"; "k"]; domain_dims := ["i"]; out_domain_dims := ["k"] |}.

(** [X / 2] and [X / (a + b)] *)
Definition two : expr Q := Symbol (SNum 2%Q) [].
Definition a_plus_b : expr Q := Sum (sym "a" []) (sym "b" []).

(** [(X[i] + Y[i]) * Z[j]]; only [Z[j]] has the dimension [j]. *)
Definition sum_times_Z : expr Q :=
  Prod (Sum (sym "X" ["i"]) (sym "Y" ["i"])) (sym "Z" ["j"]).

Definition rvalue_ik : expr Q :=
  Prod (Prod (sym "X" ["i"]) (sym "Y" ["i"])) (sym "Z" ["k"]).

(** [A[i] += ((a * b) * (X[i] * Y[i])) * (Z[k] * W[k])] in the same loops: a
    constant factor, one that depends on the domain loop and one that depends
    on the other loop. *)
Definition a_times_b : expr Q := Prod (sym "a" []) (sym "b" []).
Definition X_times_Y : expr Q := Prod (sym "X" ["i"]) (sym "Y" ["i"]).
Definition Z_times_W : expr Q := Prod (sym "Z" ["k"]) (sym "W" ["k"]).

Definition stmt_abk : writer Q :=
  Writer Incr (sym "A" ["i"]) (Prod (Prod a_times_b X_times_Y) Z_times_W).

Definition session_abk (md : string) : session Q unit unit unit unit :=
  {| stmt := stmt_abk; expr_info := info_ik; header := tt; decls := tt;
     hoisted := tt; expr_graph := tt; counter := 0; mode := md;
     look_ahead := false; lda := lda_of_rank; extracted := [] |}.

(** [2 * X[i] * 3] and [2 * (3 * a)] *)
Definition three : expr Q := Symbol (SNum 3%Q) [].
Definition two_X_three : expr Q := Prod (Prod two (sym "X" ["i"])) three.
Definition two_par_three_a : expr Q := Prod two (Par (Prod three (sym "a" []))).

(** Scenario 4 of the spec: [Y[j] = h[j]] was hoisted out of the loops [i]
    and [j], and the expansion [Y[j] * F] has a loop-invariant [F].  Loops
    are named by their dimension; the header tree is not looked at. *)
Definition Y_j : expr Q := sym "Y" ["j"].
Definition F_const : expr Q := sym "F" [].

Definition Y_info : Aggregation.hoisted_info (num:=Q) (Decl:=unit) (Loop:=string) (Place:=unit) :=
  {| Aggregation.h_stmt := Writer Assign Y_j (sym "h" ["j"]);
     Aggregation.h_decl := tt; Aggregation.h_loop := "j"; Aggregation.h_place := tt |}.

Definition expander_Y : Aggregation.expander (num:=Q) (Decl:=unit) (Loop:=string) (Place:=unit) (Tree:=unit) :=
  {| Aggregation.hoisted := {["Y" := Y_info]};
     Aggregation.expr_graph :=
       Aggregation.add_dependency (SStr "Y") (sym "h" ["j"]) ExpressionGraph.empty_graph;
     Aggregation.expanded_decls := ∅;
     Aggregation.cache_map := ∅;
     Aggregation.cache_hits := ∅;
     Aggregation.expr_id := 0;
     Aggregation.loops := ["i"; "j"];
     Aggregation.tree := tt |}.

Definition X_i : expr Q := sym "X" ["i"].

(** [info]: [F] depends on no loop, [X] on the loop [i]. *)
Definition info_F (g : sym_name Q) : option (list string) :=
  if decide (g = SStr "F") then Some []
  else if decide (g = SStr "X") then Some ["i"] else None.

(** The temporary was placed in the header, whose only loop is [i]. *)
Definition header_has (t : unit) (place : unit) (l : string) : bool :=
  bool_decide (l = "i").

Definition print_name (e : expr Q) : string :=
  match e with Symbol (SStr name) _ => name | _ => "" end.

(** Exact rationals as numeric literals. *)
Definition digits_value (s : string) : Z :=
  foldl (λ acc c, 10 * acc + (Z.of_nat (Ascii.nat_of_ascii c) - 48))%Z 0%Z
    (String.list_ascii_of_string s).

#[global] Instance Q_Number : Number Q := {|
  one := 1%Q;
  mul := Qmult;
  recip v := if Qeq_bool v 0 then None else Some (Qred (Qinv v));
  is_one v := Qeq_bool v 1;
  float_of_digits s := inject_Z (digits_value s)
|}.
End Examples.

Module ExpressionGraphFacts.
Import ExpressionGraph.
Section Facts.
Context {num : Type} `{Countable num}.
Implicit Types (g : digraph num) (lhs s : sym_name num) (e : expr num).

Definition edges_from lhs (names : gset (sym_name num))
    : gset (sym_name num * sym_name num) :=
    set_map (λ s, (lhs, s)) names.

Lemma edges_from_union lhs (a b : gset (sym_name num)) :
    edges_from lhs (a ∪ b) = edges_from lhs a ∪ edges_from lhs b.
Proof. apply set_map_union_L. Qed.

Lemma extract_syms_edges lhs e : ∀ g g',
    extract_syms lhs e g = Some g' →
    edges g' = edges_from lhs (symbols_of e) ∪ edges g.
Proof.
    induction e as [n r|v|c IH|c IH|l r IHl IHr|l r IHl IHr|l r IHl IHr
                   |l r IHl IHr|f args IH|c t f IHc IHt IHf]
      using expr_nested_ind; intros g g' Hx; simpl in Hx.
    - inversion Hx; subst; simpl. unfold edges_from. set_solver.
    - discriminate.
    - simpl. eauto.
    - simpl. eauto.
    - destruct (extract_syms lhs l g) as [g1|] eqn:E1; [|discriminate]; simpl in Hx.
      simpl. rewrite edges_from_union, (IHr _ _ Hx), (IHl _ _ E1). set_solver.
    - destruct (extract_syms lhs l g) as [g1|] eqn:E1; [|discriminate]; simpl in Hx.
      simpl. rewrite edges_from_union, (IHr _ _ Hx), (IHl _ _ E1). set_solver.
    - destruct (extract_syms lhs l g) as [g1|] eqn:E1; [|discriminate]; simpl in Hx.
      simpl. rewrite edges_from_union, (IHr _ _ Hx), (IHl _ _ E1). set_solver.
    - destruct (extract_syms lhs l g) as [g1|] eqn:E1; [|discriminate]; simpl in Hx.
      simpl. rewrite edges_from_union, (IHr _ _ Hx), (IHl _ _ E1). set_solver.
    - simpl. revert g g' Hx.
      induction IH as [|x args Hx' _ IHargs]; intros g g' Hx.
      + inversion Hx; subst. simpl. unfold edges_from. set_solver.
      + destruct (extract_syms lhs x g) as [g1|] eqn:E1; [|discriminate].
        simpl in Hx. simpl. rewrite edges_from_union.
        rewrite (IHargs _ _ Hx), (Hx' _ _ E1). set_solver.
    - destruct (extract_syms lhs c g) as [g1|] eqn:E1; [|discriminate]; simpl in Hx.
      destruct (extract_syms lhs t g1) as [g2|] eqn:E2; [|discriminate]; simpl in Hx.
      simpl. rewrite !edges_from_union, (IHf _ _ Hx), (IHt _ _ E2), (IHc _ _ E1).
      set_solver.
Qed.

Lemma extract_syms_total lhs e : ∀ g,
    all_nodes e = true → is_Some (extract_syms lhs e g).
Proof.
    induction e as [n r|v|c IH|c IH|l r IHl IHr|l r IHl IHr|l r IHl IHr
                   |l r IHl IHr|f args IH|c t f IHc IHt IHf]
      using expr_nested_ind; intros g Hn; simpl in *;
      repeat match goal with
             | Hb : _ && _ = true |- _ => apply andb_true_iff in Hb; destruct Hb
             end;
      try (by eauto);
      try (by destruct (IHl g) as [g1 ->]; eauto).
    - revert g. induction IH as [|x args Hx' _ IHargs]; intros g; [eauto|].
      simpl in Hn. apply andb_true_iff in Hn as [Hn1 Hn2].
      destruct (Hx' g Hn1) as [g1 ->]. simpl. eauto.
    - destruct (IHc g) as [g1 ->]; [done|]. simpl.
      destruct (IHt g1) as [g2 ->]; [done|]. simpl. eauto.
Qed.

(** C4 (as amended): [add_dependency lhs rhs self_loop] succeeds on every tree
    of nodes; it adds an edge from [lhs] to the name of every [Symbol] of
    [rhs], and the only other edge it adds is the self-edge [lhs -> lhs], added
    exactly when the caller passes a true [self_loop].  Whether [lhs] already
    has outgoing edges is never consulted. *)
Theorem add_dependency_edges lhs e (self_loop : bool) g :
  all_nodes e = true →
  ∃ g', add_dependency lhs e self_loop g = Some g' ∧
        edges g' = edges_from lhs (symbols_of e)
                   ∪ (if self_loop then {[(lhs, lhs)]} else ∅) ∪ edges g ∧
        has_edge g' lhs lhs
        = self_loop || bool_decide (lhs ∈ symbols_of e) || has_edge g lhs lhs.
Proof.
  intros Hn. unfold add_dependency.
  destruct (extract_syms_total lhs e (if self_loop then add_edge lhs lhs g else g) Hn)
    as [g' Hg'].
  exists g'. split; [done|].
  pose proof (extract_syms_edges _ _ _ _ Hg') as He.
  assert (edges g' = edges_from lhs (symbols_of e)
                     ∪ (if self_loop then {[(lhs, lhs)]} else ∅) ∪ edges g) as Hedges.
  { rewrite He. destruct self_loop; simpl; set_solver. }
  split; [done|].
  unfold has_edge. rewrite Hedges. unfold edges_from.
  repeat case_bool_decide; destruct self_loop; simpl; try done; exfalso; set_solver.
Qed.
End Facts.

Lemma add_dependency_edges_witness :
  ∃ g' : digraph Q,
    add_dependency (SStr "T") (Prod (sym "x" []) (sym "y" ["i"])) false empty_graph
    = Some g' ∧
    edges g' = edges_from (SStr "T") (symbols_of (Prod (sym "x" []) (sym "y" ["i"])))
               ∪ ∅ ∪ edges (empty_graph (num:=Q)) ∧
    has_edge g' (SStr "T") (SStr "T")
    = false
      || bool_decide (SStr "T" ∈ symbols_of (num:=Q) (Prod (sym "x" []) (sym "y" ["i"])))
      || has_edge (empty_graph (num:=Q)) (SStr "T") (SStr "T").
Proof.
  apply (add_dependency_edges (num:=Q) (SStr "T") (Prod (sym "x" []) (sym "y" ["i"]))
           false empty_graph).
  reflexivity.
Defined.

(** C4 fails as stated: [T] already has the outgoing edge [T -> x], it is
    assigned again with a false [self_loop], and no self-edge appears; on the
    empty graph, where [T] has no outgoing edge, a true [self_loop] adds one. *)
Lemma add_dependency_self_edge_from_argument :
  (SStr "T", SStr "x")
    ∈ out_edges (num:=Q) (add_edge (SStr "T") (SStr "x") empty_graph) (SStr "T") ∧
  (λ g, has_edge (num:=Q) g (SStr "T") (SStr "T"))
    <$> add_dependency (SStr "T") (sym "y" []) false
          (add_edge (SStr "T") (SStr "x") empty_graph) = Some false ∧
  out_edges (num:=Q) empty_graph (SStr "T") = ∅ ∧
  (λ g, has_edge (num:=Q) g (SStr "T") (SStr "T"))
    <$> add_dependency (SStr "T") (sym "y" []) true empty_graph = Some true.
Proof.
  split; [|split; [|split]].
  - unfold out_edges. apply elem_of_filter. split; [done|]. simpl. set_solver.
  - by vm_compute.
  - unfold out_edges. simpl. set_solver.
  - by vm_compute.
Qed.
End ExpressionGraphFacts.

Module ExpressionExtractorFacts.
Import ExpressionExtractor.
Section Facts.
Context {num Header Decls Hoisted Graph : Type}.
Notation session := (session num Header Decls Hoisted Graph).
Implicit Types (self : session) (node left right : expr num) (dep : gset string).

(** [only_extracted s s']: [s'] is [s] up to the extractor's dictionary. *)
Definition only_extracted (s s' : session) : Prop :=
  s' = set_extracted (λ _, extracted s') s.

Lemma only_extracted_refl s : only_extracted s s.
Proof. by destruct s. Qed.

Lemma only_extracted_trans s1 s2 s3 :
  only_extracted s1 s2 → only_extracted s2 s3 → only_extracted s1 s3.
Proof. unfold only_extracted. intros -> ->. by destruct s1. Qed.

Lemma only_extracted_set f s : only_extracted s (set_extracted f s).
Proof. by destruct s. Qed.

(** [frame m]: whenever [m] returns, it has changed the dictionary only. *)
Definition frame {A} (m : M session A) : Prop :=
  ∀ s a s', m s = Some (a, s') → only_extracted s s'.

Lemma frame_ret {A} (a : A) : frame (ret a).
Proof. intros s a' s' [= <- <-]. apply only_extracted_refl. Qed.

Lemma frame_get : frame get.
Proof. intros s a' s' [= <- <-]. apply only_extracted_refl. Qed.

Lemma frame_raise {A} : frame (raise (A:=A)).
Proof. intros s a s' [=]. Qed.

Lemma frame_bind {A B} (m : M session A) (k : A → M session B) :
  frame m → (∀ a, frame (k a)) → frame (bind m k).
Proof.
  intros Hm Hk s b s'. unfold bind.
  destruct (m s) as [[a s1]|] eqn:E; [|done].
  intros Hb. eapply only_extracted_trans; [by eapply Hm|by eapply Hk].
Qed.

Lemma frame_modify_extracted f : frame (modify (set_extracted f)).
Proof. intros s a s' [= <- <-]. apply only_extracted_set. Qed.

Ltac frame_step :=
  first [ apply frame_ret | apply frame_get | apply frame_raise
        | apply frame_modify_extracted
        | apply frame_bind; [|intros ?] ].

Lemma frame_try node dep : frame (_try node dep).
Proof.
  unfold _try. destruct (is_Symbol node); [apply frame_ret|].
  apply frame_bind; [apply frame_get|intros self].
  apply frame_bind; [|intros _; apply frame_ret].
  destruct (_ || _); [|apply frame_ret].
  destruct (sorted_dep _ _); [apply frame_modify_extracted|apply frame_raise].
Qed.

Ltac frame_auto :=
  repeat first [ apply frame_try | frame_step | case_decide
               | match goal with |- frame (if ?b then _ else _) => destruct b end ].

Lemma frame_try_or a da b db : frame (try_or a da b db).
Proof. unfold try_or. frame_auto. Qed.

Lemma frame_soft left right dep_l dep_r dep_n info_l info_r :
  frame (_soft left right dep_l dep_r dep_n info_l info_r).
Proof. unfold _soft. frame_auto. Qed.

Lemma frame_normal left right dep_l dep_r dep_n info_l info_r :
  frame (_normal left right dep_l dep_r dep_n info_l info_r).
Proof. unfold _normal. frame_auto; apply frame_try_or. Qed.

Lemma frame_aggressive left right dep_l dep_r dep_n info_l info_r :
  frame (_aggressive left right dep_l dep_r dep_n info_l info_r).
Proof. unfold _aggressive. frame_auto. Qed.

Lemma frame_extract_binary left right rl rr : frame (extract_binary left right rl rr).
Proof.
  unfold extract_binary. apply frame_bind; [apply frame_get|intros self].
  repeat case_decide;
    auto using frame_normal, frame_soft, frame_aggressive, frame_raise.
Qed.

Lemma frame_extract node : frame (_extract node).
Proof.
  induction node as [n r|v|c IH|c IH|l r IHl IHr|l r IHl IHr|l r IHl IHr
                    |l r IHl IHr|f args IH|c t f IHc IHt IHf]
    using expr_nested_ind; simpl.
  all: try (by frame_auto).
  all: try (by apply frame_bind; [done|intros ?];
            apply frame_bind; [done|intros ?]; apply frame_extract_binary).
  apply frame_bind; [|intros ?; apply frame_ret].
  induction IH as [|x args Hx _ IHargs]; [apply frame_ret|].
  apply frame_bind; [done|intros ?].
  apply frame_bind; [done|intros ?]. apply frame_ret.
Qed.

Lemma only_extracted_fields s s' :
  only_extracted s s' →
  stmt s' = stmt s ∧ expr_info s' = expr_info s ∧ header s' = header s ∧
  decls s' = decls s ∧ hoisted s' = hoisted s ∧ expr_graph s' = expr_graph s ∧
  counter s' = counter s ∧ mode s' = mode s ∧ look_ahead s' = look_ahead s ∧
  lda s' = lda s.
Proof. intros ->. by destruct s. Qed.

(** [returns info md m]: [m] raises nothing when run by an extractor whose
    [expr_info] is [info] and whose mode is [md]. *)
Definition returns {A} (info : MetaExpr) (md : string) (m : M session A) : Prop :=
  ∀ s, expr_info s = info → mode s = md → is_Some (m s).

Lemma returns_ret {A} info md (a : A) : returns info md (ret a).
Proof. intros s _ _. by eexists. Qed.

Lemma returns_get info md : returns info md get.
Proof. intros s _ _. by eexists. Qed.

Lemma returns_bind {A B} info md (m : M session A) (k : A → M session B) :
  returns info md m → frame m → (∀ a, returns info md (k a)) →
  returns info md (bind m k).
Proof.
  intros Hm Hf Hk s Hi Hmd. unfold bind.
  destruct (Hm s Hi Hmd) as [[a s1] E]. rewrite E.
  destruct (only_extracted_fields _ _ (Hf _ _ _ E)) as (_ & Hi' & _ & _ & _ & _ & _ & Hmd' & _).
  apply Hk; congruence.
Qed.

Lemma list_index_is_Some (d : string) (l : list string) :
  d ∈ l → is_Some (list_index d l).
Proof.
  induction l as [|y l IH]; [by intros ?%elem_of_nil|].
  intros Hd. simpl. case_decide; [by eexists|].
  apply elem_of_cons in Hd as [?|Hd]; [done|].
  destruct (IH Hd) as [k ->]. by eexists.
Qed.

Lemma sorted_dep_is_Some info dep :
  dep ⊆ list_to_set (dims info) → is_Some (sorted_dep info dep).
Proof.
  intros Hsub. unfold sorted_dep.
  assert (is_Some (mapM (λ d, k ← list_index d (dims info); Some (k, d)) (elements dep)))
    as [keyed ->]; [|by eexists].
  apply mapM_is_Some, Forall_forall. intros d Hd.
  apply elem_of_elements, Hsub, elem_of_list_to_set in Hd.
  destruct (list_index_is_Some _ _ Hd) as [k Hk]. simpl. rewrite Hk. by eexists.
Qed.

Lemma returns_try info md node dep :
  dep ⊆ list_to_set (dims info) → returns info md (_try node dep).
Proof.
  intros Hsub s Hi Hmd. unfold _try.
  destruct (is_Symbol node); [by eexists|].
  unfold bind, get, ret, modify. simpl. rewrite Hi.
  destruct (_ || _); [|by eexists].
  destruct (sorted_dep_is_Some _ _ Hsub) as [key ->]. by eexists.
Qed.

Ltac returns_auto :=
  repeat first
    [ apply returns_ret | apply returns_get
    | apply returns_try; [done]
    | apply returns_bind; [| |intros ?]
    | apply frame_try | apply frame_get
    | case_decide
    | match goal with |- returns _ _ (if ?b then _ else _) => destruct b end ].

Lemma returns_try_or info md a da b db :
  da ⊆ list_to_set (dims info) → db ⊆ list_to_set (dims info) →
  returns info md (try_or a da b db).
Proof. intros ??. unfold try_or. returns_auto. Qed.

Lemma returns_soft info md left right dep_l dep_r dep_n info_l info_r :
  dep_l ⊆ list_to_set (dims info) → dep_r ⊆ list_to_set (dims info) →
  returns info md (_soft left right dep_l dep_r dep_n info_l info_r).
Proof. intros ??. unfold _soft. returns_auto. Qed.

Lemma returns_normal info md left right dep_l dep_r dep_n info_l info_r :
  dep_l ⊆ list_to_set (dims info) → dep_r ⊆ list_to_set (dims info) →
  returns info md (_normal left right dep_l dep_r dep_n info_l info_r).
Proof.
  intros ??. unfold _normal.
  returns_auto; first [by apply returns_try_or | apply frame_try_or].
Qed.

Lemma returns_aggressive info md left right dep_l dep_r dep_n info_l info_r :
  dep_l ⊆ list_to_set (dims info) → dep_r ⊆ list_to_set (dims info) →
  returns info md (_aggressive left right dep_l dep_r dep_n info_l info_r).
Proof. intros ??. unfold _aggressive. returns_auto. Qed.

Lemma returns_extract_binary info md left right rl rr :
  md ∈ modes → returns info md (extract_binary left right rl rr).
Proof.
  intros Hmd s Hi Hm. unfold extract_binary, bind, get. rewrite Hi, Hm.
  assert (∀ d : gset string, d ∩ list_to_set (dims info) ⊆ list_to_set (dims info))
    as Hsub by set_solver.
  repeat case_decide.
  - by apply (returns_normal info md).
  - by apply (returns_soft info md).
  - by apply (returns_aggressive info md).
  - exfalso. unfold modes in Hmd. set_solver.
Qed.

Lemma returns_extract info md node :
  md ∈ modes → extractable node = true → returns info md (_extract node).
Proof.
  intros Hmd.
  induction node as [n r|v|c IH|c IH|l r IHl IHr|l r IHl IHr|l r IHl IHr
                    |l r IHl IHr|f args IH|c t f IHc IHt IHf]
    using expr_nested_ind; simpl; intros Hx;
    repeat match goal with
           | Hb : _ && _ = true |- _ => apply andb_true_iff in Hb; destruct Hb
           end;
    try done.
  all: try (by returns_auto).
  all: try (by apply returns_bind; [auto|apply frame_extract|intros ?];
            apply returns_bind; [auto|apply frame_extract|intros ?];
            apply returns_extract_binary).
  - auto.
  - apply returns_bind; [| |intros ?; apply returns_ret].
    + induction IH as [|x args Hx' _ IHargs]; [apply returns_ret|].
      simpl in Hx. apply andb_true_iff in Hx as [Hx1 Hx2].
      apply returns_bind; [auto|apply frame_extract|intros ?].
      apply returns_bind; [auto| |intros ?; apply returns_ret].
      clear. induction args as [|y args IHa]; [apply frame_ret|].
      apply frame_bind; [apply frame_extract|intros ?].
      apply frame_bind; [done|intros ?]. apply frame_ret.
    + clear. induction args as [|y args IHa]; [apply frame_ret|].
      apply frame_bind; [apply frame_extract|intros ?].
      apply frame_bind; [done|intros ?]. apply frame_ret.
  - apply returns_bind; [auto|apply frame_extract|intros ?].
    apply returns_bind; [auto|apply frame_extract|intros ?].
    apply returns_bind; [auto|apply frame_extract|intros ?].
    apply returns_ret.
Qed.

Lemma try_then_eq node dep dep_n (s : session) :
  (do ok <- _try node dep;
   if ok then ret (dep_n, STOP) else ret (dep_n, EXT))%comp s
  = try_then node dep dep_n s.
Proof.
  unfold try_then, bind. destruct (_try node dep s) as [[[] s']|]; done.
Qed.


End Facts.

Import Examples.


End ExpressionExtractorFacts.

Module ExpressionRewriterFacts.
Import ExpressionExtractor ExpressionRewriter.

Section CounterFacts.
Context {K : Type} `{EqDecision K}.
Implicit Types (k : K) (c : list (K * nat)) (l : list K).

(** The count a [Counter] holds for a key, 0 for a missing key. *)
Fixpoint count_in c k : nat :=
  match c with
  | [] => 0
  | (k', n) :: c' => if decide (k = k') then n else count_in c' k
  end.

Definition occurrences_of k l : nat := length (filter (λ x, x = k) l).

Lemma count_in_counter_add k0 c k :
  count_in (counter_add k0 c) k = count_in c k + (if decide (k = k0) then 1 else 0).
Proof.
  induction c as [|[k' n] c IH]; simpl.
  - repeat case_decide; lia.
  - repeat (case_decide; simpl; subst); try congruence; try lia.
Qed.

Lemma count_in_foldl l : ∀ c k,
  count_in (foldl (λ c k, counter_add k c) c l) k = count_in c k + occurrences_of k l.
Proof.
  induction l as [|x l IH]; intros c k; simpl.
  - unfold occurrences_of. simpl. lia.
  - rewrite IH, count_in_counter_add. unfold occurrences_of.
    rewrite filter_cons. repeat case_decide; subst; simpl; try congruence; lia.
Qed.

Lemma count_in_Counter l k : count_in (Counter l) k = occurrences_of k l.
Proof. unfold Counter. by rewrite count_in_foldl. Qed.

Lemma counter_add_keys k0 c : (counter_add k0 c).*1 ⊆ k0 :: c.*1.
Proof.
  induction c as [|[k' n] c IH]; simpl; [set_solver|].
  case_decide; simpl; set_solver.
Qed.

Lemma counter_add_NoDup k0 c : NoDup c.*1 → NoDup (counter_add k0 c).*1.
Proof.
  induction c as [|[k' n] c IH]; simpl; intros Hnd.
  - apply NoDup_singleton.
  - apply NoDup_cons in Hnd as [Hk' Hnd]. case_decide; simpl; subst.
    + by apply NoDup_cons.
    + apply NoDup_cons. split; [|by apply IH].
      intros Hin%counter_add_keys. set_solver.
Qed.

Lemma foldl_counter_add_keys l : ∀ c,
  NoDup c.*1 →
  NoDup (foldl (λ c k, counter_add k c) c l).*1 ∧
  (foldl (λ c k, counter_add k c) c l).*1 ⊆ l ++ c.*1.
Proof.
  induction l as [|x l IH]; intros c Hnd; simpl; [set_solver|].
  destruct (IH (counter_add x c) (counter_add_NoDup _ _ Hnd)) as [IH1 IH2].
  split; [done|]. pose proof (counter_add_keys x c). set_solver.
Qed.

Lemma count_in_NoDup c k n : NoDup c.*1 → (k, n) ∈ c → count_in c k = n.
Proof.
  induction c as [|[k' n'] c IH]; simpl; intros Hnd Hin; [by apply elem_of_nil in Hin|].
  apply NoDup_cons in Hnd as [Hk' Hnd].
  apply elem_of_cons in Hin as [[= <- <-]|Hin]; [by case_decide|].
  case_decide; subst; [|by apply IH].
  exfalso. apply Hk'. apply list_elem_of_fmap. by exists (k', n).
Qed.

Lemma max_by_count_spec c : ∀ best,
  max_by_count best c ∈ best :: c ∧
  ∀ x, x ∈ best :: c → x.2 ≤ (max_by_count best c).2.
Proof.
  induction c as [|y c IH]; intros best; simpl.
  - split; [set_solver|]. intros x ?. assert (x = best) as -> by set_solver. lia.
  - destruct (IH (if Nat.leb y.2 best.2 then best else y)) as [IH1 IH2].
    split.
    + destruct (Nat.leb y.2 best.2); set_solver.
    + intros x Hx.
      destruct (Nat.leb y.2 best.2) eqn:E;
        [apply Nat.leb_le in E|apply Nat.leb_gt in E].
      * apply elem_of_cons in Hx as [->|Hx]; [apply IH2; set_solver|].
        apply elem_of_cons in Hx as [->|Hx]; [|apply IH2; set_solver].
        etrans; [exact E|]. apply IH2. set_solver.
      * apply elem_of_cons in Hx as [->|Hx].
        { etrans; [|apply (IH2 y); set_solver]. lia. }
        apply IH2. set_solver.
Qed.

Lemma most_common_1_spec l :
  match most_common_1 l with
  | Some k => k ∈ l ∧ ∀ k', occurrences_of k' l ≤ occurrences_of k l
  | None => l = []
  end.
Proof.
  unfold most_common_1.
  destruct (foldl_counter_add_keys l [] (NoDup_nil_2)) as [Hnd Hkeys].
  fold (Counter l) in Hnd, Hkeys.
  pose proof (count_in_Counter l) as Hcount.
  destruct (Counter l) as [|x c] eqn:E.
  - destruct l as [|k l]; [done|]. exfalso.
    specialize (Hcount k). simpl in Hcount. unfold occurrences_of in Hcount.
    rewrite filter_cons in Hcount. case_decide; [|done]. simpl in Hcount. lia.
  - destruct (max_by_count_spec c x) as [Hin Hmax].
    destruct (max_by_count x c) as [k n] eqn:Em. cbn [fst snd] in *.
    assert (count_in (x :: c) k = n) as Hk by (by apply count_in_NoDup).
    split.
    + assert (k ∈ (x :: c).*1) as Hk'.
      { apply list_elem_of_fmap. by exists (k, n). }
      apply Hkeys in Hk'. set_solver.
    + intros k'. rewrite <- !Hcount, Hk.
      destruct (decide (k' ∈ (x :: c).*1)) as [Hk'|Hk'].
      * apply list_elem_of_fmap in Hk' as [[k'' n'] [-> Hk']]. cbn [fst].
        rewrite (count_in_NoDup _ _ _ Hnd Hk'). apply (Hmax _ Hk').
      * assert (count_in (x :: c) k' = 0) as ->; [|lia].
        clear -Hk'. induction (x :: c) as [|[k1 n1] c' IH]; [done|]. simpl in *.
        case_decide; subst; [set_solver|]. apply IH. set_solver.
Qed.
End CounterFacts.


Section ReplaceDivFacts.
Context {num : Type} `{Number num}.
Implicit Types (x d t : expr num).

Lemma replacediv_is_Some t :
  is_Some (replacediv t) ↔ Forall (is_Some ∘ division_entry) (find_divs t).
Proof.
  unfold replacediv. rewrite <- mapM_is_Some.
  destruct (mapM division_entry (find_divs t)) as [ks|]; simpl.
  - split; intros _; by eexists.
  - split; intros [? ?]; done.
Qed.

Lemma replacediv_Some t t' :
  replacediv t = Some t' → t' = ast_replace_under to_replace t.
Proof.
  unfold replacediv. destruct (mapM division_entry (find_divs t)); simpl; congruence.
Qed.

Lemma replacediv_eq t :
  is_Some (replacediv t) → replacediv t = Some (ast_replace_under to_replace t).
Proof. intros [t' Ht]. by rewrite Ht, (replacediv_Some _ _ Ht). Qed.

Lemma ast_replace_div_free t :
  div_free t → ast_replace_under to_replace t = t.
Proof.
  unfold div_free.
  induction t as [n r|v|c IH|c IH|l r IHl IHr|l r IHl IHr|l r IHl IHr
                 |l r IHl IHr|f args IH|c t f IHc IHt IHf]
    using expr_nested_ind; simpl; intros Hd;
    repeat match goal with
           | Hb : _ ++ _ = [] |- _ => apply app_eq_nil in Hb; destruct Hb
           end;
    try done; try (by f_equal; auto).
  f_equal. induction IH as [|a args Ha _ IHargs]; [done|].
  simpl in Hd. apply app_eq_nil in Hd as [Hd1 Hd2]. simpl. f_equal; auto.
Qed.

Lemma ast_replace_Div x d :
  ast_replace_under to_replace (Div x d)
  = match mjoin (division_entry (Div x d)) with
    | Some r => r
    | None => Div (ast_replace_under to_replace x) (ast_replace_under to_replace d)
    end.
Proof. reflexivity. Qed.

Lemma replacediv_div_free t : div_free t → replacediv t = Some t.
Proof.
  intros Hd. rewrite replacediv_eq; [by rewrite ast_replace_div_free|].
  apply replacediv_is_Some. unfold div_free in Hd. by rewrite Hd.
Qed.

End ReplaceDivFacts.

Section SortedFacts.
Context {A K : Type} (leb : K → K → bool) (key : A → K).
Hypothesis leb_total : ∀ a b, leb a b = true ∨ leb b a = true.

(** Neighbours are in order. *)
Fixpoint in_order (l : list A) : Prop :=
  match l with
  | x :: (y :: _) as l' => leb (key x) (key y) = true ∧ in_order l'
  | _ => True
  end.

Lemma insert_by_key_in_order x l :
  in_order l → in_order (insert_by_key leb key x l).
Proof using leb_total.
  induction l as [|y l IH]; [done|]. intros Hl. simpl.
  destruct (leb (key x) (key y)) eqn:E; [done|].
  destruct l as [|z l]; simpl in *.
  - split; [|done]. by destruct (leb_total (key x) (key y)); [congruence|].
  - destruct Hl as [Hyz Hl]. specialize (IH Hl).
    destruct (leb (key x) (key z)) eqn:E'; split; try done.
    by destruct (leb_total (key x) (key y)); [congruence|].
Qed.

Lemma sorted_in_order l : in_order (sorted leb key l).
Proof using leb_total.
  induction l as [|x l IH]; [done|]. by apply insert_by_key_in_order.
Qed.

Lemma sorted_of_in_order l : in_order l → sorted leb key l = l.
Proof.
  induction l as [|x l IH]; [done|]. intros Hl. unfold sorted in *. simpl.
  destruct l as [|y l]; [done|]. destruct Hl as [Hxy Hl].
  rewrite (IH Hl). simpl. by rewrite Hxy.
Qed.

Lemma sorted_idempotent l : sorted leb key (sorted leb key l) = sorted leb key l.
Proof using leb_total. apply sorted_of_in_order, sorted_in_order. Qed.

Lemma insert_by_key_Forall (P : A → Prop) x l :
  P x → Forall P l → Forall P (insert_by_key leb key x l).
Proof.
  intros Hx. induction 1 as [|y l Hy Hl IH]; simpl; [by repeat constructor|].
  destruct (leb _ _); by repeat constructor.
Qed.

Lemma sorted_Forall (P : A → Prop) l : Forall P l → Forall P (sorted leb key l).
Proof.
  induction 1 as [|x l Hx Hl IH]; [done|]. by apply insert_by_key_Forall.
Qed.
End SortedFacts.

Section ReassociateFacts.
Context {num K : Type} (leb : K → K → bool) (reorder : expr num → K).
Hypothesis leb_total : ∀ a b, leb a b = true ∨ leb b a = true.
Notation R := (_reassociate leb reorder).
Implicit Types (n x : expr num) (os ss rest : list (expr num)).

Definition is_Prod n : bool := match n with Prod _ _ => true | _ => false end.

(** An operand left as it is by a second pass: neither a product nor a
    symbol, and a fixed point of [_reassociate]. *)
Definition settled n : Prop := R n = Some n ∧ is_Prod n = false ∧ is_Symbol n = false.

Lemma reassociate_operands_explore recur n :
  reassociate_operands recur n
  = others ← mapM recur (filter (λ c, is_Symbol c = false) (explore_operator n));
    Some (others, filter (λ c, is_Symbol c = true) (explore_operator n)).
Proof.
  induction n as [s r|v|c IH|c IH|l r IHl IHr|l r IHl IHr|l r IHl IHr
                 |l r IHl IHr|f args IH|c t f IHc IHt IHf]
    using expr_nested_ind; simpl; try done;
    try (by match goal with |- context [recur ?t] => destruct (recur t) end).
  rewrite IHl, IHr, !filter_app. clear.
  generalize (filter (λ c, is_Symbol c = false) (explore_operator l)) as xs.
  generalize (filter (λ c, is_Symbol c = false) (explore_operator r)) as ys.
  intros ys xs. revert ys. induction xs as [|x xs IH]; intros ys; simpl.
  - by destruct (mapM recur ys).
  - destruct (recur x); simpl; [|done]. specialize (IH ys).
    destruct (mapM recur xs); simpl in *.
    + destruct (mapM recur ys); simpl in *.
      * destruct (mapM recur (xs ++ ys)); simpl in *; congruence.
      * destruct (mapM recur (xs ++ ys)); simpl in *; congruence.
    + destruct (mapM recur (xs ++ ys)); simpl in *; congruence.
Qed.

Lemma reassociate_Prod l r :
  R (Prod l r)
  = '(os, ss) ← reassociate_operands R (Prod l r);
    match os ++ sorted leb reorder ss with
    | [] => None
    | x :: rest => Some (ast_make_expr x rest)
    end.
Proof.
  simpl. destruct (reassociate_operands R l) as [[ol sl]|]; simpl; [|done].
  by destruct (reassociate_operands R r) as [[or sr]|].
Qed.

Lemma reassociate_operands_settled n :
  settled n → reassociate_operands R n = Some ([n], []).
Proof.
  intros (Hn & Hp & Hs). destruct n; simpl in *; try done; by rewrite Hn.
Qed.

Lemma reassociate_operands_chain rest : ∀ x os ss,
  x :: rest = os ++ ss → Forall settled os → Forall (λ c, is_Symbol c = true) ss →
  reassociate_operands R (ast_make_expr x rest) = Some (os, ss).
Proof.
  induction rest as [|y rest IH]; intros x os ss Heq Hos Hss; simpl.
  - destruct os as [|o os].
    + simpl in Heq. subst ss. apply Forall_cons in Hss as [Hx _].
      by destruct x.
    + inversion Heq as [[Hx Hrest]]. symmetry in Hrest.
      apply app_eq_nil in Hrest as [-> ->].
      apply Forall_cons in Hos as [Ho _]. by apply reassociate_operands_settled.
  - destruct os as [|o os].
    + simpl in Heq. subst ss. apply Forall_cons in Hss as [Hx Hss].
      rewrite (IH y [] (y :: rest)); [|done|done|done]. by destruct x.
    + inversion Heq as [[Hx Hrest]]. apply Forall_cons in Hos as [Ho Hos].
      rewrite (IH y os ss Hrest Hos Hss).
      by rewrite (reassociate_operands_settled _ Ho).
Qed.

Lemma reassociate_chain x rest os ss :
  x :: rest = os ++ sorted leb reorder ss →
  Forall settled os → Forall (λ c, is_Symbol c = true) ss →
  R (ast_make_expr x rest) = Some (ast_make_expr x rest).
Proof using leb_total.
  intros Heq Hos Hss.
  assert (Forall (λ c, is_Symbol c = true) (sorted leb reorder ss)) as Hss'
    by (by apply sorted_Forall).
  destruct rest as [|y rest].
  - simpl. destruct os as [|o os].
    + simpl in Heq. rewrite <- Heq in Hss'. apply Forall_cons in Hss' as [Hx _].
      by destruct x.
    + inversion Heq as [[Hx Hrest]]. apply Forall_cons in Hos as [Ho _]. apply Ho.
  - change (ast_make_expr x (y :: rest)) with (Prod x (ast_make_expr y rest)).
    rewrite reassociate_Prod.
    change (Prod x (ast_make_expr y rest)) with (ast_make_expr x (y :: rest)).
    rewrite (reassociate_operands_chain _ _ _ _ Heq Hos Hss'). simpl.
    by rewrite (sorted_idempotent _ _ leb_total), <- Heq.
Qed.

Lemma reassociate_operands_other n :
  is_Prod n = false → is_Symbol n = false →
  reassociate_operands R n = n' ← R n; Some ([n'], []).
Proof. by destruct n. Qed.

Lemma mapM_fixed_point args args' :
  Forall (λ a, ∀ a', R a = Some a' → R a' = Some a') args →
  mapM R args = Some args' → mapM R args' = Some args'.
Proof.
  intros Hall Hm. apply mapM_Some in Hm. apply mapM_Some.
  induction Hm as [|a a' args args' Ha Hm IH]; [constructor|].
  apply Forall_cons in Hall as [Ha' Hall]. constructor; auto.
Qed.

(** What one pass establishes, by induction on the tree: its result is a
    fixed point, it keeps the kind of a node that is not a product, and the
    operands it hands back for a chain are settled ones and symbols. *)
Definition reassociated n : Prop :=
  (∀ n', R n = Some n' → R n' = Some n') ∧
  (∀ n', R n = Some n' → is_Prod n = false →
         is_Prod n' = false ∧ is_Symbol n' = is_Symbol n) ∧
  (∀ os ss, reassociate_operands R n = Some (os, ss) →
            Forall settled os ∧ Forall (λ c, is_Symbol c = true) ss).

Lemma reassociated_other n :
  is_Prod n = false → is_Symbol n = false →
  (∀ n', R n = Some n' → R n' = Some n') →
  (∀ n', R n = Some n' → is_Prod n' = false ∧ is_Symbol n' = false) →
  reassociated n.
Proof.
  intros Hp Hs H1 H2. split; [done|split].
  - intros n' Hn' _. rewrite Hs. by apply H2.
  - intros os ss. rewrite reassociate_operands_other by done.
    destruct (R n) as [n'|] eqn:E; [|done]. intros [= <- <-].
    split; [|constructor]. repeat constructor; [by apply H1|by apply H2..].
Qed.

Lemma reassociate_fixed_point n : reassociated n.
Proof using leb_total.
  induction n as [s r|v|c IH|c IH|l r IHl IHr|l r IHl IHr|l r IHl IHr
                 |l r IHl IHr|f args IH|c t f IHc IHt IHf]
    using expr_nested_ind.
  - split; [|split].
    + by intros n' [= <-].
    + by intros n' [= <-].
    + intros os ss [= <- <-]. by repeat constructor.
  - by apply reassociated_other.
  - destruct IH as (IH1 & IH2 & _). apply reassociated_other; try done; simpl.
    + intros n' Hn'. destruct (R c) as [c'|] eqn:E; [|done].
      injection Hn' as <-. simpl. by rewrite (IH1 _ eq_refl).
    + intros n' Hn'. destruct (R c) as [c'|]; [|done]. by injection Hn' as <-.
  - by apply reassociated_other.
  - destruct IHl as (IHl1 & _), IHr as (IHr1 & _).
    apply reassociated_other; try done; simpl.
    + intros n' Hn'. destruct (R l) as [l'|] eqn:El; [|done].
      destruct (R r) as [r'|] eqn:Er; [|done]. injection Hn' as <-. simpl.
      by rewrite (IHl1 _ eq_refl), (IHr1 _ eq_refl).
    + intros n' Hn'. destruct (R l) as [l'|]; [|done].
      destruct (R r) as [r'|]; [|done]. by injection Hn' as <-.
  - destruct IHl as (IHl1 & _), IHr as (IHr1 & _).
    apply reassociated_other; try done; simpl.
    + intros n' Hn'. destruct (R l) as [l'|] eqn:El; [|done].
      destruct (R r) as [r'|] eqn:Er; [|done]. injection Hn' as <-. simpl.
      by rewrite (IHl1 _ eq_refl), (IHr1 _ eq_refl).
    + intros n' Hn'. destruct (R l) as [l'|]; [|done].
      destruct (R r) as [r'|]; [|done]. by injection Hn' as <-.
  - destruct IHl as (_ & _ & IHl3), IHr as (_ & _ & IHr3).
    assert (∀ os ss, reassociate_operands R (Prod l r) = Some (os, ss) →
                     Forall settled os ∧ Forall (λ c, is_Symbol c = true) ss) as H3.
    { intros os ss. simpl.
      destruct (reassociate_operands R l) as [[ol sl]|]; [|done].
      destruct (reassociate_operands R r) as [[or sr]|]; [|done].
      intros [= <- <-]. destruct (IHl3 _ _ eq_refl), (IHr3 _ _ eq_refl).
      split; by apply Forall_app. }
    split; [|split; [done|exact H3]].
    intros n'. rewrite reassociate_Prod.
    destruct (reassociate_operands R (Prod l r)) as [[os ss]|] eqn:E; [|done].
    destruct (H3 _ _ eq_refl) as [Hos Hss]. simpl.
    destruct (os ++ sorted leb reorder ss) as [|x rest] eqn:Ex; [done|].
    intros [= <-]. by eapply reassociate_chain.
  - apply reassociated_other; try done; by intros n' [= <-].
  - apply reassociated_other; try done; simpl.
    + intros n' Hn'. destruct (mapM R args) as [args'|] eqn:E; [|done].
      injection Hn' as <-. simpl.
      rewrite (mapM_fixed_point args args'); [done| |done].
      eapply Forall_impl; [exact IH|]. by intros a (Ha & _).
    + intros n' Hn'. destruct (mapM R args) as [args'|]; [|done].
      by injection Hn' as <-.
  - by apply reassociated_other.
Qed.

(** C7: [reassociate] is idempotent.  For every ordering key whose
    comparison is total, a call that returns leaves a tree on which a second
    call with the same key returns the same tree; and a call does return on
    every tree in which [Neg], [Ternary] and bare numbers, the kinds of node
    it does not know, occur below divisions only. *)
Lemma sorted_nil_inv (ss : list (expr num)) : sorted leb reorder ss = [] → ss = [].
Proof.
  destruct ss as [|x ss]; [done|]. unfold sorted. simpl.
  destruct (foldr _ _ _); simpl; [done|]. by destruct (leb _ _).
Qed.

Lemma reassociate_returns n :
  reassociable n = true →
  is_Some (R n) ∧
  ∃ os ss, reassociate_operands R n = Some (os, ss) ∧ os ++ ss ≠ [].
Proof.
  assert (∀ n, is_Prod n = false → is_Symbol n = false → is_Some (R n) →
               is_Some (R n) ∧
               ∃ os ss, reassociate_operands R n = Some (os, ss) ∧ os ++ ss ≠ [])
    as Hother.
  { intros m Hp Hs [m' Hm]. split; [by eexists|].
    rewrite reassociate_operands_other, Hm by done. by eexists [m'], []. }
  induction n as [s r|v|c IH|c IH|l r IHl IHr|l r IHl IHr|l r IHl IHr
                 |l r IHl IHr|f args IH|c t f IHc IHt IHf]
    using expr_nested_ind; simpl; intros Hr;
    repeat match goal with
           | Hb : _ && _ = true |- _ => apply andb_true_iff in Hb; destruct Hb
           end;
    try done.
  - split; [by eexists|]. by eexists [], [_].
  - apply (Hother (Par c)); try done. simpl.
    destruct (IH Hr) as [[c' ->] _]. by eexists.
  - apply (Hother (Sum l r)); try done. simpl.
    destruct IHl as [[l' ->] _]; [done|]. destruct IHr as [[r' ->] _]; [done|].
    by eexists.
  - apply (Hother (Sub l r)); try done. simpl.
    destruct IHl as [[l' ->] _]; [done|]. destruct IHr as [[r' ->] _]; [done|].
    by eexists.
  - destruct IHl as [_ (ol & sl & -> & Hl)]; [done|].
    destruct IHr as [_ (or & sr & -> & Hr')]; [done|]. simpl.
    split.
    + destruct ((ol ++ or) ++ sorted leb reorder (sl ++ sr)) as [|x rest] eqn:E;
        [|by eexists].
      apply app_eq_nil in E as [[-> ->]%app_eq_nil E2].
      apply sorted_nil_inv, app_eq_nil in E2 as [-> ->]. done.
    + eexists _, _. split; [done|]. intros [[-> ->]%app_eq_nil [-> ->]%app_eq_nil]%app_eq_nil.
      done.
  - by apply (Hother (Div l r)).
  - apply (Hother (FunCall f args)); try done. simpl.
    assert (is_Some (mapM R args)) as [args' ->]; [|by eexists].
    apply mapM_is_Some.
    induction IH as [|a args Ha _ IHargs]; [constructor|].
    simpl in Hr. apply andb_true_iff in Hr as [Hr1 Hr2].
    constructor; [apply (Ha Hr1)|by apply IHargs].
Qed.

(** C7: [reassociate] is idempotent.  For every ordering key whose
    comparison is total, a call that returns leaves a tree on which a second
    call with the same key returns the same tree; and a call does return on
    every tree in which [Neg], [Ternary] and bare numbers, the kinds of node
    it does not know, occur below divisions only. *)
Theorem reassociate_idempotent (rv : expr num) :
  (∀ rv', reassociate leb reorder rv = Some rv' →
          reassociate leb reorder rv' = Some rv') ∧
  (reassociable rv = true → is_Some (reassociate leb reorder rv)).
Proof using leb_total.
  split; [apply reassociate_fixed_point|].
  intros Hr. by apply reassociate_returns.
Qed.
End ReassociateFacts.

Lemma rank_compare_antisym a : ∀ b, rank_compare b a = CompOpp (rank_compare a b).
Proof.
  induction a as [|x a IH]; intros [|y b]; simpl; try done.
  rewrite (String.compare_antisym y x).
  destruct (String.compare x y); simpl; auto.
Qed.

Lemma default_leb_total k1 k2 : default_leb k1 k2 = true ∨ default_leb k2 k1 = true.
Proof.
  unfold default_leb. rewrite (rank_compare_antisym k1.1 k2.1).
  destruct (rank_compare k1.1 k2.1); simpl; auto.
  destruct (Nat.leb_spec k1.2 k2.2); [by left|right]. apply Nat.leb_le. lia.
Qed.

(** The docstring's example, [a*b[i]*c[i][j]*d]. *)
Lemma reassociate_idempotent_witness :
  (∀ rv',
     reassociate default_leb default_reorder
       (Prod (Prod (Prod (sym (num:=Q) "a" []) (sym "b" ["i"])) (sym "c" ["i"; "j"]))
          (sym "d" []))
     = Some rv' →
     reassociate default_leb default_reorder rv' = Some rv') ∧
  (reassociable
     (Prod (Prod (Prod (sym (num:=Q) "a" []) (sym "b" ["i"])) (sym "c" ["i"; "j"]))
        (sym "d" [])) = true →
   is_Some (reassociate default_leb default_reorder
              (Prod (Prod (Prod (sym (num:=Q) "a" []) (sym "b" ["i"]))
                       (sym "c" ["i"; "j"])) (sym "d" [])))).
Proof.
  exact (reassociate_idempotent default_leb default_reorder default_leb_total
           (Prod (Prod (Prod (sym "a" []) (sym "b" ["i"])) (sym "c" ["i"; "j"]))
              (sym "d" []))).
Defined.

(** On that example the symbols come out as [a*d*b[i]*c[i][j]]. *)
Example reassociate_docstring :
  reassociate default_leb default_reorder
    (Prod (Prod (Prod (sym (num:=Q) "a" []) (sym "b" ["i"])) (sym "c" ["i"; "j"]))
       (sym "d" []))
  = Some (Prod (sym "a" []) (Prod (sym "d" []) (Prod (sym "b" ["i"]) (sym "c" ["i"; "j"])))).
Proof. reflexivity. Qed.
Section FacadeFacts.
Context {num Header Decls Hoisted Graph Passes : Type}.
Notation rewriter := (rewriter num Header Decls Hoisted Graph Passes).
Context (expander_expand : (expr num → bool) → kwargs num → M rewriter unit).
Context (factorizer_factorize : (expr num → bool) → kwargs num → M rewriter unit).
Context (ldanalysis : rewriter → sym_name num → gset string).
Context (urepr : expr num → string).

Lemma run_returns_self {A} (m : M rewriter A) (s s' : rewriter) r :
  (m ;; ret ReturnedSelf)%comp s = Some (r, s') → r = ReturnedSelf.
Proof.
  unfold bind, ret. destruct (m s) as [[a s1]|]; [|done]. by intros [= <- _].
Qed.

(** C10: with a mode that is not one of the recognized ones, [expand] and
    [factorize] return [None] and leave the statement, the declarations, the
    header, the registry and the graph as they were (a warning is issued);
    with a recognized mode, whenever they return, they return the rewriter
    itself. *)
Theorem unknown_mode_returns_None (mode : string) (kw : kwargs num) (self : rewriter) :
  (mode ∉ expand_modes →
   ∃ self', expand expander_expand ldanalysis mode kw self = Some (ReturnedNone, self') ∧
            stmt self' = stmt self ∧ decls self' = decls self ∧
            header self' = header self ∧ hoisted self' = hoisted self ∧
            expr_graph self' = expr_graph self ∧ passes self' = passes self) ∧
  (mode ∉ factorize_modes →
   ∃ self', factorize factorizer_factorize ldanalysis urepr mode kw self
            = Some (ReturnedNone, self') ∧
            stmt self' = stmt self ∧ decls self' = decls self ∧
            header self' = header self ∧ hoisted self' = hoisted self ∧
            expr_graph self' = expr_graph self ∧ passes self' = passes self) ∧
  (mode ∈ expand_modes →
   ∀ r self', expand expander_expand ldanalysis mode kw self = Some (r, self') →
              r = ReturnedSelf) ∧
  (mode ∈ factorize_modes →
   ∀ r self', factorize factorizer_factorize ldanalysis urepr mode kw self
              = Some (r, self') → r = ReturnedSelf).
Proof.
  unfold expand_modes, factorize_modes. split; [|split; [|split]].
  - intros Hm. unfold expand, bind, get. simpl.
    repeat (case_decide; [exfalso; set_solver|]). by eexists.
  - intros Hm. unfold factorize, bind, get. simpl.
    repeat (case_decide; [exfalso; set_solver|]). by eexists.
  - intros Hm r self'. unfold expand. unfold bind at 1. unfold get at 1.
    repeat case_decide;
      try (destruct (standard_dimension _ _));
      try (by apply run_returns_self); try (by intros [= <- _]).
    exfalso. set_solver.
  - intros Hm r self'. unfold factorize. unfold bind at 1. unfold get at 1.
    repeat case_decide;
      try (destruct (standard_dimension _ _));
      try (destruct (kw_adhoc kw));
      try (by apply run_returns_self); try (by intros [= <- _]).
    all: exfalso; set_solver.
Qed.
End FacadeFacts.

Import Examples.

End ExpressionRewriterFacts.

Module ExpressionFactorizerFacts.
Import ExpressionRewriter ExpressionFactorizer.
Section Facts.
Context {num : Type} `{Number num}.
Hypothesis mul_one_l : ∀ v : num, mul one v = v.
Hypothesis is_one_one : is_one (one : num) = true.

Lemma literal_values_literals (symbols : list (expr num)) :
  literal_values (filter (λ s, is_literal s = true) symbols) = literal_values symbols.
Proof.
  induction symbols as [|s symbols IH]; [done|].
  rewrite filter_cons. destruct s as [[|]| | | | | | | | |]; simpl; try done.
  unfold literal_values in *. simpl. by rewrite IH.
Qed.

Lemma literal_values_others (symbols : list (expr num)) :
  literal_values (filter (λ s, is_literal s = false) symbols) = [].
Proof.
  induction symbols as [|s symbols IH]; [done|].
  rewrite filter_cons. by destruct s as [[|]| | | | | | | | |].
Qed.

Lemma length_literal_values (symbols : list (expr num)) :
  length (literal_values symbols)
  = length (filter (λ s, is_literal s = true) symbols).
Proof.
  induction symbols as [|s symbols IH]; [done|].
  rewrite filter_cons. destruct s as [[|]| | | | | | | | |]; simpl; try done.
  unfold literal_values in *. simpl. by rewrite IH.
Qed.

Lemma premultiply_literals (symbols : list (expr num)) :
  literal_values (_premultiply_symbols symbols)
  = match literal_values symbols with
    | [] => []
    | [v] => [v]
    | values => if is_one (product values) then [] else [product values]
    end.
Proof.
  unfold _premultiply_symbols.
  rewrite literal_values_literals, <- length_literal_values.
  destruct (literal_values symbols) as [|v [|w values]] eqn:E; simpl; try done.
  destruct (is_one (product _)); simpl.
  - apply literal_values_others.
  - change (literal_values (Symbol (SNum ?p) [] :: ?l)) with (p :: literal_values l).
    by rewrite literal_values_others.
Qed.

Lemma premultiply_others (symbols : list (expr num)) :
  filter (λ s, is_literal s = false) (_premultiply_symbols symbols)
  = filter (λ s, is_literal s = false) symbols.
Proof.
  unfold _premultiply_symbols. destruct (Nat.ltb _ _); [|done].
  destruct (is_one (product _)); simpl; rewrite ?filter_cons; simpl;
    by rewrite list_filter_filter_l.
Qed.

End Facts.

Section FactorizeFacts.
Context {num : Type} `{Number num}.
Context (node_eq : expr num → expr num → bool).
Context (should_factorize : expr num → bool).
Context (sum_pass : term_op → list (Term num) → expr num).
Hypothesis mul_one_l : ∀ v : num, mul one v = v.
Hypothesis is_one_one : is_one (one : num) = true.
Notation run := (_factorize node_eq should_factorize sum_pass).

Lemma literal_values_app (a b : list (expr num)) :
  literal_values (a ++ b) = literal_values a ++ literal_values b.
Proof. unfold literal_values. apply omap_app. Qed.

Lemma prod_symbols_Prod (a b : expr num) :
  prod_symbols (Prod a b)
  = filter (λ n, is_Symbol n = true) (explore_operator a)
    ++ filter (λ n, is_Symbol n = true) (explore_operator b).
Proof. unfold prod_symbols. simpl. by rewrite filter_app. Qed.

(** The symbols among the operands collected by [explore_operator] are the
    ones of the chain. *)
Lemma chain_literals_spec (n : expr num) :
  literal_values (filter (λ n, is_Symbol n = true) (explore_operator n))
  = chain_literals n.
Proof.
  induction n as [[name|v] r| | | | | |a IHa b IHb| | |]; try done.
  simpl. by rewrite filter_app, literal_values_app, IHa, IHb.
Qed.

Lemma chain_names_spec (n : expr num) :
  filter (λ s, is_literal s = false)
    (filter (λ n, is_Symbol n = true) (explore_operator n))
  = chain_names n.
Proof.
  induction n as [[name|v] r| | | | | |a IHa b IHb| | |]; try done.
  simpl. by rewrite !filter_app, IHa, IHb.
Qed.

Lemma factorize_operands_terms (n : expr num) :
  (factorize_operands run n).1 = map (λ o, (run o).1) (chain_others n).
Proof.
  assert (Hone : ∀ p : Term num * expr num, (let '(t, n') := p in ([t], n')).1 = [p.1])
    by (by intros []).
  induction n as [s r|v|c IH|c IH|l r IHl IHr|l r IHl IHr|a b IHa IHb
                 |l r IHl IHr|f args IH|c t f IHc IHt IHf]
    using expr_nested_ind; cbn [factorize_operands chain_others map];
    try done; try apply Hone.
  destruct (factorize_operands run a) as [ta a'].
  destruct (factorize_operands run b) as [tb b']. simpl in *.
  by rewrite map_app, IHa, IHb.
Qed.

Lemma factorize_Prod (l r : expr num) :
  (run (Prod l r)).1
  = merge_terms node_eq
      (process (handed_symbols (Prod l r)) should_factorize (Some OpProd))
      (map (λ o, (run o).1) (chain_others (Prod l r))).
Proof.
  cbn [_factorize chain_others].
  pose proof (factorize_operands_terms l) as Hl.
  pose proof (factorize_operands_terms r) as Hr.
  destruct (factorize_operands run l) as [tl l'].
  destruct (factorize_operands run r) as [tr r']. simpl in *.
  by rewrite map_app, Hl, Hr.
Qed.

Lemma literal_values_cons (s : expr num) (l : list (expr num)) :
  literal_values (s :: l) = literal_values [s] ++ literal_values l.
Proof. apply (literal_values_app [s] l). Qed.

Lemma literal_values_filter_nil (P : expr num → Prop) `{∀ x, Decision (P x)}
    (l : list (expr num)) :
  literal_values l = [] → literal_values (filter P l) = [].
Proof.
  induction l as [|x l IH]; [done|]. rewrite literal_values_cons.
  intros [Hx Hl]%app_eq_nil. rewrite filter_cons. case_decide; [|by apply IH].
  rewrite literal_values_cons, Hx. by apply IH.
Qed.

(** Splitting a list with one literal at most in two keeps the literal. *)
Lemma literal_values_partition (f : expr num → bool) (symbols : list (expr num)) :
  length (literal_values symbols) ≤ 1 →
  literal_values (filter (λ s, f s = true) symbols ++ filter (λ s, f s = false) symbols)
  = literal_values symbols.
Proof.
  induction symbols as [|s symbols IH]; [done|].
  rewrite (literal_values_cons s symbols), length_app. intros Hlen.
  destruct (f s) eqn:Hf.
  - rewrite (filter_cons_True (λ s, f s = true)) by done.
    rewrite (filter_cons_False (λ s, f s = false)) by congruence.
    rewrite <- app_comm_cons, literal_values_cons. f_equal. apply IH. lia.
  - rewrite (filter_cons_False (λ s, f s = true)) by congruence.
    rewrite (filter_cons_True (λ s, f s = false)) by done.
    rewrite literal_values_app, literal_values_cons.
    destruct (literal_values [s]) as [|v vs] eqn:Hs.
    + simpl. rewrite <- literal_values_app. apply IH. simpl in Hlen. lia.
    + assert (literal_values symbols = []) as Hnil
        by (destruct (literal_values symbols); [done|simpl in Hlen; lia]).
      by rewrite !literal_values_filter_nil, Hnil.
Qed.

End FactorizeFacts.

Import Examples.

Lemma Q_mul_one_l (v : Q) : mul one v = v.
Proof. destruct v as [n d]. unfold mul, one. simpl. unfold Qmult. simpl. by destruct n. Qed.


Example factorize_two_X_three :
  (_factorize expr_eqb (λ _, false) (λ _ _, RawNum 0%Q) two_X_three).1
  = {| operands := []; factors := [Symbol (SNum 6%Q) []; sym "X" ["i"]];
       op := Some OpProd |}.
Proof. reflexivity. Qed.


Example premultiply_two_literals :
  handed_symbols (Prod (Prod (Symbol (SNum 2%Q) []) (sym "X" ["i"])) (Symbol (SNum 3%Q) []))
  = [Symbol (SNum 6%Q) []; sym "X" ["i"]].
Proof. reflexivity. Qed.
End ExpressionFactorizerFacts.

Module ExpressionExpanderFacts.
Import ExpressionRewriter ExpressionExpander Examples.

Section BalancedFacts.
Context {T : Type} (op : T → T → T).

Lemma ast_make_bal_expr_halves fuel x y rest :
  ast_make_bal_expr op (S fuel) (x :: y :: rest)
  = a ← ast_make_bal_expr op fuel
          (take (length (x :: y :: rest) / 2) (x :: y :: rest));
    b ← ast_make_bal_expr op fuel
          (drop (length (x :: y :: rest) / 2) (x :: y :: rest));
    Some (op a b).
Proof. reflexivity. Qed.

Lemma ast_make_bal_expr_preserves (Q : T → Prop) :
  (∀ a b, Q a → Q b → Q (op a b)) →
  ∀ fuel nodes t,
    Forall Q nodes → ast_make_bal_expr op fuel nodes = Some t → Q t.
Proof.
  intros Hop. induction fuel as [|fuel IH]; intros nodes t Hall; [done|].
  destruct nodes as [|x [|y rest]]; [done| |].
  - simpl. intros [= <-]. by apply Forall_cons in Hall as [? _].
  - rewrite ast_make_bal_expr_halves. remember (x :: y :: rest) as l.
    destruct (ast_make_bal_expr op fuel (take _ l)) as [a|] eqn:Ea; [|done].
    destruct (ast_make_bal_expr op fuel (drop _ l)) as [b|] eqn:Eb; [|done].
    simpl. intros [= <-]. apply Hop.
    + eapply IH; [|exact Ea]. by apply Forall_take.
    + eapply IH; [|exact Eb]. by apply Forall_drop.
Qed.

Lemma ast_make_bal_expr_is_Some fuel : ∀ nodes,
  nodes ≠ [] → length nodes ≤ fuel → is_Some (ast_make_bal_expr op fuel nodes).
Proof.
  induction fuel as [|fuel IH]; intros nodes Hne Hlen.
  - destruct nodes; [done|simpl in Hlen; lia].
  - destruct nodes as [|x [|y rest]]; [done|by eexists|].
    rewrite ast_make_bal_expr_halves. remember (x :: y :: rest) as l.
    assert (2 ≤ length l) as Hl by (subst l; simpl; lia).
    assert (1 ≤ length l / 2 ∧ length l / 2 < length l) as [Hh1 Hh2].
    { split; [apply Nat.div_le_lower_bound; lia|apply Nat.div_lt; lia]. }
    destruct (IH (take (length l / 2) l)) as [a ->].
    { intros E. apply (f_equal length) in E. rewrite length_take in E.
      change (length (@nil T)) with 0 in E. lia. }
    { rewrite length_take. lia. }
    destruct (IH (drop (length l / 2) l)) as [b ->].
    { intros E. apply (f_equal length) in E. rewrite length_drop in E.
      change (length (@nil T)) with 0 in E. lia. }
    { rewrite length_drop. lia. }
    by eexists.
Qed.
End BalancedFacts.

Section Facts.
Context {num : Type} (should_expand : expr num → bool).
Notation distributed := (distributed should_expand).
Notation expandable_sum := (expandable_sum should_expand).
Implicit Types (m : marked num) (e g t : expr num) (k : kind).

(** What a node of an [EXPAND] list looks like: an expandable symbol, a
    product, or a [Neg]; never a sum, never a symbol to group. *)
Definition leaflike e : Prop :=
  distributed e = true ∧
  match e with
  | Symbol _ _ => should_expand e = true
  | Prod _ _ | Neg _ => True
  | _ => False
  end.

(** The invariant of [_expand]. *)
Definition sound m k : Prop :=
  distributed (erase m) = true ∧
  (expandable_sum (erase m) = true → k = EXPAND) ∧
  (∀ s r, erase m = Symbol s r → should_expand (Symbol s r) = true → k = EXPAND) ∧
  (k = EXPAND → Forall leaflike (listed m)) ∧
  Forall (λ g, distributed g = true) (listed m) ∧
  listed m ≠ [].

Lemma leaflike_distributed e : leaflike e → distributed e = true.
Proof. by intros [? _]. Qed.

Lemma leaflike_Prod e g :
  leaflike e → distributed g = true → leaflike (Prod e g).
Proof.
  intros [He Hshape] Hg. split; [|done]. simpl. rewrite He, Hg.
  destruct e; simpl in *; try done.
  by rewrite Hshape.
Qed.

(** The part of the invariant [distribute] works on. *)
Definition leaves_ok m : Prop :=
  distributed (erase m) = true ∧ Forall leaflike (listed m).

Lemma leaves_ok_MSum a b : leaves_ok a → leaves_ok b → leaves_ok (MSum a b).
Proof.
  intros [Ha1 Ha2] [Hb1 Hb2]. split; [|by apply Forall_app]. simpl.
  rewrite Ha1, Hb1. by destruct (erase a), (erase b).
Qed.

Lemma distribute_leaves_ok groupable m m' :
  Forall (λ g, distributed g = true) groupable →
  leaves_ok m → distribute groupable m = Some m' → leaves_ok m'.
Proof.
  intros HG. revert m'.
  induction m as [t|e|c IH|l IHl r IHr|l IHl r negated]; intros m' [Hd Hl]; simpl.
  - by intros [= <-].
  - apply ast_make_bal_expr_preserves; [apply leaves_ok_MSum|].
    apply Forall_fmap, Forall_forall. intros g Hg. simpl in Hl.
    apply Forall_cons in Hl as [He _].
    rewrite Forall_forall in HG. specialize (HG g Hg).
    pose proof (leaflike_Prod e g He HG) as HP.
    split; [by apply leaflike_distributed|].
    simpl. constructor; [exact HP|constructor].
  - destruct (distribute groupable c) as [c'|] eqn:E; [|done]. intros [= <-].
    destruct (IH c') as [Hc1 Hc2]; [by split|done|]. by split.
  - destruct (distribute groupable l) as [l'|] eqn:El; [|done].
    destruct (distribute groupable r) as [r'|] eqn:Er; [|done]. intros [= <-].
    simpl in Hd, Hl. apply Forall_app in Hl as [Hl1 Hl2].
    apply andb_true_iff in Hd as [Hd1 Hd2].
    apply leaves_ok_MSum; [apply IHl|apply IHr]; by split.
  - destruct (distribute groupable l) as [l'|] eqn:El; [|done]. intros [= <-].
    simpl in Hd, Hl. apply Forall_app in Hl as [Hl1 Hl2].
    apply andb_true_iff in Hd as [Hd1 Hd2].
    destruct (IHl l') as [Hl'1 Hl'2]; [by split|done|].
    split; [simpl; by rewrite Hl'1, Hd2|].
    simpl. apply Forall_app. split; [done|].
    apply Forall_forall. intros p Hp.
    apply list_elem_of_bind in Hp as (d & Hp & Hd').
    apply list_elem_of_fmap in Hp as (g & -> & Hg).
    rewrite Forall_forall in Hl2, HG. apply leaflike_Prod; auto.
Qed.

Lemma ast_make_bal_expr_listed fuel (nodes : list (marked num)) m :
  Forall (λ n, listed n ≠ []) nodes →
  ast_make_bal_expr MSum fuel nodes = Some m → listed m ≠ [].
Proof.
  apply (ast_make_bal_expr_preserves MSum (λ n, listed n ≠ [])).
  intros a b Ha Hb. simpl. by intros [? ?]%app_eq_nil.
Qed.

Lemma distribute_listed groupable m m' :
  groupable ≠ [] → distribute groupable m = Some m' →
  listed m ≠ [] → listed m' ≠ [].
Proof.
  intros HG. revert m'.
  induction m as [t|e|c IH|l IHl r IHr|l IHl r negated]; intros m'; simpl.
  - by intros [= <-].
  - intros Hb _. eapply ast_make_bal_expr_listed; [|exact Hb].
    apply Forall_fmap, Forall_forall. by intros g _.
  - destruct (distribute groupable c) as [c'|]; [|done]. intros [= <-]. simpl. eauto.
  - destruct (distribute groupable l) as [l'|]; [|done].
    destruct (distribute groupable r) as [r'|]; [|done]. intros [= <-]. simpl.
    intros Hne [E1 E2]%app_eq_nil.
    destruct (listed l) as [|x xs] eqn:Ex.
    + apply (IHr r'); [done| |done]. by rewrite <- (app_nil_l (listed r)).
    + by apply (IHl l').
  - destruct (distribute groupable l) as [l'|]; [|done]. intros [= <-]. simpl.
    intros Hne [E1 E2]%app_eq_nil.
    destruct (listed l) as [|x xs] eqn:Ex.
    + simpl in Hne. destruct negated as [|d negated]; [done|].
      destruct groupable as [|g groupable]; [done|]. done.
    + by apply (IHl l').
Qed.

Lemma distribute_is_Some groupable m :
  groupable ≠ [] → is_Some (distribute groupable m).
Proof.
  intros HG.
  induction m as [t|e|c IH|l IHl r IHr|l IHl r negated]; simpl.
  - by eexists.
  - apply ast_make_bal_expr_is_Some; [by destruct groupable|].
    by rewrite length_fmap.
  - destruct IH as [c' ->]. by eexists.
  - destruct IHl as [l' ->], IHr as [r' ->]. by eexists.
  - destruct IHl as [l' ->]. by eexists.
Qed.

Lemma sound_group t :
  distributed t = true → expandable_sum t = false → is_Symbol t = false →
  sound (Listed t) GROUP.
Proof.
  intros Hd Hs Hsym. repeat split; simpl; try done.
  - by rewrite Hs.
  - intros s r ->. done.
  - by repeat constructor.
Qed.

Lemma sound_distributed_listed m k g : sound m k → g ∈ listed m → distributed g = true.
Proof. intros (_ & _ & _ & _ & Hall & _) Hg. by eapply Forall_forall in Hall. Qed.

Lemma expandable_sum_inv l r :
  expandable_sum (Sum l r) = true →
  ∃ a ra b rb, l = Symbol a ra ∧ r = Symbol b rb ∧
               should_expand l = true ∧ should_expand r = true.
Proof.
  destruct l; try done. destruct r; try done. simpl.
  intros [? ?]%andb_true_iff. by eexists _, _, _, _.
Qed.

Lemma expand_sound node : ∀ m k, _expand should_expand node = Some (m, k) → sound m k.
Proof.
  induction node as [s r|v|c IH|c IH|l r IHl IHr|l r IHl IHr|l r IHl IHr
                    |l r IHl IHr|f args IH|c t f IHc IHt IHf]
    using expr_nested_ind; intros m k; simpl; try done.
  - (* Symbol *)
    intros [= <- <-]. repeat split; simpl; try done.
    + intros s' r' [= <- <-] ->. done.
    + intros Hk. constructor; [|constructor]. split; [done|].
      by destruct (should_expand (Symbol s r)).
    + by repeat constructor.
  - (* Par *)
    destruct (_expand should_expand c) as [[c' k']|] eqn:E; [|done].
    intros [= <- <-]. destruct (IH _ _ eq_refl) as (H1 & H2 & H3 & H4 & H5 & H6).
    repeat split; simpl; try done.
  - (* Sum *)
    destruct (_expand should_expand l) as [[l' lt]|] eqn:El; [|done].
    destruct (_expand should_expand r) as [[r' rt]|] eqn:Er; [|done]. simpl.
    destruct (IHl _ _ eq_refl) as (Hl1 & Hl2 & Hl3 & Hl4 & Hl5 & Hl6).
    destruct (IHr _ _ eq_refl) as (Hr1 & Hr2 & Hr3 & Hr4 & Hr5 & Hr6).
    case_decide as Hboth; intros [= <- <-].
    + destruct Hboth as [-> ->]. repeat split; simpl; try done.
      * by rewrite Hl1, Hr1.
      * intros _. apply Forall_app. auto.
      * by apply Forall_app.
      * by intros [? ?]%app_eq_nil.
    + repeat split; simpl; try done.
      * by rewrite Hl1, Hr1.
      * intros Hs. exfalso. apply Hboth.
        apply expandable_sum_inv in Hs as (a & ra & b & rb & Ha & Hb & Hsa & Hsb).
        split; [eapply Hl3|eapply Hr3]; eauto; congruence.
      * constructor; [|constructor]. simpl. by rewrite Hl1, Hr1.
  - (* Sub *)
    destruct (_expand should_expand l) as [[l' lt]|] eqn:El; [|done].
    destruct (_expand should_expand r) as [[r' rt]|] eqn:Er; [|done]. simpl.
    destruct (IHl _ _ eq_refl) as (Hl1 & Hl2 & Hl3 & Hl4 & Hl5 & Hl6).
    destruct (IHr _ _ eq_refl) as (Hr1 & Hr2 & Hr3 & Hr4 & Hr5 & Hr6).
    case_decide as Hboth; intros [= <- <-].
    + destruct Hboth as [-> ->]. repeat split; simpl; try done.
      * by rewrite Hl1, Hr1.
      * intros _. apply Forall_app. split; [auto|].
        apply Forall_fmap. eapply Forall_impl; [exact Hr5|].
        intros x Hx. by split.
      * apply Forall_app. split; [done|].
        apply Forall_fmap. eapply Forall_impl; [exact Hr5|]. by intros x Hx.
      * by intros [? ?]%app_eq_nil.
    + repeat split; simpl; try done.
      * by rewrite Hl1, Hr1.
      * constructor; [|constructor]. simpl. by rewrite Hl1, Hr1.
  - (* Prod *)
    destruct (_expand should_expand l) as [[l' lt]|] eqn:El; [|done].
    destruct (_expand should_expand r) as [[r' rt]|] eqn:Er; [|done]. simpl.
    destruct (IHl _ _ eq_refl) as (Hl1 & Hl2 & Hl3 & Hl4 & Hl5 & Hl6).
    destruct (IHr _ _ eq_refl) as (Hr1 & Hr2 & Hr3 & Hr4 & Hr5 & Hr6).
    case_decide as Hboth.
    + intros [= <- <-]. destruct Hboth as [-> ->].
      assert (expandable_sum (erase l') = false) as Hsl.
      { destruct (expandable_sum (erase l')); [|done]. by specialize (Hl2 eq_refl). }
      assert (expandable_sum (erase r') = false) as Hsr.
      { destruct (expandable_sum (erase r')); [|done]. by specialize (Hr2 eq_refl). }
      apply sound_group; simpl; try done.
      rewrite Hsl, Hsr, Hl1, Hr1. by rewrite !andb_false_r.
    + set (groupable := if decide (lt = GROUP) then listed l' else listed r').
      set (expandable := if decide (lt = GROUP) then r' else l').
      destruct (distribute groupable expandable) as [expanded|] eqn:Ed; [|done].
      simpl. intros [= <- <-].
      assert (Forall (λ g, distributed g = true) groupable ∧ groupable ≠ []) as [HG HGne].
      { unfold groupable. by case_decide. }
      assert (leaves_ok expandable ∧ listed expandable ≠ []) as [HE HEne].
      { unfold expandable. case_decide as Hlt.
        - split; [split; [done|]|done]. apply Hr4.
          destruct rt; [|done]. exfalso. by apply Hboth.
        - split; [split; [done|]|done]. apply Hl4. by destruct lt. }
      destruct (distribute_leaves_ok _ _ _ HG HE Ed) as [Hd Hleaves].
      pose proof (distribute_listed _ _ _ HGne Ed HEne) as Hne.
      destruct (listed expanded) as [|x xs] eqn:Ex; [done|]. rewrite <- Ex in *.
      repeat split; try done.
      eapply Forall_impl; [exact Hleaves|]. by intros y [? _].
  - (* Div *)
    destruct (_expand should_expand l) as [[l' lt]|] eqn:El; [|done].
    destruct (_expand should_expand r) as [[r' rt]|] eqn:Er; [|done]. simpl.
    destruct (IHl _ _ eq_refl) as (Hl1 & _).
    destruct (IHr _ _ eq_refl) as (Hr1 & _).
    intros [= <- <-]. apply sound_group; simpl; try done. by rewrite Hl1, Hr1.
  - (* FunCall *)
    destruct (mapM _ args) as [args'|] eqn:E; [|done]. simpl.
    intros [= <- <-]. apply sound_group; simpl; try done.
    apply mapM_Some in E. clear -E IH.
    induction E as [|a a' args args' Ha E IHE]; [done|].
    apply Forall_cons in IH as [IHa IH]. simpl.
    destruct (_expand should_expand a) as [[ma ka]|] eqn:Ea; [|done].
    simpl in Ha. injection Ha as <-.
    destruct (IHa _ _ eq_refl) as (Ha1 & _). rewrite Ha1. by apply IHE.
Qed.

Lemma expand_returns node :
  expandable_tree node = true → is_Some (_expand should_expand node).
Proof.
  induction node as [s r|v|c IH|c IH|l r IHl IHr|l r IHl IHr|l r IHl IHr
                    |l r IHl IHr|f args IH|c t f IHc IHt IHf]
    using expr_nested_ind; simpl; intros Hx;
    repeat match goal with
           | Hb : _ && _ = true |- _ => apply andb_true_iff in Hb; destruct Hb
           end;
    try done.
  - destruct (IH Hx) as [[c' k] ->]. by eexists.
  - destruct IHl as [[l' lt] ->]; [done|]. destruct IHr as [[r' rt] ->]; [done|].
    simpl. case_decide; by eexists.
  - destruct IHl as [[l' lt] ->]; [done|]. destruct IHr as [[r' rt] ->]; [done|].
    simpl. case_decide; by eexists.
  - destruct IHl as [[l' lt] El]; [done|]. destruct IHr as [[r' rt] Er]; [done|].
    rewrite El, Er. simpl. case_decide; [by eexists|].
    destruct (expand_sound _ _ _ El) as (_ & _ & _ & _ & _ & Hl6).
    destruct (expand_sound _ _ _ Er) as (_ & _ & _ & _ & _ & Hr6).
    match goal with
    | |- context [distribute ?G ?E] =>
        destruct (distribute_is_Some G E) as [expanded ->]
    end; [by case_decide|]. by eexists.
  - destruct IHl as [[l' lt] ->]; [done|]. destruct IHr as [[r' rt] ->]; [done|].
    by eexists.
  - assert (is_Some (mapM (λ n, erase ∘ fst <$> _expand should_expand n) args))
      as [args' ->]; [|by eexists].
    apply mapM_is_Some.
    induction IH as [|a args Ha _ IHargs]; [constructor|].
    simpl in Hx. apply andb_true_iff in Hx as [Hx1 Hx2].
    constructor; [|by apply IHargs].
    destruct (Ha Hx1) as [[ma ka] Ea]. unfold compose. rewrite Ea. by eexists.
Qed.

Notation marker_of := (marker_of should_expand).
Notation settled := (settled should_expand).
Notation settled_product := (settled_product should_expand).

(** A node of the list returned with a marker. *)
Definition member k e : Prop :=
  settled e = true ∧ marker_of e = k ∧ (k = EXPAND → spread e = false).

(** The invariant of [_expand], on products of any shape. *)
Definition settles m k : Prop :=
  settled (erase m) = true ∧ marker_of (erase m) = k ∧
  Forall (member k) (listed m) ∧ listed m ≠ [].

Lemma member_Prod exp grp k :
  member EXPAND exp → member k grp → member EXPAND (Prod exp grp).
Proof.
  intros (He & Hm & Hs) (Hg & Hmg & Hsg). specialize (Hs eq_refl).
  repeat split; simpl.
  - unfold settled_product.
    rewrite He, Hg, Hm, Hmg, Hs. destruct k; [done|]. by rewrite (Hsg eq_refl).
  - rewrite Hm. by case_decide as Hd; [destruct Hd|].
Qed.

(** What [distribute] keeps. *)
Definition spread_ok m : Prop :=
  settled (erase m) = true ∧ marker_of (erase m) = EXPAND ∧
  Forall (member EXPAND) (listed m).

Lemma spread_ok_MSum a b : spread_ok a → spread_ok b → spread_ok (MSum a b).
Proof.
  intros (Ha1 & Ha2 & Ha3) (Hb1 & Hb2 & Hb3). repeat split; simpl.
  - by rewrite Ha1, Hb1.
  - rewrite Ha2, Hb2. by case_decide as Hd; [|destruct Hd].
  - by apply Forall_app.
Qed.

Lemma marker_both_EXPAND (a b : kind) :
  (if decide (a = EXPAND ∧ b = EXPAND) then EXPAND else GROUP) = EXPAND →
  a = EXPAND ∧ b = EXPAND.
Proof. by case_decide. Qed.

Lemma distribute_spread_ok k groupable m m' :
  Forall (member k) groupable →
  spread_ok m → distribute groupable m = Some m' → spread_ok m'.
Proof.
  intros HG. revert m'.
  induction m as [t|e|c IH|l IHl r IHr|l IHl r negated]; intros m' (Hs & Hm & Hl); simpl.
  - by intros [= <-].
  - apply (ast_make_bal_expr_preserves MSum spread_ok spread_ok_MSum).
    apply Forall_fmap, Forall_forall. intros g Hg. simpl in Hl.
    apply Forall_cons in Hl as [He _].
    rewrite Forall_forall in HG. specialize (HG g Hg).
    pose proof (member_Prod e g k He HG) as (HP1 & HP2 & HP3).
    repeat split; simpl; try done.
    constructor; [by repeat split|constructor].
  - destruct (distribute groupable c) as [c'|] eqn:E; [|done]. intros [= <-].
    by apply (IH c').
  - destruct (distribute groupable l) as [l'|] eqn:El; [|done].
    destruct (distribute groupable r) as [r'|] eqn:Er; [|done]. intros [= <-].
    simpl in Hs, Hm, Hl. apply Forall_app in Hl as [Hl1 Hl2].
    apply andb_true_iff in Hs as [Hs1 Hs2].
    apply marker_both_EXPAND in Hm as [Hm1 Hm2].
    apply spread_ok_MSum; [apply IHl|apply IHr]; by repeat split.
  - destruct (distribute groupable l) as [l'|] eqn:El; [|done]. intros [= <-].
    simpl in Hs, Hm, Hl. apply Forall_app in Hl as [Hl1 Hl2].
    apply andb_true_iff in Hs as [Hs1 Hs2].
    apply marker_both_EXPAND in Hm as [Hm1 Hm2].
    destruct (IHl l') as (Hl'1 & Hl'2 & Hl'3); [by repeat split|done|].
    repeat split; simpl.
    + by rewrite Hl'1, Hs2.
    + rewrite Hl'2, Hm2. by case_decide as Hd; [|destruct Hd].
    + apply Forall_app. split; [done|].
      apply Forall_forall. intros p Hp.
      apply list_elem_of_bind in Hp as (d & Hp & Hd').
      apply list_elem_of_fmap in Hp as (g & -> & Hg).
      rewrite Forall_forall in Hl2, HG. eapply member_Prod; eauto.
Qed.

Lemma settles_group t :
  settled t = true → marker_of t = GROUP → settles (Listed t) GROUP.
Proof.
  intros Hs Hm. repeat split; simpl; try done.
  constructor; [|constructor]. by repeat split.
Qed.

Lemma expand_settles node : ∀ m k, _expand should_expand node = Some (m, k) → settles m k.
Proof.
  induction node as [s r|v|c IH|c IH|l r IHl IHr|l r IHl IHr|l r IHl IHr
                    |l r IHl IHr|f args IH|c t f IHc IHt IHf]
    using expr_nested_ind; intros m k; simpl; try done.
  - (* Symbol *)
    intros [= <- <-]. repeat split; simpl; try done.
    constructor; [|constructor]. by repeat split.
  - (* Par *)
    destruct (_expand should_expand c) as [[c' k']|] eqn:E; [|done].
    intros [= <- <-]. by destruct (IH _ _ eq_refl) as (H1 & H2 & H3 & H4).
  - (* Sum *)
    destruct (_expand should_expand l) as [[l' lt]|] eqn:El; [|done].
    destruct (_expand should_expand r) as [[r' rt]|] eqn:Er; [|done]. simpl.
    destruct (IHl _ _ eq_refl) as (Hl1 & Hl2 & Hl3 & Hl4).
    destruct (IHr _ _ eq_refl) as (Hr1 & Hr2 & Hr3 & Hr4).
    case_decide as Hboth; intros [= <- <-].
    + destruct Hboth as [-> ->]. repeat split; simpl.
      * by rewrite Hl1, Hr1.
      * rewrite Hl2, Hr2. by case_decide as Hd; [|destruct Hd].
      * by apply Forall_app.
      * by intros [? ?]%app_eq_nil.
    + apply settles_group; simpl; [by rewrite Hl1, Hr1|].
      rewrite Hl2, Hr2. by case_decide.
  - (* Sub *)
    destruct (_expand should_expand l) as [[l' lt]|] eqn:El; [|done].
    destruct (_expand should_expand r) as [[r' rt]|] eqn:Er; [|done]. simpl.
    destruct (IHl _ _ eq_refl) as (Hl1 & Hl2 & Hl3 & Hl4).
    destruct (IHr _ _ eq_refl) as (Hr1 & Hr2 & Hr3 & Hr4).
    case_decide as Hboth; intros [= <- <-].
    + destruct Hboth as [-> ->]. repeat split; simpl.
      * by rewrite Hl1, Hr1.
      * rewrite Hl2, Hr2. by case_decide as Hd; [|destruct Hd].
      * apply Forall_app. split; [done|].
        apply Forall_fmap. eapply Forall_impl; [exact Hr3|].
        intros x (Hx & _). by repeat split.
      * by intros [? ?]%app_eq_nil.
    + apply settles_group; simpl; [by rewrite Hl1, Hr1|].
      rewrite Hl2, Hr2. by case_decide.
  - (* Prod *)
    destruct (_expand should_expand l) as [[l' lt]|] eqn:El; [|done].
    destruct (_expand should_expand r) as [[r' rt]|] eqn:Er; [|done]. simpl.
    destruct (IHl _ _ eq_refl) as (Hl1 & Hl2 & Hl3 & Hl4).
    destruct (IHr _ _ eq_refl) as (Hr1 & Hr2 & Hr3 & Hr4).
    case_decide as Hboth.
    + intros [= <- <-]. destruct Hboth as [-> ->].
      apply settles_group; simpl.
      * unfold settled_product.
        by rewrite Hl1, Hr1, Hl2, Hr2.
      * rewrite Hl2, Hr2. by case_decide as Hd; [|destruct Hd].
    + set (groupable := if decide (lt = GROUP) then listed l' else listed r').
      set (expandable := if decide (lt = GROUP) then r' else l').
      destruct (distribute groupable expandable) as [expanded|] eqn:Ed; [|done].
      simpl. intros [= <- <-].
      assert (∃ kg, Forall (member kg) groupable) as [kg HG].
      { unfold groupable. case_decide; [by exists lt|by exists rt]. }
      assert (groupable ≠ []) as HGne by (unfold groupable; by case_decide).
      assert (spread_ok expandable ∧ listed expandable ≠ []) as [HE HEne].
      { unfold expandable. case_decide as Hlt.
        - assert (rt = EXPAND) as -> by (destruct rt; [tauto|done]).
          by repeat split.
        - assert (lt = EXPAND) as -> by (by destruct lt).
          by repeat split. }
      destruct (distribute_spread_ok _ _ _ _ HG HE Ed) as (Hd1 & Hd2 & Hd3).
      pose proof (distribute_listed _ _ _ HGne Ed HEne) as Hne.
      destruct (listed expanded) as [|x xs] eqn:Ex; [done|]. rewrite <- Ex in *.
      by repeat split.
  - (* Div *)
    destruct (_expand should_expand l) as [[l' lt]|] eqn:El; [|done].
    destruct (_expand should_expand r) as [[r' rt]|] eqn:Er; [|done]. simpl.
    destruct (IHl _ _ eq_refl) as (Hl1 & _).
    destruct (IHr _ _ eq_refl) as (Hr1 & _).
    intros [= <- <-]. apply settles_group; simpl; [|done]. by rewrite Hl1, Hr1.
  - (* FunCall *)
    destruct (mapM _ args) as [args'|] eqn:E; [|done]. simpl.
    intros [= <- <-]. apply settles_group; simpl; [|done].
    apply mapM_Some in E. clear -E IH.
    induction E as [|a a' args args' Ha E IHE]; [done|].
    apply Forall_cons in IH as [IHa IH]. simpl.
    destruct (_expand should_expand a) as [[ma ka]|] eqn:Ea; [|done].
    simpl in Ha. injection Ha as <-.
    destruct (IHa _ _ eq_refl) as (Ha1 & _). rewrite Ha1. by apply IHE.
Qed.

(** The marker returned is the one of the tree [_expand] was given. *)
Lemma expand_marker node : ∀ m k,
  _expand should_expand node = Some (m, k) → k = marker_of node.
Proof.
  induction node as [s r|v|c IH|c IH|l r IHl IHr|l r IHl IHr|l r IHl IHr
                    |l r IHl IHr|f args IH|c t f IHc IHt IHf]
    using expr_nested_ind; intros m k; simpl; try done.
  - by intros [= <- <-].
  - destruct (_expand should_expand c) as [[c' k']|] eqn:E; [|done].
    intros [= <- <-]. by eapply IH.
  - destruct (_expand should_expand l) as [[l' lt]|] eqn:El; [|done].
    destruct (_expand should_expand r) as [[r' rt]|] eqn:Er; [|done]. simpl.
    rewrite <- (IHl _ _ eq_refl), <- (IHr _ _ eq_refl).
    by case_decide; intros [= <- <-].
  - destruct (_expand should_expand l) as [[l' lt]|] eqn:El; [|done].
    destruct (_expand should_expand r) as [[r' rt]|] eqn:Er; [|done]. simpl.
    rewrite <- (IHl _ _ eq_refl), <- (IHr _ _ eq_refl).
    by case_decide; intros [= <- <-].
  - destruct (_expand should_expand l) as [[l' lt]|] eqn:El; [|done].
    destruct (_expand should_expand r) as [[r' rt]|] eqn:Er; [|done]. simpl.
    rewrite <- (IHl _ _ eq_refl), <- (IHr _ _ eq_refl).
    case_decide; [by intros [= <- <-]|].
    destruct (distribute _ _); [|done]. simpl. by intros [= <- <-].
  - destruct (_expand should_expand l) as [[l' lt]|] eqn:El; [|done].
    destruct (_expand should_expand r) as [[r' rt]|] eqn:Er; [|done]. simpl.
    by intros [= <- <-].
  - destruct (mapM _ args) as [args'|]; [|done]. simpl. by intros [= <- <-].
Qed.

(** A tree marked [GROUP] that is no parenthesis comes back as one node,
    the only one of its list. *)
Lemma expand_group_listed l l' :
  marker_of l = GROUP → (∀ c, l ≠ Par c) →
  expand should_expand l = Some l' →
  _expand should_expand l = Some (Listed l', GROUP).
Proof.
  unfold expand. intros Hm Hpar.
  destruct (_expand should_expand l) as [[m k]|] eqn:E; [|done]. simpl.
  intros [= <-]. pose proof (expand_marker _ _ _ E) as Hk. rewrite Hm in Hk. subst k.
  destruct l as [s r|v|c|c|a b|a b|a b|a b|f args|c t f]; simpl in E; try done.
  - by injection E as <-.
  - by destruct (Hpar c).
  - destruct (_expand should_expand a) as [[a' ka]|]; [|done].
    destruct (_expand should_expand b) as [[b' kb]|]; [|done]. simpl in E.
    case_decide; [done|]. by injection E as <-.
  - destruct (_expand should_expand a) as [[a' ka]|]; [|done].
    destruct (_expand should_expand b) as [[b' kb]|]; [|done]. simpl in E.
    case_decide; [done|]. by injection E as <-.
  - destruct (_expand should_expand a) as [[a' ka]|]; [|done].
    destruct (_expand should_expand b) as [[b' kb]|]; [|done]. simpl in E.
    case_decide; [by injection E as <-|].
    destruct (distribute _ _); [|done]. done.
  - destruct (_expand should_expand a) as [[a' ka]|]; [|done].
    destruct (_expand should_expand b) as [[b' kb]|]; [|done]. simpl in E.
    by injection E as <-.
  - destruct (mapM _ args); [|done]. simpl in E. by injection E as <-.
Qed.

(** Once [expand] has run (without aggregation), every product of the tree
    is settled, and the rewritten tree keeps the marker of the original;
    [expand] runs to its end on every tree made of symbols, parentheses,
    calls and the four binary operators; a product of a symbol [g] that
    satisfies [should_expand] by an operand marked [GROUP] that is no
    parenthesis is kept, as [Prod(g, operand)], whichever side [g] stood
    on. *)
Lemma expand_settles_every_product :
  (∀ rv rv', expand should_expand rv = Some rv' →
     settled rv' = true ∧ marker_of rv' = marker_of rv) ∧
  (∀ rv, expandable_tree rv = true → is_Some (expand should_expand rv)) ∧
  (∀ g l l', is_Symbol g = true → should_expand g = true →
     marker_of l = GROUP → (∀ c, l ≠ Par c) →
     expand should_expand l = Some l' →
     expand should_expand (Prod l g) = Some (Prod g l') ∧
     expand should_expand (Prod g l) = Some (Prod g l')).
Proof.
  split; [|split].
  - intros rv rv'. unfold expand.
    destruct (_expand should_expand rv) as [[m k]|] eqn:E; [|done].
    intros [= <-]. destruct (expand_settles _ _ _ E) as (Hs & Hm & _).
    split; [done|]. by rewrite Hm, (expand_marker _ _ _ E).
  - intros rv Hx. unfold expand.
    destruct (expand_returns _ Hx) as [[m k] ->]. by eexists.
  - intros g l l' Hsym Hg Hm Hpar Hl.
    pose proof (expand_group_listed _ _ Hm Hpar Hl) as El.
    destruct g as [s r| | | | | | | | |]; try done.
    unfold expand. cbn [_expand]. rewrite El, Hg. by split.
Qed.
End Facts.

Section Statement.
Context {num Decl Loop Place Tree : Type} `{Countable num}.
Context (should_expand : expr num → bool).
Context (repr : expr num → string).
Context (loop_dim : Loop → string).
Context (place_has : Tree → Place → Loop → bool).
Context (body_append : Loop → ExpressionExtractor.writer num → Tree → option Tree).
Context (insert_at_elem : Place → Decl → Decl → Tree → Tree).
Context (renamed_decl : Decl → string → Decl).
Context (replace_and_remove : expr num * expr num → expr num →
                              ExpressionExtractor.writer num →
                              ExpressionExtractor.writer num).
Notation expander := (@Aggregation.expander num Decl Loop Place Tree _ _).
Notation _hoist :=
  (Aggregation._hoist should_expand repr loop_dim place_has body_append
     insert_at_elem renamed_decl).
Notation aggregate :=
  (Aggregation.aggregate should_expand repr loop_dim place_has body_append
     insert_at_elem renamed_decl replace_and_remove).
Notation expand_statement :=
  (Aggregation.expand_statement should_expand repr loop_dim place_has body_append
     insert_at_elem renamed_decl replace_and_remove).

(** No symbol of [exp] is a hoisted temporary that [should_expand] selects:
    [_hoist] has nothing to aggregate [exp] with. *)
Definition nothing_hoisted (self : expander) (exp : expr num) : Prop :=
  Forall (λ s, Aggregation.hoisted_name self s = None ∨ should_expand s = false)
    (find_symbols exp).

Lemma hoist_nothing (self : expander) exp grp info :
  nothing_hoisted self exp → _hoist exp grp info self = Some (None, self).
Proof.
  intros Hno. unfold Aggregation._hoist, bind, get.
  assert (filter (λ s, is_Some (Aggregation.hoisted_name self s) ∧ should_expand s = true)
            (find_symbols exp) = []) as ->; [|done].
  unfold nothing_hoisted in Hno.
  induction (find_symbols exp) as [|s l IH]; [done|].
  apply Forall_cons in Hno as [Hs Hl]. rewrite filter_cons_False; [by apply IH|].
  intros [[name Hname] Hse]. destruct Hs; congruence.
Qed.

Lemma aggregate_nothing (self : expander) info expansions stmt :
  Forall (λ e, nothing_hoisted self e.1) expansions →
  aggregate info expansions stmt self = Some (stmt, self).
Proof.
  induction expansions as [|[exp grp] others IH]; [done|].
  intros [Hexp Hothers]%Forall_cons. cbn [Aggregation.aggregate]. unfold bind at 1.
  rewrite (hoist_nothing _ _ _ _ Hexp). by apply IH.
Qed.

(** C3 (as amended): once [expand] has run, every product of the tree is
    settled: no operand marked [EXPAND] is a sum, a difference or a
    parenthesis, and no operand marked [GROUP] stands on the left of one
    marked [EXPAND]; markers are the ones [_expand] assigns, and the
    rewritten tree keeps the marker of the original.  [expand] runs to its
    end on every tree made of symbols, parentheses, calls and the four binary
    operators.  A product of a symbol [g] that satisfies [should_expand] by
    an operand marked [GROUP] that is no parenthesis, a sum of symbols that
    do not satisfy it for one, is kept, as [Prod(g, operand)], whichever side
    [g] stood on.  The statement is left with that tree when
    [not_aggregate] is set, and also when it is not, as long as no expansion
    holds a hoisted temporary that [should_expand] selects. *)
Theorem expand_leaves_no_undistributed_product :
  (∀ rv rv', expand should_expand rv = Some rv' →
     settled should_expand rv' = true ∧
     marker_of should_expand rv' = marker_of should_expand rv) ∧
  (∀ rv, expandable_tree rv = true → is_Some (expand should_expand rv)) ∧
  (∀ g l l', is_Symbol g = true → should_expand g = true →
     marker_of should_expand l = GROUP → (∀ c, l ≠ Par c) →
     expand should_expand l = Some l' →
     expand should_expand (Prod l g) = Some (Prod g l') ∧
     expand should_expand (Prod g l) = Some (Prod g l')) ∧
  (∀ info expansions stmt rv' (self : expander),
     expand should_expand (ExpressionExtractor.rvalue stmt) = Some rv' →
     let stmt' :=
       ExpressionExtractor.Writer (ExpressionExtractor.kind stmt)
         (ExpressionExtractor.lvalue stmt) rv' in
     expand_statement true info expansions stmt self = Some (stmt', self) ∧
     (Forall (λ e, nothing_hoisted self e.1) expansions →
      expand_statement false info expansions stmt self = Some (stmt', self))).
Proof.
  destruct (expand_settles_every_product should_expand) as (H1 & H2 & H3).
  split; [exact H1|]. split; [exact H2|]. split; [exact H3|].
  intros info expansions stmt rv' self Hrv stmt'.
  unfold Aggregation.expand_statement. rewrite Hrv. split; [done|].
  intros Hno. by apply aggregate_nothing.
Qed.
End Statement.

(** [(X[i] + Y[i]) * Z[j]] along [i] and along [j]; along [j] the one
    expansion is [Z[j] * (X[i] + Y[i])], and [Z] is no hoisted temporary. *)
Lemma expand_leaves_no_undistributed_product_witness :
  (settled (num:=Q) (rank_includes ["i"])
     (Sum (Prod (sym "X" ["i"]) (sym "Z" ["j"])) (Prod (sym "Y" ["i"]) (sym "Z" ["j"])))
   = true
   ∧ marker_of (num:=Q) (rank_includes ["i"])
       (Sum (Prod (sym "X" ["i"]) (sym "Z" ["j"]))
          (Prod (sym "Y" ["i"]) (sym "Z" ["j"])))
     = marker_of (rank_includes ["i"]) sum_times_Z)
  ∧ is_Some (expand (rank_includes ["i"]) sum_times_Z)
  ∧ (expand (rank_includes ["j"])
       (Prod (Sum (sym "X" ["i"]) (sym "Y" ["i"])) (sym (num:=Q) "Z" ["j"]))
     = Some (Prod (sym "Z" ["j"]) (Sum (sym "X" ["i"]) (sym "Y" ["i"])))
     ∧ expand (rank_includes ["j"])
         (Prod (sym (num:=Q) "Z" ["j"]) (Sum (sym "X" ["i"]) (sym "Y" ["i"])))
       = Some (Prod (sym "Z" ["j"]) (Sum (sym "X" ["i"]) (sym "Y" ["i"]))))
  ∧ (Aggregation.expand_statement (rank_includes ["j"]) print_name id header_has
       (λ _ _ t, Some t) (λ _ _ _ t, t) (λ d _, d) (λ _ _ w, w)
       true info_F [(sym "Z" ["j"], Sum (sym "X" ["i"]) (sym "Y" ["i"]))]
       (ExpressionExtractor.Writer ExpressionExtractor.Incr (sym "A" ["i"; "j"])
          sum_times_Z) expander_Y
     = Some (ExpressionExtractor.Writer ExpressionExtractor.Incr (sym "A" ["i"; "j"])
               (Prod (sym "Z" ["j"]) (Sum (sym "X" ["i"]) (sym "Y" ["i"]))),
             expander_Y)
     ∧ Aggregation.expand_statement (rank_includes ["j"]) print_name id header_has
         (λ _ _ t, Some t) (λ _ _ _ t, t) (λ d _, d) (λ _ _ w, w)
         false info_F [(sym "Z" ["j"], Sum (sym "X" ["i"]) (sym "Y" ["i"]))]
         (ExpressionExtractor.Writer ExpressionExtractor.Incr (sym "A" ["i"; "j"])
            sum_times_Z) expander_Y
       = Some (ExpressionExtractor.Writer ExpressionExtractor.Incr (sym "A" ["i"; "j"])
                 (Prod (sym "Z" ["j"]) (Sum (sym "X" ["i"]) (sym "Y" ["i"]))),
               expander_Y)).
Proof.
  pose proof (expand_leaves_no_undistributed_product (Decl:=unit) (Loop:=string)
                (Place:=unit) (Tree:=unit) (rank_includes ["i"]) print_name id header_has
                (λ _ _ t, Some t) (λ _ _ _ t, t) (λ d _, d) (λ _ _ w, w))
    as (Hi1 & Hi2 & _).
  pose proof (expand_leaves_no_undistributed_product (Decl:=unit) (Loop:=string)
                (Place:=unit) (Tree:=unit) (rank_includes ["j"]) print_name id header_has
                (λ _ _ t, Some t) (λ _ _ _ t, t) (λ d _, d) (λ _ _ w, w))
    as (_ & _ & Hj3 & Hj4).
  split; [exact (Hi1 sum_times_Z _ eq_refl)|].
  split; [exact (Hi2 sum_times_Z eq_refl)|].
  split.
  - apply (Hj3 (sym "Z" ["j"]) (Sum (sym "X" ["i"]) (sym "Y" ["i"]))
             (Sum (sym "X" ["i"]) (sym "Y" ["i"]))); try reflexivity.
    by intros c.
  - destruct (Hj4 info_F [(sym "Z" ["j"], Sum (sym "X" ["i"]) (sym "Y" ["i"]))]
                (ExpressionExtractor.Writer ExpressionExtractor.Incr (sym "A" ["i"; "j"])
                   sum_times_Z)
                (Prod (sym "Z" ["j"]) (Sum (sym "X" ["i"]) (sym "Y" ["i"])))
                expander_Y eq_refl) as [Htrue Hfalse].
    split; [exact Htrue|]. apply Hfalse.
    repeat constructor.
Defined.

(** Scenario 2 of the spec: expanding [(X[i] + Y[i]) * Z[j]] along [i]. *)
Example expand_along_i :
  expand (rank_includes ["i"]) sum_times_Z
  = Some (Sum (Prod (sym "X" ["i"]) (sym "Z" ["j"])) (Prod (sym "Y" ["i"]) (sym "Z" ["j"]))).
Proof. reflexivity. Qed.

(** C3 fails as stated: along [j], [should_expand] holds of [Z[j]] and of
    neither term of the sum; the expansion leaves [Z[j] * (X[i] + Y[i])],
    a product of a symbol that satisfies [should_expand] by a sum. *)
Lemma expand_keeps_sum_times_expandable :
  expand (rank_includes ["j"]) sum_times_Z
  = Some (Prod (sym "Z" ["j"]) (Sum (sym "X" ["i"]) (sym "Y" ["i"]))) ∧
  sum_times_expandable (num:=Q) (rank_includes ["j"])
    (Prod (sym "Z" ["j"]) (Sum (sym "X" ["i"]) (sym "Y" ["i"]))) = true.
Proof. split; reflexivity. Qed.
End ExpressionExpanderFacts.

Module AggregationFacts.
Import ExpressionGraph ExpressionExtractor ExpressionRewriter Aggregation.

Section GraphFacts.
Context {num : Type} `{Countable num}.

Lemma is_read_add_dependency lhs rhs (g : digraph num) s :
  is_read g s = true → is_read (add_dependency lhs rhs g) s = true.
Proof.
  unfold is_read. intros Hr. apply bool_decide_eq_true in Hr.
  apply bool_decide_eq_true. destruct Hr as (e & He & Hs).
  exists e. split; [|done]. simpl. set_solver.
Qed.

Lemma is_read_add_dependency_symbol lhs rhs (g : digraph num) s :
  s ∈ symbols_of rhs → is_read (add_dependency lhs rhs g) s = true.
Proof.
  intros Hs. apply bool_decide_eq_true. exists (lhs, s). split; [|done].
  simpl. set_solver.
Qed.
End GraphFacts.

Section Facts.
Context {num Decl Loop Place Tree : Type} `{Countable num}.
Context (should_expand : expr num → bool).
Context (repr : expr num → string).
Context (loop_dim : Loop → string).
Context (place_has : Tree → Place → Loop → bool).
Context (body_append : Loop → writer num → Tree → option Tree).
Context (insert_at_elem : Place → Decl → Decl → Tree → Tree).
Context (renamed_decl : Decl → string → Decl).
Notation expander := (@expander num Decl Loop Place Tree _ _).
Notation hoisted_info := (@hoisted_info num Decl Loop Place).
Notation hoist := (_hoist should_expand repr loop_dim place_has body_append
                     insert_at_elem renamed_decl).
Implicit Types (self : expander) (grp : expr num) (name : string) (h : hoisted_info).

(** The state [invalidate] leaves. *)
Definition without_stale (exp : expr num) self : expander :=
  {| hoisted := hoisted self; expr_graph := expr_graph self;
     expanded_decls := expanded_decls self;
     cache_map := filter (λ kv, repr kv.2 ≠ repr exp) (cache_map self);
     cache_hits := cache_hits self; expr_id := expr_id self; loops := loops self;
     tree := tree self |}.

(** No entry of the cache whose value prints as [exp] has been hit. *)
Definition no_stale_hit (exp : expr num) self : Prop :=
  ∀ key c, cache_map self !! key = Some c → repr c = repr exp →
           default 0 (cache_hits self !! key) = 0.

Lemma invalidate_no_stale_hit exp self :
  no_stale_hit exp self →
  invalidate repr exp self = Some (false, without_stale exp self).
Proof.
  intros Hno. unfold invalidate, bind, get, modify, ret. simpl. f_equal. f_equal.
  apply bool_decide_eq_false. intros (key & Hkey & Hhit).
  apply elem_of_dom in Hkey as [c Hc]. apply map_lookup_filter_Some in Hc as [Hc Hrepr].
  simpl in Hrepr. rewrite (Hno key c Hc Hrepr) in Hhit. lia.
Qed.

(** C6 (as amended): for an expansion [Prod(exp, grp)] in which [exp] is a
    hoisted temporary that [should_expand] selects, in a reachable state of
    the expander (every cached expansion belongs to a symbol recorded as
    read): when no symbol of [grp] depends on a loop of the nest from the
    innermost one up to the one that stands in the block the temporary was
    placed in, the graph records no read of the temporary and no cached
    expansion that prints as [exp] has been hit, [_hoist] returns
    [{exp: exp}]; the right-hand side of the defining statement of the
    temporary has become [Prod(old_rvalue, grp)], the graph has an edge from
    the temporary to every symbol of [grp], and the registry and the new
    declarations hold the same names as before. *)
Theorem hoist_expands_in_place self name rank h grp info :
  cache_consistent repr self →
  hoisted self !! name = Some h →
  should_expand (Symbol (SStr name) rank) = true →
  grp_is_hoistable loop_dim place_has info (symbol_names grp) (h_place h) self
    (reverse (loops self)) = Some true →
  is_read (expr_graph self) (SStr name) = false →
  no_stale_hit (Symbol (SStr name) rank) self →
  ∃ self',
    hoist (Symbol (SStr name) rank) grp info self
    = Some (Some (Symbol (SStr name) rank, Symbol (SStr name) rank), self') ∧
    (rvalue ∘ h_stmt <$> hoisted self' !! name) = Some (Prod (rvalue (h_stmt h)) grp) ∧
    (∀ s, s ∈ symbols_of grp → has_edge (expr_graph self') (SStr name) s = true) ∧
    dom (hoisted self') = dom (hoisted self) ∧
    (∀ other, other ≠ name → hoisted self' !! other = hoisted self !! other) ∧
    expanded_decls self' = expanded_decls self ∧
    tree self' = tree self.
Proof.
  intros Hcons Hh Hse Hgrp Hread Hstale.
  set (exp := Symbol (SStr name) rank).
  exists (expand_in_place name h grp (without_stale exp self)).
  split.
  - unfold _hoist. unfold bind at 1. unfold get at 1. cbv beta iota.
    assert (hoisted_name self exp = Some name) as Hname.
    { simpl. case_decide as Hd; [done|]. exfalso. apply Hd, elem_of_dom. by eexists. }
    change (find_symbols exp) with [exp].
    rewrite filter_cons_True; [|split; [by rewrite Hname|done]].
    unfold exp at 1. cbv beta iota.
    assert (cache_map self !! (repr exp, repr grp) = None) as Hmiss.
    { destruct (cache_map self !! (repr exp, repr grp)) as [c|] eqn:Ec; [|done].
      rewrite (Hcons _ _ Ec name rank grp eq_refl) in Hread. done. }
    unfold bind at 1. unfold retrieve. unfold bind at 1. unfold get at 1.
    rewrite Hmiss. simpl. rewrite Hh, Hgrp, Hread.
    unfold bind at 1. unfold bind at 1.
    rewrite (invalidate_no_stale_hit exp self Hstale). simpl.
    reflexivity.
  - simpl. rewrite lookup_insert_eq. simpl. split; [done|].
    split; [|split; [|split; [|done]]].
    + intros s Hs. unfold has_edge. apply bool_decide_eq_true. simpl.
      apply elem_of_union_l, elem_of_union_l, elem_of_map. by exists s.
    + rewrite dom_insert_L. apply elem_of_dom_2 in Hh.
      apply set_eq. intros x. rewrite elem_of_union, elem_of_singleton.
      split; [by intros [->|?]|auto].
    + intros other Hother. by rewrite lookup_insert_ne.
Qed.

Lemma bind_inv {S A B} (m : M S A) (k : A → M S B) s b s' :
  bind m k s = Some (b, s') → ∃ a s1, m s = Some (a, s1) ∧ k a s1 = Some (b, s').
Proof. unfold bind. destruct (m s) as [[a s1]|]; [|done]. by exists a, s1. Qed.

(** [no_more_cached self s1]: from [self] to [s1] the cache got no new
    entry and the graph lost no reader. *)
Definition no_more_cached self (s1 : expander) : Prop :=
  (∀ key c, cache_map s1 !! key = Some c → cache_map self !! key = Some c) ∧
  (∀ s, is_read (expr_graph self) s = true → is_read (expr_graph s1) s = true) ∧
  hoisted s1 = hoisted self ∧ loops s1 = loops self.

Lemma no_more_cached_consistent self (s1 : expander) :
  cache_consistent repr self → no_more_cached self s1 → cache_consistent repr s1.
Proof.
  intros Hcons (Hmap & Hread & _) key c Hc name rank grp Hkey.
  apply Hread. eapply Hcons; eauto.
Qed.

Lemma retrieve_no_more_cached key self c (s1 : expander) :
  retrieve key self = Some (c, s1) → no_more_cached self s1.
Proof.
  unfold retrieve, bind, get, modify, ret. simpl.
  destruct (cache_map self !! key); intros [= <- <-]; by repeat split.
Qed.

Lemma invalidate_no_more_cached exp self b (s1 : expander) :
  invalidate repr exp self = Some (b, s1) → no_more_cached self s1.
Proof.
  unfold invalidate, bind, get, modify, ret. simpl. intros [= <- <-].
  repeat split; simpl; try done.
  intros key c Hc. by apply map_lookup_filter_Some in Hc as [Hc _].
Qed.

Lemma expand_as_new_consistent name rank h grp self e (s1 : expander) :
  (∀ a ra b rb, repr (Symbol a ra) = repr (Symbol b rb) → a = b) →
  cache_consistent repr self →
  expand_as_new body_append insert_at_elem renamed_decl name rank h grp
    (repr (Symbol (SStr name) rank), repr grp) self = Some (e, s1) →
  cache_consistent repr s1.
Proof.
  intros Hinj Hcons. unfold expand_as_new, bind, get, modify, ret, raise. simpl.
  destruct (body_append _ _ _) as [tree1|]; [|done]. intros [= <- <-].
  intros key c Hc name' rank' grp' Hkey. simpl in *.
  destruct (decide (key = (repr (Symbol (SStr name) rank), repr grp))) as [Heq|Hne].
  - rewrite Heq in Hkey. injection Hkey as Hname _.
    apply Hinj in Hname. injection Hname as <-.
    apply is_read_add_dependency_symbol. simpl.
    by apply elem_of_union_l, elem_of_singleton.
  - rewrite lookup_insert_ne in Hc by done.
    apply is_read_add_dependency. eapply Hcons; eauto.
Qed.

(** The hypothesis of C6 on the cache holds in every state the expander
    reaches: it holds of an empty cache and every call of [_hoist] keeps it,
    as long as [str] tells the names of two symbols apart. *)
Lemma hoist_keeps_cache_consistent self left grp info r (self' : expander) :
  (∀ a ra b rb, repr (Symbol a ra) = repr (Symbol b rb) → a = b) →
  cache_consistent repr self →
  hoist left grp info self = Some (r, self') →
  cache_consistent repr self'.
Proof.
  intros Hinj Hcons Hrun. unfold _hoist in Hrun.
  apply bind_inv in Hrun as (self0 & s0 & [= <- <-] & Hrun).
  destruct (filter _ (find_symbols left)) as [|[[name|v] rank| | | | | | | | |] rest];
    try (by injection Hrun as <- <-).
  apply bind_inv in Hrun as (cached & s1 & Hret & Hrun).
  pose proof (retrieve_no_more_cached _ _ _ _ Hret) as Hs1.
  pose proof (no_more_cached_consistent _ _ Hcons Hs1) as Hcons1.
  destruct cached as [c|]; [by injection Hrun as <- <-|].
  destruct (hoisted self !! name) as [h|]; [|done].
  destruct (grp_is_hoistable _ _ _ _ _ _ _) as [[|]|]; [|by injection Hrun as <- <-|done].
  apply bind_inv in Hrun as (in_place & s2 & Hin & Hrun).
  assert (cache_consistent repr s2) as Hcons2.
  { destruct (is_read _ _).
    - by injection Hin as <- <-.
    - apply bind_inv in Hin as (was_hit & s2' & Hinv & [= <- <-]).
      eapply no_more_cached_consistent; [exact Hcons1|].
      by eapply invalidate_no_more_cached. }
  destruct in_place.
  - apply bind_inv in Hrun as ([] & s3 & [= <-] & [= <- <-]).
    intros key c Hc name' rank' grp' Hkey. simpl in *.
    apply is_read_add_dependency. eapply Hcons2; eauto.
  - apply bind_inv in Hrun as (e & s3 & Hnew & [= <- <-]).
    by eapply expand_as_new_consistent.
Qed.
End Facts.

Import Examples.

Lemma hoist_expands_in_place_witness :
  ∃ self',
    _hoist (rank_includes ["j"]) print_name id header_has
      (λ _ _ t, Some t) (λ _ _ _ t, t) (λ d _, d) Y_j F_const info_F expander_Y
    = Some (Some (Y_j, Y_j), self') ∧
    (rvalue ∘ h_stmt <$> hoisted self' !! "Y")
    = Some (Prod (rvalue (h_stmt Y_info)) F_const) ∧
    (∀ s, s ∈ symbols_of F_const → has_edge (expr_graph self') (SStr "Y") s = true) ∧
    dom (hoisted self') = dom (hoisted expander_Y) ∧
    (∀ other, other ≠ "Y" → hoisted self' !! other = hoisted expander_Y !! other) ∧
    expanded_decls self' = expanded_decls expander_Y ∧
    tree self' = tree expander_Y.
Proof.
  apply (hoist_expands_in_place (rank_includes ["j"]) print_name id header_has
           (λ _ _ t, Some t) (λ _ _ _ t, t) (λ d _, d)
           expander_Y "Y" ["j"] Y_info F_const info_F).
  - intros key c Hc. simpl in Hc. by rewrite lookup_empty in Hc.
  - reflexivity.
  - reflexivity.
  - reflexivity.
  - by vm_compute.
  - intros key c Hc. simpl in Hc. by rewrite lookup_empty in Hc.
Defined.

(** C6 fails as stated: [Y[j]] was placed in the header, which no loop
    encloses, so [X[i]] depends on no loop enclosing the placement; the graph
    records no read of [Y] and the cache is empty.  [_hoist] nevertheless
    returns [{}] on [Y[j] * X[i]] and changes nothing, as [X] depends on the
    loop [i] of the nest. *)
Lemma hoist_refuses_loop_dependent_grp :
  enclosing_loops header_has (h_place Y_info) expander_Y (reverse (loops expander_Y)) = [] ∧
  is_read (expr_graph expander_Y) (SStr "Y") = false ∧
  cache_map expander_Y = ∅ ∧
  _hoist (rank_includes ["j"]) print_name id header_has
    (λ _ _ t, Some t) (λ _ _ _ t, t) (λ d _, d) Y_j X_i info_F expander_Y
  = Some (None, expander_Y).
Proof.
  split; [reflexivity|]. split; [by vm_compute|]. split; [reflexivity|].
  by vm_compute.
Qed.
End AggregationFacts.

Module UtilsFacts.
Import Utils.

(** A point of one of the iteration spaces. *)
Definition covered (x : Z) (l : list (Z * Z)) : Prop :=
  ∃ p, p ∈ l ∧ (p.1 ≤ x ≤ p.2)%Z.

Lemma covered_nil x : covered x [] ↔ False.
Proof. split; [|done]. intros (p & Hp & _). by apply elem_of_nil in Hp. Qed.

Lemma covered_cons x p l : covered x (p :: l) ↔ (p.1 ≤ x ≤ p.2)%Z ∨ covered x l.
Proof.
  split.
  - intros (q & Hq & Hx). apply elem_of_cons in Hq as [->|Hq]; [by left|].
    right. by exists q.
  - intros [Hx|(q & Hq & Hx)]; [exists p|exists q]; split; try done.
    + apply elem_of_cons; by left.
    + apply elem_of_cons; by right.
Qed.

Lemma covered_app x l1 l2 : covered x (l1 ++ l2) ↔ covered x l1 ∨ covered x l2.
Proof.
  split.
  - intros (q & Hq & Hx). apply elem_of_app in Hq as [Hq|Hq]; [left|right]; by exists q.
  - intros [(q & Hq & Hx)|(q & Hq & Hx)]; exists q; split; try done;
      apply elem_of_app; auto.
Qed.

Lemma pair_leb_total a b : pair_leb a b = true ∨ pair_leb b a = true.
Proof.
  unfold pair_leb. destruct a as [a1 a2], b as [b1 b2]; simpl.
  destruct (Z.ltb_spec a1 b1), (Z.ltb_spec b1 a1), (Z.eqb_spec a1 b1),
    (Z.eqb_spec b1 a1), (Z.leb_spec a2 b2), (Z.leb_spec b2 a2); simpl; auto; lia.
Qed.

Lemma pair_leb_fst a b : pair_leb a b = true → (a.1 ≤ b.1)%Z.
Proof.
  unfold pair_leb. destruct (Z.ltb_spec a.1 b.1), (Z.eqb_spec a.1 b.1); simpl; try done; lia.
Qed.

(** The first entries never decrease along a list in order. *)
Fixpoint starts_from (lo : Z) (l : list (Z * Z)) : Prop :=
  match l with
  | [] => True
  | p :: l' => (lo ≤ p.1)%Z ∧ starts_from p.1 l'
  end.

Lemma starts_from_weaken lo lo' l : (lo' ≤ lo)%Z → starts_from lo l → starts_from lo' l.
Proof. destruct l as [|p l]; [done|]. simpl. intros ? [? ?]. split; [lia|done]. Qed.

Lemma in_order_starts_from l :
  ExpressionRewriterFacts.in_order pair_leb id l →
  match l with [] => True | p :: _ => starts_from p.1 l end.
Proof.
  induction l as [|p l IH]; [done|]. intros Hl. simpl. split; [lia|].
  destruct l as [|q l]; [done|]. destruct Hl as [Hpq Hl].
  specialize (IH Hl). simpl in IH. destruct IH as [_ IH]. simpl.
  split; [|done]. by apply pair_leb_fst in Hpq.
Qed.

Lemma insert_by_key_elem_of {A K} (leb : K → K → bool) (key : A → K) x y l :
  y ∈ insert_by_key leb key x l ↔ y = x ∨ y ∈ l.
Proof.
  induction l as [|z l IH]; simpl.
  - rewrite list_elem_of_singleton, elem_of_nil. tauto.
  - destruct (leb _ _); rewrite !elem_of_cons; [tauto|]. rewrite IH. tauto.
Qed.

Lemma sorted_elem_of {A K} (leb : K → K → bool) (key : A → K) y l :
  y ∈ sorted leb key l ↔ y ∈ l.
Proof.
  induction l as [|x l IH]; [done|]. unfold sorted in *. simpl.
  rewrite insert_by_key_elem_of, IH, elem_of_cons. tauto.
Qed.

Lemma merge_from_covered x its : ∀ merged current,
  starts_from current.1 its →
  covered x (merge_from merged current its) ↔
  covered x merged ∨ (current.1 ≤ x ≤ current.2)%Z ∨ covered x its.
Proof.
  induction its as [|[start stop] rest IH]; intros merged current Hs; simpl.
  - rewrite covered_app, covered_cons, !covered_nil. tauto.
  - simpl in Hs. destruct Hs as [Hle Hs].
    rewrite Z.gtb_ltb. destruct (Z.ltb_spec current.2 (start - 1)).
    + rewrite IH by done. rewrite covered_app, !covered_cons, covered_nil. simpl. tauto.
    + rewrite IH by (simpl; eapply starts_from_weaken; [|done]; lia).
      rewrite covered_cons. simpl. split.
      * intros [?|[?|?]]; auto. destruct (decide (x ≤ current.2)%Z); [right; left; lia|].
        right; right; left; lia.
      * intros [?|[?|[?|?]]]; auto; right; left; lia.
Qed.


(** Iteration spaces with a start that does not exceed the end, and lists of
    them in which each one ends at least two points before the next starts. *)
Definition well_formed (p : Z * Z) : Prop := (p.1 ≤ p.2)%Z.

Fixpoint separated (l : list (Z * Z)) : Prop :=
  match l with
  | p :: (q :: _) as l' => (p.2 + 1 < q.1)%Z ∧ separated l'
  | _ => True
  end.

Lemma separated_snoc l p q :
  separated (l ++ [p]) → (p.2 + 1 < q.1)%Z → separated ((l ++ [p]) ++ [q]).
Proof.
  induction l as [|a l IH]; simpl; [done|].
  destruct l as [|b l]; simpl in *; [tauto|]. intros [? ?] ?. split; [done|]. by apply IH.
Qed.

Lemma separated_last_change l p e :
  separated (l ++ [p]) → separated (l ++ [(p.1, e)]).
Proof.
  induction l as [|a l IH]; simpl; [done|].
  destruct l as [|b l]; simpl in *; [tauto|]. intros [? ?]. split; [done|]. by apply IH.
Qed.

Lemma merge_from_separated its : ∀ merged current,
  separated (merged ++ [current]) → Forall well_formed (merged ++ [current]) →
  Forall well_formed its →
  separated (merge_from merged current its)
  ∧ Forall well_formed (merge_from merged current its).
Proof.
  induction its as [|[start stop] rest IH]; intros merged current Hsep Hwf Hits; simpl.
  - done.
  - apply Forall_cons in Hits as [Hp Hits]. unfold well_formed in Hp. simpl in Hp.
    rewrite Z.gtb_ltb. destruct (Z.ltb_spec current.2 (start - 1)).
    + apply IH; [|by apply Forall_app; split; [|repeat constructor]|done].
      apply separated_snoc; [done|]. simpl. lia.
    + apply Forall_app in Hwf as [Hwf Hc]. apply Forall_cons in Hc as [Hc _].
      unfold well_formed in Hc. apply IH; [|apply Forall_app; split; [done|]|done].
      * by apply (separated_last_change merged current).
      * repeat constructor. unfold well_formed. simpl. lia.
Qed.

(** X2: on iteration spaces with start <= end, no two merged iteration spaces
    touch or overlap, and they come in increasing order. *)
Theorem itspace_merge_separated (itspaces merged : list (Z * Z)) :
  Forall well_formed itspaces →
  itspace_merge itspaces = Some merged →
  separated merged ∧ Forall well_formed merged.
Proof.
  unfold itspace_merge. intros Hwf.
  assert (Hs : Forall well_formed (sorted pair_leb id (remove_dups itspaces))).
  { apply Forall_forall. intros p Hp. rewrite sorted_elem_of, elem_of_remove_dups in Hp.
    by apply (proj1 (Forall_forall _ _) Hwf). }
  destruct (sorted pair_leb id (remove_dups itspaces)) as [|current its]; [done|].
  intros [= <-]. apply (merge_from_separated (current :: its) [] current); [done| |done].
  apply Forall_cons in Hs as [? _]. by repeat constructor.
Qed.

Lemma itspace_merge_separated_witness :
  Forall well_formed [(1, 3); (5, 6); (4, 4); (9, 12); (1, 3)]%Z
  ∧ itspace_merge [(1, 3); (5, 6); (4, 4); (9, 12); (1, 3)]%Z = Some [(1, 6); (9, 12)]%Z
  ∧ separated [(1, 6); (9, 12)]%Z ∧ Forall well_formed [(1, 6); (9, 12)]%Z.
Proof.
  assert (Hwf : Forall well_formed [(1, 3); (5, 6); (4, 4); (9, 12); (1, 3)]%Z).
  { repeat constructor; unfold well_formed; simpl; lia. }
  split; [exact Hwf|]. split; [reflexivity|].
  exact (itspace_merge_separated _ _ Hwf eq_refl).
Defined.

Lemma merge_from_fixed its : ∀ merged current,
  separated (current :: its) →
  merge_from merged current its = merged ++ current :: its.
Proof.
  induction its as [|[start stop] rest IH]; intros merged current Hsep; [done|].
  simpl in *. destruct Hsep as [Hlt Hsep].
  rewrite Z.gtb_ltb. destruct (Z.ltb_spec current.2 (start - 1)); [|lia].
  rewrite IH by done. by rewrite <- app_assoc.
Qed.

Lemma separated_in_order l :
  Forall well_formed l → separated l → ExpressionRewriterFacts.in_order pair_leb id l.
Proof.
  induction l as [|p l IH]; [done|]. intros Hwf Hsep.
  destruct l as [|q l]; [done|]. destruct Hsep as [Hlt Hsep].
  apply Forall_cons in Hwf as [Hp Hwf]. split; [|by apply IH].
  unfold pair_leb, id, well_formed in *.
  destruct (Z.ltb_spec p.1 q.1); [done|lia].
Qed.

Lemma separated_starts_after l : ∀ p,
  Forall well_formed (p :: l) → separated (p :: l) → Forall (λ q, (p.1 < q.1)%Z) l.
Proof.
  induction l as [|q l IH]; intros p Hwf Hsep; [done|].
  destruct Hsep as [Hlt Hsep]. apply Forall_cons in Hwf as [Hp Hwf].
  pose proof Hwf as Hwf'. apply Forall_cons in Hwf' as [Hq _].
  unfold well_formed in *. constructor; [lia|].
  eapply Forall_impl; [by apply IH|]. simpl. intros; lia.
Qed.

Lemma separated_NoDup l : Forall well_formed l → separated l → NoDup l.
Proof.
  induction l as [|p l IH]; [constructor|]. intros Hwf Hsep.
  pose proof (separated_starts_after l p Hwf Hsep) as Hafter.
  apply Forall_cons in Hwf as [Hp Hwf]. constructor.
  - intros Hin. apply (proj1 (Forall_forall _ _) Hafter) in Hin. lia.
  - apply IH; [done|]. destruct l; [done|]. by destruct Hsep.
Qed.

Lemma remove_dups_NoDup {A} `{EqDecision A} (l : list A) : NoDup l → remove_dups l = l.
Proof.
  induction 1 as [|x l Hx Hl IH]; [done|]. simpl.
  destruct (decide_rel _ x l); [done|]. by rewrite IH.
Qed.

Lemma merge_from_not_nil its : ∀ merged current, merge_from merged current its ≠ [].
Proof.
  induction its as [|[start stop] rest IH]; intros merged current; simpl.
  - by destruct merged.
  - destruct (_ >? _)%Z; apply IH.
Qed.

(** X3: merging is idempotent: merged iteration spaces are left as they are
    by a second merge. *)
Theorem itspace_merge_idempotent (itspaces merged : list (Z * Z)) :
  Forall well_formed itspaces →
  itspace_merge itspaces = Some merged →
  itspace_merge merged = Some merged.
Proof.
  intros Hwf Hm.
  assert (separated merged ∧ Forall well_formed merged) as [Hsep Hwfm].
  { revert Hm. unfold itspace_merge.
    assert (Hs : Forall well_formed (sorted pair_leb id (remove_dups itspaces))).
    { apply Forall_forall. intros p Hp. rewrite sorted_elem_of, elem_of_remove_dups in Hp.
      by apply (proj1 (Forall_forall _ _) Hwf). }
    destruct (sorted pair_leb id (remove_dups itspaces)) as [|current its]; [done|].
    intros [= <-]. apply (merge_from_separated (current :: its) [] current); [done| |done].
    apply Forall_cons in Hs as [? _]. by repeat constructor. }
  assert (merged ≠ []) as Hne.
  { revert Hm. unfold itspace_merge.
    destruct (sorted _ _ _) as [|current its]; [done|]. intros [= <-].
    exact (merge_from_not_nil (current :: its) [] current). }
  unfold itspace_merge.
  rewrite (remove_dups_NoDup merged) by by apply separated_NoDup.
  rewrite (ExpressionRewriterFacts.sorted_of_in_order pair_leb id merged)
    by by apply separated_in_order.
  destruct merged as [|[a b] rest]; [done|]. f_equal.
  apply Forall_cons in Hwfm as [Hab _]. unfold well_formed in Hab. simpl in Hab.
  simpl. rewrite Z.gtb_ltb. destruct (Z.ltb_spec b (a - 1)); [lia|].
  simpl. rewrite Z.max_id. by rewrite merge_from_fixed.
Qed.

Lemma itspace_merge_idempotent_witness :
  Forall well_formed [(1, 3); (4, 6); (8, 9)]%Z
  ∧ itspace_merge [(1, 3); (4, 6); (8, 9)]%Z = Some [(1, 6); (8, 9)]%Z
  ∧ itspace_merge [(1, 6); (8, 9)]%Z = Some [(1, 6); (8, 9)]%Z.
Proof.
  assert (Hwf : Forall well_formed [(1, 3); (4, 6); (8, 9)]%Z).
  { repeat constructor; unfold well_formed; simpl; lia. }
  split; [exact Hwf|]. split; [reflexivity|].
  exact (itspace_merge_idempotent _ _ Hwf eq_refl).
Defined.

(** The two examples of the docstring. *)
Example itspace_merge_docstring :
  itspace_merge [(1, 3); (4, 6)]%Z = Some [(1, 6)]%Z
  ∧ itspace_merge [(1, 3); (5, 6)]%Z = Some [(1, 3); (5, 6)]%Z.
Proof. by split. Qed.

(** On no iteration space at all, [itspaces[0]] raises. *)
Example itspace_merge_empty : itspace_merge [] = None.
Proof. reflexivity. Qed.

Section OnodeInduction.
Context (P : onode → Prop).
Hypothesis HSymbol : ∀ s r o, P (OSymbol s r o).
Hypothesis HNode : ∀ children, Forall P children → P (ONode children).

Fixpoint onode_nested_ind (n : onode) : P n :=
  match n with
  | OSymbol s r o => HSymbol s r o
  | ONode children =>
      HNode children
        ((fix go (l : list onode) : Forall P l :=
            match l with
            | [] => Forall_nil_2 P
            | x :: l' => Forall_cons_2 P x l' (onode_nested_ind x) (go l')
            end) children)
  end.
End OnodeInduction.

Section StmtInduction.
Context (P : stmt → Prop).
Hypothesis HPerfect : ∀ c, P (Perfect c).
Hypothesis HBlock : ∀ children, Forall P children → P (Block children).
Hypothesis HRoot : ∀ children, Forall P children → P (Root children).
Hypothesis HFor : ∀ v s body, P body → P (For v s body).
Hypothesis HOther : ∀ c, P (Other c).

Fixpoint stmt_nested_ind (n : stmt) : P n :=
  let go := fix go (l : list stmt) : Forall P l :=
              match l with
              | [] => Forall_nil_2 P
              | x :: l' => Forall_cons_2 P x l' (stmt_nested_ind x) (go l')
              end in
  match n with
  | Perfect c => HPerfect c
  | Block children => HBlock children (go children)
  | Root children => HRoot children (go children)
  | For v s body => HFor v s body (stmt_nested_ind body)
  | Other c => HOther c
  end.
End StmtInduction.

Definition size_ofs_info (p : string * (Z * Z)) : (string * Z) * (string * Z) :=
  let '(var, bounds) := p in ((var, bounds.2 - bounds.1 + 1), (var, bounds.1))%Z.

Lemma size_ofs_info_bounds (l : list (string * (Z * Z))) :
  l = zip_with (λ s o, (s.1, (o.2, o.2 + s.2 - 1)%Z))
        (fst <$> (size_ofs_info <$> l)) (snd <$> (size_ofs_info <$> l))
  ∧ (fst <$> (size_ofs_info <$> l)).*1 = l.*1
  ∧ (snd <$> (size_ofs_info <$> l)).*1 = l.*1.
Proof.
  induction l as [|[v [a b]] l (IH1 & IH2 & IH3)]; [done|].
  rewrite !fmap_cons. cbn [zip_with size_ofs_info fst snd].
  split; [|split; by f_equal]. f_equal; [|done]. do 2 f_equal. lia.
Qed.

(** X4: sizes and offsets determine the bounds, and an empty iteration space
    yields an empty tuple, not a pair of empty tuples. *)
Theorem itspace_size_ofs_bounds (itspace : list (string * (Z * Z))) :
  match itspace_size_ofs itspace with
  | [] => itspace = []
  | [sizes; ofs] =>
      itspace ≠ []
      ∧ itspace = zip_with (λ s o, (s.1, (o.2, o.2 + s.2 - 1)%Z)) sizes ofs
      ∧ sizes.*1 = itspace.*1 ∧ ofs.*1 = itspace.*1
  | _ => False
  end.
Proof.
  pose proof (size_ofs_info_bounds itspace) as Hl.
  unfold itspace_size_ofs. fold size_ofs_info.
  destruct itspace as [|p l]; [done|].
  change (size_ofs_info <$> p :: l) with (size_ofs_info p :: (size_ofs_info <$> l)) in *.
  cbv iota beta zeta. by split.
Qed.

Lemma zip_with_zip_with_r {A B} (f g : A → B → B) (l : list A) : ∀ k,
  zip_with g l (zip_with f l k) = zip_with (λ a b, g a (f a b)) l k.
Proof.
  induction l as [|a l IH]; intros [|b k]; simpl; [done..|]. by rewrite IH.
Qed.

(** X5: two updates of the offsets in a row amount to one update with the
    two dictionaries merged, the later one taking precedence. *)
Theorem ast_update_ofs_compose (ofs1 ofs2 : gmap string Z) (node : onode) :
  ast_update_ofs ofs2 (ast_update_ofs ofs1 node) = ast_update_ofs (ofs2 ∪ ofs1) node.
Proof.
  induction node as [symbol rank offset|children IH] using onode_nested_ind; simpl.
  - f_equal.
    set (old := if offset is [] then (λ _, (1, 0)%Z) <$> rank else offset).
    set (f1 := λ (r : string) (o : Z * Z), (o.1, default o.2 (ofs1 !! r))).
    assert (Hcomp : ∀ l k,
      zip_with (λ r o, (o.1, default o.2 (ofs2 !! r))) l (zip_with f1 l k)
      = zip_with (λ r o, (o.1, default o.2 ((ofs2 ∪ ofs1) !! r))) l k).
    { intros l k. rewrite zip_with_zip_with_r. apply zip_with_ext; [|done..].
      intros r o. unfold f1. simpl. f_equal. rewrite lookup_union.
      by destruct (ofs2 !! r), (ofs1 !! r). }
    destruct (zip_with f1 rank old) as [|x l] eqn:E.
    + destruct rank as [|r rank]; [done|]. exfalso.
      subst old. destruct offset as [|o offset]; simpl in E; discriminate.
    + rewrite <- E. apply Hcomp.
  - f_equal. rewrite <- list_fmap_compose. apply Forall_fmap_ext_1.
    eapply Forall_impl; [exact IH|]. intros n Hn. exact Hn.
Qed.

Definition innermost (l : stmt) : Prop :=
  (find_iloops l).2 = [l] ∧ ∃ v s body, l = For v s body.

Lemma find_iloops_children (children : list stmt) :
  Forall (λ node, ((find_iloops node).1 = false → (find_iloops node).2 = [])
                  ∧ ∀ l, l ∈ (find_iloops node).2 → innermost l) children →
  (existsb fst (find_iloops <$> children) = false →
   concat (snd <$> (find_iloops <$> children)) = [])
  ∧ ∀ l, l ∈ concat (snd <$> (find_iloops <$> children)) → innermost l.
Proof.
  induction 1 as [|x xs [Hx Hin] _ [IH1 IH2]].
  - split; [done|]. by intros l ?%elem_of_nil.
  - rewrite !fmap_cons. cbn [existsb concat]. split.
    + intros [H1 H2]%orb_false_iff. by rewrite Hx, IH1.
    + intros l [Hl|Hl]%elem_of_app; auto.
Qed.

Lemma find_iloops_spec (node : stmt) :
  ((find_iloops node).1 = false → (find_iloops node).2 = [])
  ∧ ∀ l, l ∈ (find_iloops node).2 → innermost l.
Proof.
  induction node as [c|children IH|children IH|v s body IH|c] using stmt_nested_ind.
  - split; [done|]. by intros l ?%elem_of_nil.
  - by apply find_iloops_children.
  - by apply find_iloops_children.
  - destruct IH as [Hnone Hin]. cbn [find_iloops].
    destruct (find_iloops body) as [found loops] eqn:E. cbn [fst snd] in *.
    split; [done|]. intros l Hl. destruct found.
    + by apply Hin.
    + rewrite Hnone in Hl by done. apply list_elem_of_singleton in Hl as ->.
      split; [|by eauto]. cbn [find_iloops]. rewrite E. cbn [snd]. by rewrite Hnone.
  - split; [done|]. by intros l ?%elem_of_nil.
Qed.

(** X6: every loop returned by [inner_loops] is a [For] node that is its own
    and only inner loop. *)
Theorem inner_loops_innermost (node l : stmt) :
  l ∈ inner_loops node → inner_loops l = [l] ∧ ∃ v s body, l = For v s body.
Proof. apply find_iloops_spec. Qed.

Lemma inner_loops_innermost_witness :
  let inner := For "j" 3 (Block [Perfect "A[i][j] += B[i]*C[j];"]) in
  let nest := For "i" 4 (Block [Perfect "double t = 0;"; inner]) in
  inner ∈ inner_loops (Root [nest; Other "// done"])
  ∧ inner_loops inner = [inner] ∧ ∃ v s body, inner = For v s body.
Proof.
  intros inner nest.
  assert (Hin : inner ∈ inner_loops (Root [nest; Other "// done"])).
  { apply list_elem_of_singleton. reflexivity. }
  split; [exact Hin|]. exact (inner_loops_innermost _ _ Hin).
Defined.

Lemma od_get_od_set {K V} `{EqDecision K} (k k' : K) (v : V) d :
  od_get k' (od_set k v d) = if decide (k' = k) then Some v else od_get k' d.
Proof.
  induction d as [|[k0 v0] d IH]; simpl.
  - by destruct (decide (k' = k)).
  - destruct (decide (k = k0)) as [->|Hne]; simpl.
    + by destruct (decide (k' = k0)).
    + rewrite IH. destruct (decide (k' = k0)) as [->|?]; [|done].
      by rewrite decide_False.
Qed.

Lemma unroll_round_None inner ls : foldl (unroll_round inner) None ls = None.
Proof. by induction ls. Qed.

Lemma unroll_rounds_other inner v ls : ∀ d0 d,
  Forall (λ l', match l' with For w _ _ => w ≠ v | _ => True end) ls →
  foldl (unroll_round inner) (Some d0) ls = Some d →
  od_get v d = od_get v d0.
Proof.
  induction ls as [|l ls IH]; intros d0 d Hls; simpl.
  - by intros [= ->].
  - apply Forall_cons in Hls as [Hl Hls].
    destruct l as [| | |w sz body|]; try by rewrite unroll_round_None.
    intros Hd. rewrite (IH _ _ Hls Hd), od_get_od_set. by rewrite decide_False.
Qed.

Lemma unroll_rounds_Some inner ls : ∀ d0 d,
  foldl (unroll_round inner) d0 ls = Some d → is_Some d0.
Proof.
  induction ls as [|l ls IH]; intros d0 d; simpl; [by intros ->|].
  intros Hd. apply IH in Hd. destruct d0; [done|]. by destruct Hd.
Qed.

(** X8: the factors recorded for an iteration variable are those of the last
    loop over it: [1] for a loop with no loop inside, else the divisors of
    its size in increasing order. *)
Theorem unroll_factors_last_loop (pre post : list stmt) v sz body d :
  Forall (λ l', match l' with For w _ _ => w ≠ v | _ => True end) post →
  unroll_factors (pre ++ For v sz body :: post) = Some d →
  od_get v d
  = Some (if decide (For v sz body ∈ inner_loops (For v sz body)) then [1%Z]
          else divisors sz).
Proof.
  intros Hpost. unfold unroll_factors.
  set (inner := filter _ _).
  assert (Hinner : For v sz body ∈ inner ↔ For v sz body ∈ inner_loops (For v sz body)).
  { unfold inner. rewrite list_elem_of_filter, elem_of_app, elem_of_cons. tauto. }
  rewrite foldl_app. simpl. intros Hd.
  destruct (unroll_rounds_Some _ _ _ _ Hd) as [d1 Hd1].
  destruct (foldl (unroll_round inner) (Some []) pre) as [d0|] eqn:Hpre; [|done].
  simpl in Hd1. injection Hd1 as <-. simpl in Hd.
  rewrite (unroll_rounds_other _ v _ _ _ Hpost Hd), od_get_od_set, decide_True by done.
  f_equal. destruct (decide (_ ∈ inner)), (decide (_ ∈ inner_loops _)); tauto.
Qed.

Lemma unroll_factors_last_loop_witness :
  let inner := For "j" 4 (Block [Perfect "A[i][j] += B[i]*C[j];"]) in
  let outer := For "i" 6 (Block [inner]) in
  unroll_factors [outer; inner] = Some [("i", [1; 2; 3; 6]); ("j", [1])]%Z
  ∧ od_get "i" [("i", [1; 2; 3; 6]); ("j", [1])]%Z = Some [1; 2; 3; 6]%Z.
Proof.
  intros inner outer. split; [reflexivity|].
  exact (unroll_factors_last_loop [] [inner] "i" 6 (Block [inner]) _
           ltac:(by repeat constructor) eq_refl).
Defined.

Lemma divisors_spec sz f : f ∈ divisors sz → (0 < f)%Z ∧ (f | sz)%Z.
Proof.
  unfold divisors. rewrite list_elem_of_filter, list_elem_of_fmap.
  intros [Hmod (i & -> & _)]. split; [lia|]. apply Z.mod_divide; [lia|done].
Qed.

Definition factors_divide (d : list (string * list Z)) (loops : list stmt) : Prop :=
  ∀ v fs f, od_get v d = Some fs → f ∈ fs →
    (0 < f)%Z ∧ ∃ sz body, For v sz body ∈ loops ∧ (f | sz)%Z.

Lemma unroll_rounds_divide inner ls : ∀ d0 seen d,
  factors_divide d0 seen →
  foldl (unroll_round inner) (Some d0) ls = Some d →
  factors_divide d (seen ++ ls).
Proof.
  induction ls as [|l ls IH]; intros d0 seen d Hinv; simpl.
  - intros [= <-]. by rewrite app_nil_r.
  - destruct l as [| | |w sz body|]; try by rewrite unroll_round_None.
    intros Hd. replace (seen ++ For w sz body :: ls) with ((seen ++ [For w sz body]) ++ ls)
      by by rewrite <- app_assoc.
    eapply IH; [|exact Hd]. intros v fs f. rewrite od_get_od_set.
    destruct (decide (v = w)) as [->|Hne].
    + intros [= <-] Hf.
      assert ((0 < f)%Z ∧ (f | sz)%Z) as [? ?].
      { destruct (decide _); [|by apply divisors_spec].
        apply list_elem_of_singleton in Hf as ->. split; [lia|]. apply Z.divide_1_l. }
      split; [done|]. exists sz, body. split; [|done].
      apply elem_of_app. right. by apply list_elem_of_singleton.
    + intros Hfs Hf. destruct (Hinv v fs f Hfs Hf) as (? & sz' & body' & ? & ?).
      split; [done|]. exists sz', body'. split; [|done]. apply elem_of_app; by left.
Qed.

(** X9: every unroll factor is positive and divides the size of a loop over
    the iteration variable it is recorded for. *)
Theorem unroll_factors_divide (loops : list stmt) d v fs f :
  unroll_factors loops = Some d → od_get v d = Some fs → f ∈ fs →
  (0 < f)%Z ∧ ∃ sz body, For v sz body ∈ loops ∧ (f | sz)%Z.
Proof.
  unfold unroll_factors. intros Hd.
  apply (unroll_rounds_divide _ _ [] [] d) in Hd; [by apply Hd|].
  intros ? ? ? [=].
Qed.

Lemma unroll_factors_divide_witness :
  let inner := For "j" 4 (Block [Perfect "A[i][j] += B[i]*C[j];"]) in
  let outer := For "i" 6 (Block [inner]) in
  (0 < 3)%Z ∧ ∃ sz body, For "i" sz body ∈ [outer; inner] ∧ (3 | sz)%Z.
Proof.
  intros inner outer.
  apply (unroll_factors_divide [outer; inner] _ "i" [1; 2; 3; 6]%Z 3%Z eq_refl eq_refl).
  apply (bool_decide_unpack _). by vm_compute.
Defined.

(** A block that holds no block directly: the statements of a block are
    loops and plain statements. *)
Fixpoint flat_blocks (node : stmt) : bool :=
  match node with
  | Block children =>
      forallb (λ n, match n with Block _ => false | _ => flat_blocks n end) children
  | Root children => forallb flat_blocks children
  | For _ _ body => flat_blocks body
  | Perfect _ | Other _ => true
  end.

Lemma check_perfectness_found_block node :
  check_perfectness node true = true → (∃ cs, node = Block cs) ∨ ∃ c, node = Perfect c.
Proof. destruct node; simpl; try done; eauto. Qed.

Lemma perfect_single_inner_loop (node : stmt) :
  flat_blocks node = true → check_perfectness node false = true →
  (find_iloops node).1 = true → ∃ l, (find_iloops node).2 = [l].
Proof.
  induction node as [c|children IH|children IH|v s body IH|c] using stmt_nested_ind;
    try done.
  - intros Hflat Hperfect Hfound. cbn [check_perfectness] in Hperfect.
    destruct children as [|x [|y rest]].
    + done.
    + apply Forall_cons in IH as [IHx _]. cbn in Hfound, Hflat |- *.
      rewrite orb_false_r in Hfound. rewrite andb_true_r in Hflat.
      rewrite app_nil_r. apply IHx; [by destruct x|done..].
    + exfalso. clear IH. revert Hfound Hflat Hperfect.
      generalize (x :: y :: rest). intros l.
      induction l as [|n l IHl]; [done|].
      cbn [fmap list_fmap existsb forallb flat_blocks].
      intros [Hn|Hl]%orb_true_iff [Hflat1 Hflat2]%andb_true_iff
             [Hp1 Hp2]%andb_true_iff.
      * apply check_perfectness_found_block in Hp1 as [[cs ->]|[c ->]]; done.
      * by apply IHl.
  - intros Hflat Hperfect _. cbn [find_iloops].
    destruct (find_iloops body) as [found loops] eqn:E. cbn [fst snd] in *.
    destruct found.
    + by apply IH.
    + pose proof (find_iloops_spec body) as [Hnone _]. rewrite E in Hnone.
      cbn [fst snd] in Hnone. rewrite (Hnone eq_refl). by eexists.
Qed.

(** X7: a perfect loop nest whose blocks hold no block directly has exactly
    one innermost loop. *)
Theorem perfect_loop_single_inner_loop (loop : stmt) :
  is_perfect_loop loop = true → flat_blocks loop = true →
  ∃ l, inner_loops loop = [l].
Proof.
  intros Hperfect Hflat. destruct loop as [| | |v s body|]; try done.
  unfold inner_loops. apply perfect_single_inner_loop; [done..|].
  cbn [find_iloops]. by destruct (find_iloops body).
Qed.

Lemma perfect_loop_single_inner_loop_witness :
  let inner := For "j" 3 (Block [Perfect "A[i][j] = 0;"; Perfect "B[i][j] = 1;"]) in
  let nest := For "i" 4 (Block [inner]) in
  is_perfect_loop nest = true ∧ flat_blocks nest = true ∧ ∃ l, inner_loops nest = [l].
Proof.
  intros inner nest. split; [reflexivity|]. split; [reflexivity|].
  exact (perfect_loop_single_inner_loop nest eq_refl eq_refl).
Defined.

(** Without that proviso a nest that [is_perfect_loop] accepts can hold two
    innermost loops, each alone in a block of its own. *)
Example perfect_loop_with_two_inner_loops :
  let l1 := For "j" 3 (Block [Perfect "A[j] = 0;"]) in
  let l2 := For "k" 3 (Block [Perfect "B[k] = 0;"]) in
  let nest := For "i" 4 (Block [Block [l1]; Block [l2]]) in
  is_perfect_loop nest = true ∧ inner_loops nest = [l1; l2].
Proof. by split. Qed.
End UtilsFacts.

Module OptimizerFacts.
Import ExpressionGraph ExpressionRewriter Utils Optimizer UtilsFacts.

Section GraphFacts.
Context {num : Type} `{Countable num}.
Implicit Types (g : digraph num) (lhs s : sym_name num) (e : expr num).

Lemma graph_wf_add_edge u v g : graph_wf g → graph_wf (add_edge u v g).
Proof.
  intros Hwf a b. unfold add_edge. simpl. intros [Hin|Hin]%elem_of_union.
  - apply elem_of_singleton in Hin as [= -> ->]. set_solver.
  - destruct (Hwf a b Hin). set_solver.
Qed.

Lemma graph_wf_extract_syms lhs e : ∀ g g',
  graph_wf g → extract_syms lhs e g = Some g' → graph_wf g'.
Proof.
  induction e as [n r|v|c IH|c IH|l r IHl IHr|l r IHl IHr|l r IHl IHr
                 |l r IHl IHr|f args IH|c t f IHc IHt IHf]
    using expr_nested_ind; intros g g' Hwf Hx; simpl in Hx;
    try discriminate; try (by eauto);
    try (by destruct (extract_syms lhs l g) as [g1|] eqn:E1; [|discriminate];
         simpl in Hx; eauto).
  - injection Hx as <-. by apply graph_wf_add_edge.
  - revert g g' Hwf Hx.
    induction IH as [|x args Hx' _ IHargs]; intros g g' Hwf Hx.
    + by injection Hx as <-.
    + destruct (extract_syms lhs x g) as [g1|] eqn:E1; [|discriminate].
      simpl in Hx. eauto.
  - destruct (extract_syms lhs c g) as [g1|] eqn:E1; [|discriminate]; simpl in Hx.
    destruct (extract_syms lhs t g1) as [g2|] eqn:E2; [|discriminate]; simpl in Hx.
    eauto.
Qed.

Lemma has_dep_wf g s :
  graph_wf g → has_dep g s None = true ↔ ∃ u, (u, s) ∈ edges g.
Proof.
  intros Hwf. unfold has_dep, in_edges.
  rewrite andb_true_iff, !bool_decide_eq_true. split.
  - intros [_ Hne]. apply set_choose_L in Hne as [[u v] Hin].
    apply elem_of_filter in Hin as [Hv Hin]. simpl in Hv. subst v. by exists u.
  - intros [u Hin]. split; [by apply (Hwf u s)|].
    intros Hempty. assert ((u, s) ∈ (∅ : gset (sym_name num * sym_name num))) as Hc.
    { rewrite <- Hempty. by apply elem_of_filter. }
    set_solver.
Qed.

Lemma has_dep_target_wf g s t : graph_wf g → has_dep g s (Some t) = has_edge g s t.
Proof.
  intros Hwf. unfold has_dep, has_edge. apply eq_true_iff_eq.
  rewrite andb_true_iff, !bool_decide_eq_true. split; [tauto|].
  intros Hin. split; [|done]. by apply (Hwf s t).
Qed.

(** X10: what [has_dep] answers after [add_dependency]. *)
Theorem has_dep_after_add_dependency lhs e (self_loop : bool) g g' :
  graph_wf g →
  add_dependency lhs e self_loop g = Some g' →
  graph_wf g'
  ∧ (∀ s, has_dep g' s None
          = has_dep g s None || bool_decide (s ∈ symbols_of e)
            || self_loop && bool_decide (s = lhs))
  ∧ (∀ s t, has_dep g' s (Some t)
            = has_dep g s (Some t)
              || bool_decide (s = lhs)
                 && (bool_decide (t ∈ symbols_of e) || self_loop && bool_decide (t = lhs))).
Proof.
  intros Hwf Hadd. unfold add_dependency in Hadd.
  assert (graph_wf (if self_loop then add_edge lhs lhs g else g)) as Hwf1.
  { destruct self_loop; [by apply graph_wf_add_edge|done]. }
  pose proof (graph_wf_extract_syms _ _ _ _ Hwf1 Hadd) as Hwf'.
  pose proof (ExpressionGraphFacts.extract_syms_edges _ _ _ _ Hadd) as He.
  assert (Hedges : ∀ u v, (u, v) ∈ edges g' ↔
            (u = lhs ∧ v ∈ symbols_of e) ∨ (self_loop = true ∧ u = lhs ∧ v = lhs)
            ∨ (u, v) ∈ edges g).
  { intros u v. rewrite He. unfold ExpressionGraphFacts.edges_from.
    rewrite elem_of_union, elem_of_map.
    destruct self_loop; simpl; set_solver. }
  split; [done|]. split.
  - intros s. apply eq_true_iff_eq.
    rewrite !orb_true_iff, andb_true_iff, !bool_decide_eq_true.
    rewrite !has_dep_wf by done. setoid_rewrite Hedges. naive_solver.
  - intros s t. rewrite !has_dep_target_wf by done. unfold has_edge.
    apply eq_true_iff_eq.
    rewrite !orb_true_iff, !andb_true_iff, !orb_true_iff, !andb_true_iff,
      !bool_decide_eq_true.
    rewrite Hedges. naive_solver.
Qed.
End GraphFacts.

Lemma has_dep_after_add_dependency_witness :
  let e : expr Q := Prod (sym "x" []) (sym "y" ["i"]) in
  graph_wf (empty_graph (num:=Q))
  ∧ ∃ g', add_dependency (SStr "T") e false empty_graph = Some g'
     ∧ graph_wf g'
     ∧ has_dep g' (SStr "x") None = true
     ∧ has_dep g' (SStr "T") None = false
     ∧ has_dep g' (SStr "T") (Some (SStr "y")) = true.
Proof.
  intros e.
  assert (Hwf : graph_wf (empty_graph (num:=Q))) by (intros u v Hin; set_solver).
  split; [exact Hwf|].
  destruct (add_dependency (SStr "T") e false empty_graph) as [g'|] eqn:E;
    [|by vm_compute in E].
  exists g'. split; [done|].
  destruct (has_dep_after_add_dependency (SStr "T") e false empty_graph g' Hwf E)
    as (Hwf' & Hnone & Htarget).
  split; [exact Hwf'|]. rewrite !Hnone, Htarget. by vm_compute.
Defined.

Section CountFacts.
Context {num : Type} `{Countable num}.
Context (str : expr num → string).
Notation key := (string + sym_name num * list string)%type.
Implicit Types (c : gmap key nat) (k : key) (e : expr num).

(** How often a key occurs among the symbols of a tree. *)
Definition occurrences_of_key (str_key : bool) k e : nat :=
  length (filter (λ s, count_key str str_key s = k) (find_symbols e)).

(** A counter holds no zero. *)
Definition positive_counts c : Prop := ∀ k n, c !! k = Some n → 0 < n.

Definition counted (str_key : bool) e c c' : Prop :=
  positive_counts c' ∧
  ∀ k, default 0 (c' !! k) = default 0 (c !! k) + occurrences_of_key str_key k e.

Lemma occurrences_of_key_app str_key k (l1 l2 : list (expr num)) :
  length (filter (λ s, count_key str str_key s = k) (l1 ++ l2))
  = length (filter (λ s, count_key str str_key s = k) l1)
    + length (filter (λ s, count_key str str_key s = k) l2).
Proof. by rewrite filter_app, length_app. Qed.

Lemma count_counted str_key e : ∀ c,
  all_nodes e = true → positive_counts c →
  ∃ c', count str str_key e c = Some c' ∧ counted str_key e c c'.
Proof.
  unfold counted, occurrences_of_key.
  induction e as [n r|v|x IH|x IH|l r IHl IHr|l r IHl IHr|l r IHl IHr
                 |l r IHl IHr|f args IH|x t f IHc IHt IHf]
    using expr_nested_ind; intros c Hn Hpos; simpl in Hn;
    repeat match goal with
           | Hb : _ && _ = true |- _ => apply andb_true_iff in Hb; destruct Hb
           end;
    try discriminate;
    try (by cbn [count find_symbols]; eauto);
    try (cbn [count find_symbols];
         destruct (IHl c) as (c1 & -> & Hp1 & Hc1); [done..|]; cbn [mbind option_bind];
         destruct (IHr c1) as (c2 & -> & Hp2 & Hc2); [done..|];
         exists c2; split; [done|]; split; [done|]; intros k;
         rewrite occurrences_of_key_app, Hc2, Hc1; lia).
  - cbn [count find_symbols]. eexists. split; [done|].
    set (k0 := count_key str str_key (Symbol n r)).
    destruct (c !! k0) as [m|] eqn:E; split.
    + intros k m'. rewrite lookup_insert_Some. intros [[_ <-]|[_ Hk]]; [lia|eauto].
    + intros k. rewrite filter_cons, filter_nil. fold k0.
      destruct (decide (k0 = k)) as [<-|Hne]; simpl.
      * rewrite lookup_insert_eq, E. simpl. lia.
      * rewrite lookup_insert_ne by done. lia.
    + intros k m'. rewrite lookup_insert_Some. intros [[_ <-]|[_ Hk]]; [lia|eauto].
    + intros k. rewrite filter_cons, filter_nil. fold k0.
      destruct (decide (k0 = k)) as [<-|Hne]; simpl.
      * rewrite lookup_insert_eq, E. simpl. lia.
      * rewrite lookup_insert_ne by done. lia.
  - cbn [count find_symbols]. revert c Hn Hpos.
    induction IH as [|a args Ha _ IHargs]; intros c Hn Hpos.
    + exists c. split; [done|]. split; [done|]. intros k. simpl. lia.
    + simpl in Hn. apply andb_true_iff in Hn as [Hn1 Hn2].
      destruct (Ha c Hn1 Hpos) as (c1 & -> & Hp1 & Hc1). simpl.
      destruct (IHargs c1 Hn2 Hp1) as (c2 & -> & Hp2 & Hc2).
      exists c2. split; [done|]. split; [done|]. intros k.
      rewrite occurrences_of_key_app, Hc2, Hc1. lia.
  - cbn [count find_symbols].
    destruct (IHc c) as (c1 & -> & Hp1 & Hc1); [done..|]. simpl.
    destruct (IHt c1) as (c2 & -> & Hp2 & Hc2); [done..|]. simpl.
    destruct (IHf c2) as (c3 & -> & Hp3 & Hc3); [done..|].
    exists c3. split; [done|]. split; [done|]. intros k.
    rewrite !occurrences_of_key_app, Hc3, Hc2, Hc1. lia.
Qed.

(** X11: [count_occurrences] maps the key of every symbol of the expression,
    and nothing else, to the number of occurrences of symbols with that
    key. *)
Theorem count_occurrences_counts (str_key : bool) e :
  all_nodes e = true →
  ∃ c, count_occurrences str str_key e = Some c ∧
       ∀ k n, c !! k = Some n ↔ 0 < n ∧ n = occurrences_of_key str_key k e.
Proof.
  intros Hn. destruct (count_counted str_key e ∅ Hn) as (c & Hc & Hpos & Hcount).
  { intros k n. by rewrite lookup_empty. }
  exists c. split; [done|]. intros k n. specialize (Hcount k).
  rewrite lookup_empty in Hcount. simpl in Hcount. split.
  - intros Hk. rewrite Hk in Hcount. simpl in Hcount. split; [by eapply Hpos|done].
  - intros [Hpos' ->]. destruct (c !! k) as [m|] eqn:E; simpl in Hcount; [by subst|lia].
Qed.
End CountFacts.

Lemma count_occurrences_counts_witness :
  let e : expr Q := Sum (Prod (sym "a" []) (Sum (sym "b" ["i"]) (sym "c" [])))
                        (Prod (sym "b" ["i"]) (sym "a" [])) in
  all_nodes e = true ∧
  ∃ c, count_occurrences (λ _, "") false e = Some c ∧
       (c !! inr (SStr "a", []) = Some 2 ↔ 0 < 2 ∧ 2 = occurrences_of_key (λ _, "") false
                                                      (inr (SStr "a", [])) e).
Proof.
  intros e. split; [reflexivity|].
  destruct (count_occurrences_counts (λ _, "") false e eq_refl) as (c & Hc & Hk).
  exists c. split; [exact Hc|]. apply Hk.
Defined.

Section LicmFacts.
Context {num : Type} (loop_dep : expr num → list string) (_licm : nat).
Notation extract := (extract loop_dep _licm).
Implicit Types (node : expr num) (x : extraction num).

(** What a call of [extract] guarantees about its result [r] and about the
    state [x'] it leaves, started in [x]: the length is the number of symbols
    of the node, a hoisted node has no dependencies left, an invariant node
    leaves the state alone, and no bare symbol is filed. *)
Definition extract_post node x (r : list string * info * nat) x' : Prop :=
  r.2 = length (find_symbols node)
  ∧ (r.1.2 = HOI → r.1.1 = [])
  ∧ (r.1.2 = INV → x' = x)
  ∧ (Forall (λ kv, Forall (λ n, is_Symbol n = false) kv.2) (expr_dep x) →
     Forall (λ kv, Forall (λ n, is_Symbol n = false) kv.2) (expr_dep x')).

Lemma setdefault_append_Forall {K V} `{EqDecision K} (P : V → Prop) (k : K) (v : V) d :
  P v → Forall (λ kv, Forall P kv.2) d →
  Forall (λ kv, Forall P kv.2) (setdefault_append k v d).
Proof.
  intros Hv. induction 1 as [|[k' vs] d Hk Hd IH]; simpl.
  - by repeat constructor.
  - destruct (decide (k = k')); constructor; try done.
    simpl in *. apply Forall_app. split; [done|]. by repeat constructor.
Qed.

Lemma hoist_no_symbol node dep (b : bool) x u x' :
  hoist node dep b x = Some (u, x') →
  Forall (λ kv, Forall (λ n, is_Symbol n = false) kv.2) (expr_dep x) →
  Forall (λ kv, Forall (λ n, is_Symbol n = false) kv.2) (expr_dep x').
Proof.
  intros [= _ <-] Hx. simpl. destruct b; [|done].
  apply setdefault_append_Forall; [|done]. by destruct node.
Qed.

Lemma hoist_false node dep x : hoist node dep false x = Some (tt, x).
Proof. unfold hoist, modify. destruct x as [d h]. simpl. by rewrite orb_false_r. Qed.

Definition no_bare_symbol x : Prop :=
  Forall (λ kv, Forall (λ n, is_Symbol n = false) kv.2) (expr_dep x).

Lemma hoist_spec node dep (b : bool) x :
  ∃ x', hoist node dep b x = Some (tt, x')
        ∧ (b = false → x' = x) ∧ (no_bare_symbol x → no_bare_symbol x').
Proof.
  eexists. split; [reflexivity|]. split.
  - intros ->. destruct x. simpl. by rewrite orb_false_r.
  - unfold no_bare_symbol. simpl. destruct b; [|done].
    apply setdefault_append_Forall. by destruct node.
Qed.

Ltac hoist_step :=
  match goal with
  | |- context [bind (hoist ?n ?d ?b) _ ?x] =>
      let x' := fresh "x" in let E := fresh "E" in
      let Hf := fresh "Hf" in let Hs := fresh "Hs" in
      destruct (hoist_spec n d b x) as (x' & E & Hf & Hs);
      unfold bind at 1; rewrite E
  end.

Lemma extract_node_spec (left right : expr num) dep_l info_l len_l dep_r info_r len_r x :
  (info_l = HOI → dep_l = []) → (info_r = HOI → dep_r = []) →
  ∃ r x', extract_node _licm left right (dep_l, info_l, len_l) (dep_r, info_r, len_r) x
          = Some (r, x')
    ∧ r.2 = len_l + len_r
    ∧ (r.1.2 = HOI → r.1.1 = [])
    ∧ (r.1.2 = INV → x' = x ∧ info_l = INV ∧ info_r = INV)
    ∧ (no_bare_symbol x → no_bare_symbol x').
Proof.
  intros Hl Hr. unfold extract_node.
  destruct info_l, info_r;
    repeat match goal with
           | |- context [decide ?P] => destruct (decide P)
           | |- context [bool_decide ?P] => destruct (bool_decide_reflect P)
           end; cbn [negb andb orb];
    try (exfalso; congruence);
    repeat hoist_step;
    (eexists _, _; split; [reflexivity|]); cbn [fst snd];
    (split; [done|]); (split; [done|]); (split; [done|]); eauto.
Qed.

Lemma extract_spec node : ∀ x,
  two_children node = true →
  ∃ r x', extract node x = Some (r, x') ∧ extract_post node x r x'.
Proof.
  unfold extract_post. fold no_bare_symbol.
  assert (Hbin : ∀ l r,
    (∀ x, two_children l = true →
          ∃ r0 x', extract l x = Some (r0, x')
            ∧ r0.2 = length (find_symbols l) ∧ (r0.1.2 = HOI → r0.1.1 = [])
            ∧ (r0.1.2 = INV → x' = x)
            ∧ (no_bare_symbol x → no_bare_symbol x')) →
    (∀ x, two_children r = true →
          ∃ r0 x', extract r x = Some (r0, x')
            ∧ r0.2 = length (find_symbols r) ∧ (r0.1.2 = HOI → r0.1.1 = [])
            ∧ (r0.1.2 = INV → x' = x)
            ∧ (no_bare_symbol x → no_bare_symbol x')) →
    ∀ x, two_children l && two_children r = true →
    ∃ r0 x',
      (do rl <- extract l; do rr <- extract r; extract_node _licm l r rl rr)%comp x
      = Some (r0, x')
      ∧ r0.2 = length (find_symbols l ++ find_symbols r)
      ∧ (r0.1.2 = HOI → r0.1.1 = [])
      ∧ (r0.1.2 = INV → x' = x)
      ∧ (no_bare_symbol x → no_bare_symbol x')).
  { intros l r IHl IHr x [Hl Hr]%andb_true_iff.
    destruct (IHl x Hl) as ([[dep_l info_l] len_l] & x1 & El & Hlen_l & Hhoi_l & Hinv_l & Hns_l).
    destruct (IHr x1 Hr) as ([[dep_r info_r] len_r] & x2 & Er & Hlen_r & Hhoi_r & Hinv_r & Hns_r).
    unfold bind at 1. rewrite El. unfold bind at 1. rewrite Er.
    cbn [fst snd] in *.
    destruct (extract_node_spec l r dep_l info_l len_l dep_r info_r len_r x2 Hhoi_l Hhoi_r)
      as (r0 & x3 & E & Hlen & Hhoi & Hinv & Hns).
    exists r0, x3. split; [exact E|]. rewrite length_app.
    split; [lia|]. split; [done|]. split; [|by auto].
    intros Hi. destruct (Hinv Hi) as (-> & Hil & Hir). by rewrite Hinv_r, Hinv_l. }
  induction node as [n r|v|c IH|c IH|l r IHl IHr|l r IHl IHr|l r IHl IHr
                    |l r IHl IHr|f args IH|c t f IHc IHt IHf]
    using expr_nested_ind; intros x Hn; try discriminate.
  - eexists _, x. split; [reflexivity|]. by repeat split.
  - apply (IH x Hn).
  - by apply Hbin.
  - by apply Hbin.
  - by apply Hbin.
  - by apply Hbin.
  - destruct args as [|a [|b [|]]]; try discriminate.
    apply Forall_cons in IH as [IHa IH]. apply Forall_cons in IH as [IHb _].
    destruct (Hbin a b IHa IHb x Hn) as (r0 & x' & E & Hlen & Hrest).
    exists r0, x'. split; [exact E|]. split; [|exact Hrest].
    rewrite Hlen. simpl. by rewrite app_nil_r.
Qed.

(** X13: on symbols, [Par] and nodes with two children [extract] raises
    nothing: the branch ["Error while hoisting invariant terms"] is never
    taken.  The length it returns is the number of symbols of the node; a
    node marked [HOI] comes with no dependencies, and a node marked [INV]
    leaves [expr_dep] and [has_extracted] as they were. *)
Theorem extract_returns_length node x :
  two_children node = true →
  ∃ dep inf len x',
    extract node x = Some ((dep, inf, len), x')
    ∧ len = length (find_symbols node)
    ∧ (inf = HOI → dep = [])
    ∧ (inf = INV → x' = x).
Proof.
  intros Hn. destruct (extract_spec node x Hn) as ([[dep inf] len] & x' & E & H1 & H2 & H3 & _).
  by exists dep, inf, len, x'.
Qed.

(** X14: [extract] never files a bare symbol in [expr_dep]: a symbol to hoist
    is wrapped in [Par] first. *)
Theorem extract_files_no_bare_symbol node x :
  two_children node = true → no_bare_symbol x →
  ∃ r x', extract node x = Some (r, x') ∧ no_bare_symbol x'.
Proof.
  intros Hn Hx. destruct (extract_spec node x Hn) as (r & x' & E & _ & _ & _ & Hns).
  exists r, x'. split; [exact E|]. by apply Hns.
Qed.
End LicmFacts.

(** [A[i]*B[j] + c*d] with [loop_dep] read off the rank, in the first
    round: [A[i]] and [B[j]] are filed, each in [Par], under their
    dependencies. *)
Definition rank_dep (e : expr Q) : list string := rank_of e.

Definition empty_extraction : extraction Q := {| expr_dep := []; has_extracted := false |}.

Lemma extract_returns_length_witness :
  let node : expr Q := Sum (Prod (sym "A" ["i"]) (sym "B" ["j"]))
                           (Prod (sym "c" []) (sym "d" [])) in
  two_children node = true ∧
  ∃ dep inf len x',
    extract rank_dep 0 node empty_extraction = Some ((dep, inf, len), x')
    ∧ len = length (find_symbols node)
    ∧ (inf = HOI → dep = [])
    ∧ (inf = INV → x' = empty_extraction).
Proof.
  intros node. split; [reflexivity|].
  exact (extract_returns_length rank_dep 0 node empty_extraction eq_refl).
Defined.

Lemma extract_files_no_bare_symbol_witness :
  let node : expr Q := Prod (sym "A" ["i"]) (sym "B" ["j"]) in
  two_children node = true ∧ no_bare_symbol empty_extraction ∧
  ∃ r x', extract rank_dep 0 node empty_extraction = Some (r, x') ∧ no_bare_symbol x'.
Proof.
  intros node. split; [reflexivity|].
  assert (Hx : no_bare_symbol empty_extraction) by constructor.
  split; [exact Hx|].
  exact (extract_files_no_bare_symbol rank_dep 0 node empty_extraction eq_refl Hx).
Defined.

Example extract_first_round :
  extract rank_dep 0 (Prod (sym "A" ["i"]) (sym "B" ["j"])) empty_extraction
  = Some (([], HOI, 2),
          {| expr_dep := [(["i"], [Par (sym "A" ["i"])]); (["j"], [Par (sym "B" ["j"])])];
             has_extracted := true |}).
Proof. reflexivity. Qed.

Lemma zip_with_rank_nil {B C} (f : string → B → C) (rank : list string) (old : list B) :
  zip_with f rank old = [] → rank = [] ∨ old = [].
Proof. destruct rank, old; simpl; auto; discriminate. Qed.

Lemma update_expr_offsets (f g : string → Z * Z → Z * Z) rank offset :
  let old := if offset is [] then (λ _, (1, 0)%Z) <$> rank else offset in
  let new := zip_with f rank old in
  zip_with g rank (if new is [] then (λ _, (1, 0)%Z) <$> rank else new)
  = zip_with (λ r o, g r (f r o)) rank old.
Proof.
  intros old new. destruct new as [|x l] eqn:E.
  - subst new. apply zip_with_rank_nil in E as [->|E]; [done|].
    subst old. destruct offset; [|done]. destruct rank; [done|discriminate].
  - rewrite <- E. subst new. apply zip_with_zip_with_r.
Qed.

(** X12: unrolling offsets add up, and offsets along two iteration variables
    can be added in either order. *)
Theorem update_expr_compose (var var' : string) (factor factor' : Z) (node : onode) :
  update_expr var factor' (update_expr var factor node)
  = update_expr var (factor + factor') node
  ∧ update_expr var' factor' (update_expr var factor node)
    = update_expr var factor (update_expr var' factor' node).
Proof.
  induction node as [symbol rank offset|children IH] using onode_nested_ind.
  - cbn [update_expr]. split; f_equal.
    + rewrite update_expr_offsets. apply zip_with_ext; [|done..].
      intros r o. destruct (decide (r = var)); [|done]. simpl. f_equal. lia.
    + rewrite !update_expr_offsets. apply zip_with_ext; [|done..].
      intros r o. destruct (decide (r = var)), (decide (r = var')); simpl; try done.
      f_equal. lia.
  - cbn [update_expr]. split; f_equal; rewrite <- !list_fmap_compose;
      apply Forall_fmap_ext_1; (eapply Forall_impl; [exact IH|]);
      intros n [Hn1 Hn2]; [exact Hn1|exact Hn2].
Qed.
End OptimizerFacts.

Module ExtractorInvariants.
Import ExpressionExtractor ExpressionExtractorFacts.

(** The nodes of a tree, the root first. *)
Fixpoint subterms {num} (e : expr num) : list (expr num) :=
  e :: match e with
       | Symbol _ _ | RawNum _ => []
       | Par c | Neg c => subterms c
       | Sum l r | Sub l r | Prod l r | Div l r => subterms l ++ subterms r
       | FunCall _ args => concat (map subterms args)
       | Ternary c t f => subterms c ++ subterms t ++ subterms f
       end.

Lemma elem_of_concat {A} (x : A) (ls : list (list A)) :
  x ∈ concat ls ↔ ∃ l, x ∈ l ∧ l ∈ ls.
Proof.
  induction ls as [|l ls IH]; simpl.
  - split; [by intros ?%elem_of_nil|]. by intros (l & _ & ?%elem_of_nil).
  - rewrite elem_of_app, IH. split.
    + intros [?|(l' & ? & ?)]; [exists l|exists l']; split; try done;
        apply elem_of_cons; auto.
    + intros (l' & ? & [->|?]%elem_of_cons); [by left|right; by exists l'].
Qed.

Lemma subterms_self {num} (e : expr num) : e ∈ subterms e.
Proof. destruct e; apply elem_of_cons; by left. Qed.

Lemma subterms_trans {num} (a b c : expr num) :
  a ∈ subterms b → b ∈ subterms c → a ∈ subterms c.
Proof.
  intros Ha. revert b Ha.
  induction c as [n r|v|x IH|x IH|l r IHl IHr|l r IHl IHr|l r IHl IHr
                 |l r IHl IHr|f args IH|x t f IHc IHt IHf]
    using expr_nested_ind; intros b Ha Hb; cbn [subterms] in *;
    apply elem_of_cons in Hb as [->|Hb]; try done;
    try (by apply elem_of_nil in Hb);
    apply elem_of_cons; right;
    repeat match goal with
           | Hx : _ ∈ _ ++ _ |- _ => apply elem_of_app in Hx as [Hx|Hx]
           end;
    rewrite ?elem_of_app; eauto 6.
  apply elem_of_concat in Hb as (l & Hl & Hin).
  apply list_elem_of_fmap in Hin as (y & -> & Hy).
  apply elem_of_concat. exists (subterms y). split; [|by apply list_elem_of_fmap_2].
  by apply (proj1 (Forall_forall _ _) IH y Hy b).
Qed.

Section SortedDep.
Context (info : MetaExpr).

Lemma insert_by_key_Permutation {A K} (leb : K → K → bool) (key : A → K) x l :
  insert_by_key leb key x l ≡ₚ x :: l.
Proof.
  induction l as [|y l IH]; [done|]. simpl. destruct (leb _ _); [done|].
  rewrite IH. apply Permutation_swap.
Qed.

Lemma sorted_Permutation {A K} (leb : K → K → bool) (key : A → K) l :
  sorted leb key l ≡ₚ l.
Proof.
  induction l as [|x l IH]; [done|]. unfold sorted in *. simpl.
  by rewrite insert_by_key_Permutation, IH.
Qed.

Lemma mapM_index_Some (l : list string) keyed :
  mapM (λ d, k ← list_index d (dims info); Some (k, d)) l = Some keyed →
  keyed.*2 = l ∧ Forall (λ kd, list_index kd.2 (dims info) = Some kd.1) keyed.
Proof.
  revert keyed. induction l as [|d l IH]; intros keyed; simpl.
  - by intros [= <-].
  - destruct (list_index d (dims info)) as [k|] eqn:E; [|done]. simpl.
    destruct (mapM _ l) as [ks|]; [|done]. simpl. intros [= <-].
    destruct (IH ks eq_refl) as [Hl Hk]. split; [by rewrite fmap_cons, Hl|].
    by constructor.
Qed.

Lemma list_index_Some_elem (d : string) (l : list string) k :
  list_index d l = Some k → d ∈ l.
Proof.
  revert k. induction l as [|y l IH]; intros k; simpl; [done|].
  case_decide as Hd; [subst; intros _; apply elem_of_cons; by left|].
  destruct (list_index d l); [|done]. intros _. apply elem_of_cons. right. by eapply IH.
Qed.

(** The position of a dimension in [expr_info.dims]. *)
Definition dim_index (d : string) : nat := default 0 (list_index d (dims info)).

Lemma in_order_fmap_snd (keyed : list (nat * string)) :
  Forall (λ kd, list_index kd.2 (dims info) = Some kd.1) keyed →
  ExpressionRewriterFacts.in_order Nat.leb fst keyed →
  ExpressionRewriterFacts.in_order Nat.leb dim_index keyed.*2.
Proof.
  induction 1 as [|[k d] l Hk Hl IH]; [done|]. simpl.
  destruct l as [|[k' d'] l]; [done|]. intros [Hle Hord]. simpl in *.
  apply Forall_cons in Hl as [Hk' _]. simpl in Hk'.
  split; [|by apply IH]. unfold dim_index. by rewrite Hk, Hk'.
Qed.

Lemma Nat_leb_total a b : Nat.leb a b = true ∨ Nat.leb b a = true.
Proof. destruct (Nat.leb_spec a b), (Nat.leb_spec b a); auto; lia. Qed.

Lemma sorted_dep_spec (dep : gset string) key :
  sorted_dep info dep = Some key →
  key ≡ₚ elements dep
  ∧ dep ⊆ list_to_set (dims info)
  ∧ ExpressionRewriterFacts.in_order Nat.leb dim_index key.
Proof.
  unfold sorted_dep.
  destruct (mapM _ (elements dep)) as [keyed|] eqn:E; [|done]. simpl. intros [= <-].
  destruct (mapM_index_Some _ _ E) as [Hsnd Hk].
  split; [|split].
  - rewrite <- Hsnd. apply fmap_Permutation, sorted_Permutation.
  - intros d Hd. apply elem_of_list_to_set.
    apply elem_of_elements in Hd. rewrite <- Hsnd in Hd.
    apply list_elem_of_fmap in Hd as ([k d'] & -> & Hin).
    apply (proj1 (Forall_forall _ _) Hk) in Hin. by eapply list_index_Some_elem.
  - apply in_order_fmap_snd.
    + by apply ExpressionRewriterFacts.sorted_Forall.
    + apply ExpressionRewriterFacts.sorted_in_order, Nat_leb_total.
Qed.
End SortedDep.

Section Invariants.
Context {num Header Decls Hoisted Graph : Type}.
Notation session := (session num Header Decls Hoisted Graph).
Implicit Types (self s : session) (node left right : expr num) (dep : gset string).

(** The test [_try] makes on the dependencies, by mode. *)
Definition should_extract (md : string) (info : MetaExpr) dep : bool :=
  if decide (md = "aggressive") then true
  else if decide (md = "only_const") then
    negb (bool_decide (dep ≠ ∅ ∧ dep ⊆ list_to_set (dims info)))
  else if decide (md = "only_domain") then
    negb (bool_decide (dep ⊆ list_to_set (out_domain_dims info)))
  else if decide (md = "only_outdomain") then
    bool_decide (dep ⊆ list_to_set (out_domain_dims info))
  else true.

Lemma try_eq node dep s :
  _try node dep s
  = if is_Symbol node then Some (false, s)
    else if should_extract (mode s) (expr_info s) dep || look_ahead s then
      key ← sorted_dep (expr_info s) dep;
      Some (should_extract (mode s) (expr_info s) dep,
            set_extracted (setdefault_append key node) s)
    else Some (should_extract (mode s) (expr_info s) dep, s).
Proof.
  unfold _try, should_extract. destruct (is_Symbol node); [done|].
  unfold bind, get, ret, modify. simpl.
  repeat case_decide; simpl;
    repeat match goal with
           | |- context [bool_decide ?P] => destruct (bool_decide P)
           end; simpl;
    destruct (look_ahead s); simpl; try done;
    by destruct (sorted_dep _ _).
Qed.

Section Fixed.
Context (info : MetaExpr) (md : string) (la : bool) (root : expr num).

(** What is known of a node filed under [key]. *)
Definition filed (key : list string) node : Prop :=
  is_Symbol node = false ∧ node ∈ subterms root ∧
  ∃ dep, sorted_dep info dep = Some key ∧ (should_extract md info dep = true ∨ la = true).

Definition well_filed s : Prop :=
  expr_info s = info ∧ mode s = md ∧ look_ahead s = la ∧
  Forall (λ kv, kv.2 ≠ [] ∧ Forall (filed kv.1) kv.2) (extracted s).

Definition keeps {A} (m : M session A) : Prop :=
  ∀ s a s', well_filed s → m s = Some (a, s') → well_filed s'.

Lemma keeps_ret {A} (a : A) : keeps (ret a).
Proof. by intros s a' s' Hs [= <- <-]. Qed.

Lemma keeps_get : keeps get.
Proof. by intros s a' s' Hs [= <- <-]. Qed.

Lemma keeps_raise {A} : keeps (raise (A:=A)).
Proof. intros s a s' _ [=]. Qed.

Lemma keeps_bind {A B} (m : M session A) (k : A → M session B) :
  keeps m → (∀ a, keeps (k a)) → keeps (bind m k).
Proof.
  intros Hm Hk s b s' Hs. unfold bind.
  destruct (m s) as [[a s1]|] eqn:E; [|done]. intros Hb.
  eapply Hk; [|exact Hb]. by eapply Hm.
Qed.

Lemma setdefault_append_filed {K V} `{EqDecision K} (P : K → V → Prop) (k : K) (v : V) d :
  P k v → Forall (λ kv, kv.2 ≠ [] ∧ Forall (P kv.1) kv.2) d →
  Forall (λ kv, kv.2 ≠ [] ∧ Forall (P kv.1) kv.2) (setdefault_append k v d).
Proof.
  intros Hv. induction 1 as [|[k' vs] d [Hne Hk] Hd IH]; simpl.
  - by repeat constructor.
  - destruct (decide (k = k')) as [->|]; constructor; try done.
    simpl in *. split; [by destruct vs|].
    apply Forall_app. split; [done|]. by repeat constructor.
Qed.

Lemma keeps_try node dep : node ∈ subterms root → keeps (_try node dep).
Proof.
  intros Hsub s b s' (Hi & Hm & Hl & Hx). rewrite try_eq, Hi, Hm, Hl.
  destruct (is_Symbol node) eqn:Hsym; [by intros [= <- <-]|].
  destruct (should_extract md info dep || la) eqn:Hrec; [|by intros [= <- <-]].
  destruct (sorted_dep info dep) as [key|] eqn:Hkey; [|done]. simpl.
  intros [= <- <-]. destruct s; simpl in *. repeat split; try done.
  apply setdefault_append_filed; [|done]. repeat split; try done.
  exists dep. split; [done|]. by apply orb_true_iff in Hrec as [?|?]; auto.
Qed.

Ltac keeps_auto :=
  repeat first [ apply keeps_try; [done] | apply keeps_ret | apply keeps_get
               | apply keeps_raise | apply keeps_bind; [|intros ?] | case_decide
               | match goal with |- keeps (if ?b then _ else _) => destruct b end ].

Lemma keeps_try_or a da b db :
  a ∈ subterms root → b ∈ subterms root → keeps (try_or a da b db).
Proof. intros ??. unfold try_or. keeps_auto. Qed.

Lemma keeps_extract_binary left right rl rr :
  left ∈ subterms root → right ∈ subterms root →
  keeps (extract_binary left right rl rr).
Proof.
  intros ??. unfold extract_binary. apply keeps_bind; [apply keeps_get|intros self].
  repeat case_decide; try apply keeps_raise.
  - unfold _normal. keeps_auto; by apply keeps_try_or.
  - unfold _soft. keeps_auto.
  - unfold _aggressive. keeps_auto.
Qed.

Lemma keeps_extract node : node ∈ subterms root → keeps (_extract node).
Proof.
  induction node as [n r|v|c IH|c IH|l r IHl IHr|l r IHl IHr|l r IHl IHr
                    |l r IHl IHr|f args IH|c t f IHc IHt IHf]
    using expr_nested_ind; intros Hsub; cbn [_extract].
  all: try (by keeps_auto).
  all: try (assert (l ∈ subterms root ∧ r ∈ subterms root) as [Hl Hr]
              by (split; (eapply subterms_trans; [|exact Hsub]); cbn [subterms];
                  apply elem_of_cons; right; apply elem_of_app;
                  [left|right]; apply subterms_self);
            apply keeps_bind; [auto|intros ?];
            apply keeps_bind; [auto|intros ?]; by apply keeps_extract_binary).
  - apply IH. eapply subterms_trans; [|exact Hsub]. cbn [subterms].
    apply elem_of_cons; right. apply subterms_self.
  - apply keeps_bind; [|intros ?; apply keeps_ret].
    assert (Hargs : Forall (λ a, a ∈ subterms root) args).
    { apply Forall_forall. intros a Ha. eapply subterms_trans; [|exact Hsub].
      cbn [subterms]. apply elem_of_cons; right. apply elem_of_concat.
      exists (subterms a). split; [apply subterms_self|by apply list_elem_of_fmap_2]. }
    clear Hsub. induction IH as [|x args Hx _ IHargs]; [apply keeps_ret|].
    apply Forall_cons in Hargs as [Hx' Hargs].
    apply keeps_bind; [auto|intros ?].
    apply keeps_bind; [auto|intros ?]. apply keeps_ret.
  - assert (c ∈ subterms root ∧ t ∈ subterms root ∧ f ∈ subterms root) as (Hc & Ht & Hf).
    { repeat split; (eapply subterms_trans; [|exact Hsub]); cbn [subterms];
        apply elem_of_cons; right; rewrite !elem_of_app;
        [left|right; left|right; right]; apply subterms_self. }
    apply keeps_bind; [auto|intros ?].
    apply keeps_bind; [auto|intros ?].
    apply keeps_bind; [auto|intros ?]. apply keeps_ret.
Qed.
End Fixed.

Lemma call_well_filed md la ldaf self d self' :
  call md la ldaf self = Some (d, self') →
  Forall (λ kv, kv.2 ≠ [] ∧
                Forall (filed (expr_info self) md la (rvalue (stmt self)) kv.1) kv.2) d.
Proof.
  unfold call, bind, get, modify, ret. simpl.
  set (s0 := {| stmt := stmt self; extracted := [] |}).
  destruct (_extract (rvalue (stmt self)) s0) as [[x s1]|] eqn:E; [|done].
  intros [= <- <-]. simpl.
  assert (well_filed (expr_info self) md la (rvalue (stmt self)) s0) as H0.
  { by repeat split. }
  apply (keeps_extract _ _ _ _ _ (subterms_self _) _ _ _ H0 E).
Qed.

(** X15: whatever the mode and [look_ahead], the extractor files no bare
    symbol and nothing but nodes of the right-hand side; the tuple a node is
    filed under has no repeated entry, is made of dimensions of
    [expr_info.dims] and follows their order. *)
Theorem extracted_subexpressions md la ldaf self d self' :
  call md la ldaf self = Some (d, self') →
  ∀ key nodes, (key, nodes) ∈ d →
    nodes ≠ []
    ∧ (∀ node, node ∈ nodes →
         is_Symbol node = false ∧ node ∈ subterms (rvalue (stmt self)))
    ∧ NoDup key
    ∧ (∀ dim, dim ∈ key → dim ∈ dims (expr_info self))
    ∧ ExpressionRewriterFacts.in_order Nat.leb (dim_index (expr_info self)) key.
Proof.
  intros Hcall key nodes Hk.
  pose proof (call_well_filed _ _ _ _ _ _ Hcall) as Hd.
  apply (proj1 (Forall_forall _ _) Hd) in Hk as [Hne Hk]. simpl in Hk, Hne.
  split; [done|]. split.
  { intros node Hn.
    by apply (proj1 (Forall_forall _ _) Hk) in Hn as (Hsym & Hsub & _). }
  destruct nodes as [|node nodes]; [done|].
  apply Forall_cons in Hk as [(_ & _ & dep & Hkey & _) _].
  destruct (sorted_dep_spec _ _ _ Hkey) as (Hperm & Hdims & Hord).
  repeat split; try done.
  - rewrite Hperm. apply NoDup_elements.
  - intros dim Hdim. rewrite Hperm in Hdim. apply elem_of_elements in Hdim.
    by apply Hdims, elem_of_list_to_set in Hdim.
Qed.

(** X16: when subtrees are extracted for hoisting ([look_ahead] unset), mode
    only_const files nodes under the empty tuple only, mode only_outdomain
    under tuples of dimensions outside the domain only, and mode only_domain
    only under tuples with a dimension that [out_domain_dims] lacks. *)
Theorem extracted_keys_by_mode md ldaf self d self' :
  call md false ldaf self = Some (d, self') →
  ∀ key nodes, (key, nodes) ∈ d →
    (md = "only_const" → key = [])
    ∧ (md = "only_outdomain" → ∀ dim, dim ∈ key → dim ∈ out_domain_dims (expr_info self))
    ∧ (md = "only_domain" → ∃ dim, dim ∈ key ∧ dim ∉ out_domain_dims (expr_info self)).
Proof.
  intros Hcall key nodes Hk.
  pose proof (call_well_filed _ _ _ _ _ _ Hcall) as Hd.
  apply (proj1 (Forall_forall _ _) Hd) in Hk as [Hne Hk]. simpl in Hk, Hne.
  destruct nodes as [|node nodes]; [done|].
  apply Forall_cons in Hk as [(_ & _ & dep & Hkey & [Hx|?]) _]; [|done].
  destruct (sorted_dep_spec _ _ _ Hkey) as (Hperm & Hdims & _).
  unfold should_extract in Hx. split; [|split]; intros ->; simpl in Hx.
  - apply negb_true_iff, bool_decide_eq_false in Hx.
    destruct (decide (dep = ∅)) as [->|Hne']; [|tauto].
    rewrite elements_empty in Hperm. by apply Permutation_nil_r.
  - apply bool_decide_eq_true in Hx. intros dim Hdim.
    rewrite Hperm in Hdim. apply elem_of_elements, Hx in Hdim.
    by apply elem_of_list_to_set in Hdim.
  - apply negb_true_iff, bool_decide_eq_false in Hx.
    destruct (decide (Exists (λ dim, dim ∉ out_domain_dims (expr_info self))
                        (elements dep))) as [Hex|Hnone].
    + apply Exists_exists in Hex as (dim & Hin & Hout). exists dim. by rewrite Hperm.
    + exfalso. apply Hx. intros dim Hdim. apply elem_of_list_to_set.
      destruct (decide (dim ∈ out_domain_dims (expr_info self))); [done|].
      exfalso. apply Hnone, Exists_exists. exists dim. by rewrite elem_of_elements.
Qed.

(** A node with two operands somewhere in the tree, where [_extract] comes
    across it. *)
Fixpoint has_binary (node : expr num) : bool :=
  match node with
  | Symbol _ _ | RawNum _ | Neg _ => false
  | Par c => has_binary c
  | FunCall _ args => existsb has_binary args
  | Ternary c t f => has_binary c || has_binary t || has_binary f
  | Sum _ _ | Sub _ _ | Prod _ _ | Div _ _ => true
  end.

Lemma extract_mode node s r s' : _extract node s = Some (r, s') → mode s' = mode s.
Proof.
  intros E. apply frame_extract, only_extracted_fields in E. tauto.
Qed.

Lemma extract_args_mode (args : list (expr num)) : ∀ s rs s',
  (fix go (l : list (expr num)) : M session (list (gset string * marker)) :=
     match l with
     | [] => ret []
     | n :: l' => (do r <- _extract n; do rs <- go l'; ret (r :: rs))%comp
     end) args s = Some (rs, s') → mode s' = mode s.
Proof.
  induction args as [|a args IH]; intros s rs s'.
  - by intros [= <- <-].
  - unfold bind at 1. destruct (_extract a s) as [[r s1]|] eqn:E; [|done].
    unfold bind at 1.
    match goal with |- context [?go args s1] => destruct (go args s1) as [[rs' s2]|] eqn:E2 end;
      [|done].
    intros [= <- <-]. rewrite (IH _ _ _ E2). by eapply extract_mode.
Qed.

Lemma extract_unknown_mode node : ∀ s,
  has_binary node = true → mode s ∉ modes → _extract node s = None.
Proof.
  assert (Hbin : ∀ l r s, mode s ∉ modes →
    (do rl <- _extract l; do rr <- _extract r; extract_binary l r rl rr)%comp s = None).
  { intros l r s Hm. unfold bind at 1.
    destruct (_extract l s) as [[rl s1]|] eqn:El; [|done].
    unfold bind at 1. destruct (_extract r s1) as [[rr s2]|] eqn:Er; [|done].
    assert (mode s2 = mode s) as Hm2.
    { rewrite (extract_mode _ _ _ _ Er). by eapply extract_mode. }
    unfold extract_binary, bind, get. rewrite Hm2.
    unfold modes in Hm. repeat case_decide; try done; exfalso; set_solver. }
  induction node as [n r|v|c IH|c IH|l r IHl IHr|l r IHl IHr|l r IHl IHr
                    |l r IHl IHr|f args IH|c t f IHc IHt IHf]
    using expr_nested_ind; intros s Hb Hm; cbn [_extract has_binary] in *;
    try done; try (by apply Hbin); try (by apply IH).
  - unfold bind at 1.
    match goal with
    | |- match ?go args s with _ => _ end = None => assert (go args s = None) as ->; [|done]
    end.
    revert s Hm. induction IH as [|a args Ha _ IHargs]; intros s Hm; [done|].
    cbn [existsb] in Hb. unfold bind at 1.
    destruct (_extract a s) as [[ra s1]|] eqn:Ea; [|done].
    apply orb_true_iff in Hb as [Hb|Hb]; [by rewrite Ha in Ea|].
    unfold bind at 1. rewrite IHargs; [done..|].
    by rewrite (extract_mode _ _ _ _ Ea).
  - unfold bind at 1. destruct (_extract c s) as [[rc s1]|] eqn:Ec; [|done].
    unfold bind at 1. destruct (_extract t s1) as [[rt s2]|] eqn:Et; [|done].
    unfold bind at 1. destruct (_extract f s2) as [[rf s3]|] eqn:Ef; [|done].
    exfalso.
    assert (mode s1 = mode s) as Hm1 by by eapply extract_mode.
    assert (mode s2 = mode s) as Hm2 by (rewrite <- Hm1; by eapply extract_mode).
    apply orb_true_iff in Hb as [Hb|Hb]; [apply orb_true_iff in Hb as [Hb|Hb]|].
    + by rewrite IHc in Ec.
    + rewrite IHt in Et; [done..|]. by rewrite Hm1.
    + rewrite IHf in Ef; [done..|]. by rewrite Hm2.
Qed.

Lemma extract_no_binary node : ∀ s,
  has_binary node = false → extractable node = true → is_Some (_extract node s).
Proof.
  induction node as [n r|v|c IH|c IH|l r IHl IHr|l r IHl IHr|l r IHl IHr
                    |l r IHl IHr|f args IH|c t f IHc IHt IHf]
    using expr_nested_ind; intros s Hb Hx; cbn [_extract has_binary extractable] in *;
    try done; try (by eexists); try (by apply IH).
  - unfold bind at 1.
    match goal with
    | |- is_Some (match ?go args s with _ => _ end) =>
        assert (is_Some (go args s)) as [[rs s'] ->]; [|by eexists]
    end.
    revert s. induction IH as [|a args Ha _ IHargs]; intros s; [by eexists|].
    cbn [existsb forallb] in Hb, Hx.
    apply orb_false_iff in Hb as [Hb1 Hb2]. apply andb_true_iff in Hx as [Hx1 Hx2].
    unfold bind at 1. destruct (Ha s Hb1 Hx1) as [[ra s1] ->].
    unfold bind at 1. destruct (IHargs Hb2 Hx2 s1) as [[rs s2] ->]. by eexists.
  - apply orb_false_iff in Hb as [Hb Hb3]. apply orb_false_iff in Hb as [Hb1 Hb2].
    apply andb_true_iff in Hx as [Hx Hx3]. apply andb_true_iff in Hx as [Hx1 Hx2].
    unfold bind at 1. destruct (IHc s Hb1 Hx1) as [[rc s1] ->].
    unfold bind at 1. destruct (IHt s1 Hb2 Hx2) as [[rt s2] ->].
    unfold bind at 1. destruct (IHf s2 Hb3 Hx3) as [[rf s3] ->]. by eexists.
Qed.

(** X17: a mode the extractor does not know is refused only when a node with
    two operands is met: on a right-hand side with none (a symbol, a call on
    symbols) the extractor returns, whatever the mode. *)
Theorem unknown_mode_raises_on_binary_node md la ldaf self :
  md ∉ modes → extractable (rvalue (stmt self)) = true →
  is_Some (call md la ldaf self) ↔ has_binary (rvalue (stmt self)) = false.
Proof.
  intros Hmd Hx. unfold call, bind, get, modify, ret. simpl.
  set (s0 := {| stmt := stmt self; extracted := [] |}).
  destruct (has_binary (rvalue (stmt self))) eqn:Hb.
  - rewrite (extract_unknown_mode _ s0 Hb Hmd). split; [by intros [? ?]|done].
  - destruct (extract_no_binary _ s0 Hb Hx) as [[r s1] ->]. split; [done|by eexists].
Qed.
End Invariants.

Import Examples.

Lemma extracted_subexpressions_witness :
  ∃ d self',
    call "normal" false lda_of_rank (session_ij "normal") = Some (d, self')
    ∧ ∀ key nodes, (key, nodes) ∈ d →
        nodes ≠ []
        ∧ (∀ node, node ∈ nodes →
             is_Symbol node = false ∧ node ∈ subterms (rvalue (stmt (session_ij "normal"))))
        ∧ NoDup key
        ∧ (∀ dim, dim ∈ key → dim ∈ dims (expr_info (session_ij "normal")))
        ∧ ExpressionRewriterFacts.in_order Nat.leb
            (dim_index (expr_info (session_ij "normal"))) key.
Proof.
  destruct (call "normal" false lda_of_rank (session_ij "normal")) as [[d self']|] eqn:E;
    [|by vm_compute in E].
  exists d, self'. split; [done|].
  exact (extracted_subexpressions "normal" false lda_of_rank (session_ij "normal") d self' E).
Defined.

(** On [((a * b) * (X[i] * Y[i])) * (Z[k] * W[k])], with the domain loop [i]
    and the other loop [k], what each of the three modes files. *)
Lemma call_abk_only_const :
  call "only_const" false lda_of_rank (session_abk "only_const")
  = Some ([([], [a_times_b])],
          {| stmt := stmt_abk; expr_info := info_ik; header := tt; decls := tt;
             hoisted := tt; expr_graph := tt; counter := 1; mode := "only_const";
             look_ahead := false; lda := lda_of_rank;
             extracted := [([], [a_times_b])] |}).
Proof. by vm_compute. Qed.

Lemma call_abk_only_outdomain :
  call "only_outdomain" false lda_of_rank (session_abk "only_outdomain")
  = Some ([([], [a_times_b]); (["k"], [Z_times_W])],
          {| stmt := stmt_abk; expr_info := info_ik; header := tt; decls := tt;
             hoisted := tt; expr_graph := tt; counter := 1; mode := "only_outdomain";
             look_ahead := false; lda := lda_of_rank;
             extracted := [([], [a_times_b]); (["k"], [Z_times_W])] |}).
Proof. by vm_compute. Qed.

Lemma call_abk_only_domain :
  call "only_domain" false lda_of_rank (session_abk "only_domain")
  = Some ([(["i"], [X_times_Y])],
          {| stmt := stmt_abk; expr_info := info_ik; header := tt; decls := tt;
             hoisted := tt; expr_graph := tt; counter := 1; mode := "only_domain";
             look_ahead := false; lda := lda_of_rank;
             extracted := [(["i"], [X_times_Y])] |}).
Proof. by vm_compute. Qed.

Lemma extracted_keys_by_mode_witness :
  (∀ key nodes, (key, nodes) ∈ [(@nil string, [a_times_b])] →
     ("only_const" = "only_const" → key = [])
     ∧ ("only_const" = "only_outdomain" →
        ∀ dim, dim ∈ key → dim ∈ out_domain_dims (expr_info (session_abk "only_const")))
     ∧ ("only_const" = "only_domain" →
        ∃ dim, dim ∈ key
               ∧ dim ∉ out_domain_dims (expr_info (session_abk "only_const"))))
  ∧ (∀ key nodes, (key, nodes) ∈ [([], [a_times_b]); (["k"], [Z_times_W])] →
       ("only_outdomain" = "only_const" → key = [])
       ∧ ("only_outdomain" = "only_outdomain" →
          ∀ dim, dim ∈ key →
            dim ∈ out_domain_dims (expr_info (session_abk "only_outdomain")))
       ∧ ("only_outdomain" = "only_domain" →
          ∃ dim, dim ∈ key
                 ∧ dim ∉ out_domain_dims (expr_info (session_abk "only_outdomain"))))
  ∧ (∀ key nodes, (key, nodes) ∈ [(["i"], [X_times_Y])] →
       ("only_domain" = "only_const" → key = [])
       ∧ ("only_domain" = "only_outdomain" →
          ∀ dim, dim ∈ key →
            dim ∈ out_domain_dims (expr_info (session_abk "only_domain")))
       ∧ ("only_domain" = "only_domain" →
          ∃ dim, dim ∈ key
                 ∧ dim ∉ out_domain_dims (expr_info (session_abk "only_domain")))).
Proof.
  split; [|split].
  - exact (extracted_keys_by_mode "only_const" lda_of_rank (session_abk "only_const")
             _ _ call_abk_only_const).
  - exact (extracted_keys_by_mode "only_outdomain" lda_of_rank
             (session_abk "only_outdomain") _ _ call_abk_only_outdomain).
  - exact (extracted_keys_by_mode "only_domain" lda_of_rank (session_abk "only_domain")
             _ _ call_abk_only_domain).
Defined.

Lemma unknown_mode_raises_on_binary_node_witness :
  "fast" ∉ modes
  ∧ extractable (rvalue (stmt (session_ij "fast"))) = true
  ∧ (is_Some (call "fast" false lda_of_rank (session_ij "fast"))
     ↔ has_binary (rvalue (stmt (session_ij "fast"))) = false).
Proof.
  assert (Hm : "fast" ∉ modes) by (apply (bool_decide_unpack _); by vm_compute).
  split; [exact Hm|]. split; [reflexivity|].
  exact (unknown_mode_raises_on_binary_node "fast" false lda_of_rank (session_ij "fast")
           Hm eq_refl).
Defined.

End ExtractorInvariants.

Module LookAheadFacts.
Import ExpressionExtractor ExpressionExtractorFacts ExtractorInvariants.

(** [node] is one of the nodes the dictionary [d] holds under [key]. *)
Definition filed_in {num} (d : list (list string * list (expr num)))
    (key : list string) (node : expr num) : Prop :=
  ∃ nodes, (key, nodes) ∈ d ∧ node ∈ nodes.

Lemma filed_in_setdefault_append {num} (k : list string) (v : expr num) d key node :
  filed_in (setdefault_append k v d) key node ↔ filed_in d key node ∨ (key = k ∧ node = v).
Proof.
  unfold filed_in. induction d as [|[k' vs] d IH]; simpl.
  - split.
    + intros (nodes & [= -> ->]%list_elem_of_singleton & ->%list_elem_of_singleton). by right.
    + intros [(nodes & []%elem_of_nil & _)|[-> ->]].
      exists [v]. split; by apply list_elem_of_singleton.
  - destruct (decide (k = k')) as [->|Hne].
    + split.
      * intros (nodes & [ [= -> ->] | Hin]%elem_of_cons & Hn).
        -- apply elem_of_app in Hn as [Hn | ->%list_elem_of_singleton]; [|by right].
           left. exists vs. split; [|done]. apply elem_of_cons. by left.
        -- left. exists nodes. split; [|done]. apply elem_of_cons. by right.
      * intros [(nodes & [ [= -> ->] | Hin]%elem_of_cons & Hn)|[-> ->]].
        -- exists (vs ++ [v]). split; [apply elem_of_cons; by left|].
           apply elem_of_app. by left.
        -- exists nodes. split; [|done]. apply elem_of_cons. by right.
        -- exists (vs ++ [v]). split; [apply elem_of_cons; by left|].
           apply elem_of_app. right. by apply list_elem_of_singleton.
    + split.
      * intros (nodes & [ [= -> ->] | Hin]%elem_of_cons & Hn).
        -- left. exists vs. split; [|done]. apply elem_of_cons. by left.
        -- destruct (proj1 IH) as [(nodes' & ? & ?)|?]; [by exists nodes| |by right].
           left. exists nodes'. split; [|done]. apply elem_of_cons. by right.
      * intros [(nodes & [ [= -> ->] | Hin]%elem_of_cons & Hn)|[-> ->]].
        -- exists vs. split; [|done]. apply elem_of_cons. by left.
        -- destruct (proj2 IH) as (nodes' & ? & ?); [left; by exists nodes|].
           exists nodes'. split; [|done]. apply elem_of_cons. by right.
        -- destruct (proj2 IH) as (nodes' & ? & ?); [by right|].
           exists nodes'. split; [|done]. apply elem_of_cons. by right.
Qed.

Section Projection.
Context {num Header Decls Hoisted Graph : Type}.
Notation session := (session num Header Decls Hoisted Graph).
Implicit Types (self s : session) (node left right : expr num) (dep : gset string).
Context (info : MetaExpr) (md : string).

(** A dependency tuple the mode turns down: the sorted form of a set on
    which the test of [_try] fails. *)
Definition rejected (key : list string) : Prop :=
  ∃ dep, sorted_dep info dep = Some key ∧ should_extract md info dep = false.

(** [ahead s s']: two extractors at the same point of the same traversal,
    [s] with [look_ahead] unset.  What [s] has filed [s'] has filed too, and
    what only [s'] has filed lies under a tuple the mode turns down. *)
Definition ahead (s s' : session) : Prop :=
  expr_info s = info ∧ expr_info s' = info ∧ mode s = md ∧ mode s' = md ∧
  lda s = lda s' ∧ look_ahead s = false ∧
  (∀ key node, filed_in (extracted s) key node → filed_in (extracted s') key node) ∧
  (∀ key node, filed_in (extracted s') key node →
     filed_in (extracted s) key node ∨ rejected key).

(** [follows m]: whenever [m] returns in the second extractor it returns
    the same value in the first, and the two stay related. *)
Definition follows {A} (m : M session A) : Prop :=
  ∀ s s' a s1', ahead s s' → m s' = Some (a, s1') →
    ∃ s1, m s = Some (a, s1) ∧ ahead s1 s1'.

Lemma follows_ret {A} (a : A) : follows (ret a).
Proof. intros s s' a' s1' Hs [= <- <-]. by exists s. Qed.

Lemma follows_raise {A} : follows (raise (A:=A)).
Proof. by intros s s' a s1' _ [=]. Qed.

Lemma follows_bind {A B} (m : M session A) (k : A → M session B) :
  follows m → (∀ a, follows (k a)) → follows (bind m k).
Proof.
  intros Hm Hk s s' b s2' Hs. unfold bind.
  destruct (m s') as [[a s1']|] eqn:E; [|done]. intros Hb.
  destruct (Hm _ _ _ _ Hs E) as (s1 & -> & Hs1). by eapply Hk.
Qed.

(** A computation that starts by reading the extractor's attributes. *)
Lemma follows_get {A} (k : session → M session A) :
  (∀ s s', ahead s s' → ∀ a s1', k s' s' = Some (a, s1') →
     ∃ s1, k s s = Some (a, s1) ∧ ahead s1 s1') →
  follows (bind get k).
Proof. intros Hk s s' a s1' Hs. unfold bind, get. by apply Hk. Qed.

Lemma follows_try node dep : follows (_try node dep).
Proof.
  intros s s' a s1' (Hi & Hi' & Hm & Hm' & Hl & Hla & Hsub & Hsup).
  rewrite !try_eq, Hi, Hi', Hm, Hm', Hla, orb_false_r.
  destruct (is_Symbol node); [intros [= <- <-]; by exists s|].
  destruct (should_extract md info dep) eqn:Hse; simpl.
  - destruct (sorted_dep info dep) as [key|]; simpl; [|done]. intros [= <- <-].
    eexists. split; [done|]. destruct s, s'; simpl in *.
    repeat split; try done; simpl; intros k n; rewrite !filed_in_setdefault_append.
    + intros [?|?]; auto.
    + intros [Hf|?]; [|by left; right]. destruct (Hsup _ _ Hf); auto.
  - destruct (look_ahead s'); simpl; [|intros [= <- <-]; by exists s].
    destruct (sorted_dep info dep) as [key|] eqn:Hkey; simpl; [|done]. intros [= <- <-].
    exists s. split; [done|]. destruct s, s'; simpl in *.
    repeat split; try done; simpl; intros k n; rewrite filed_in_setdefault_append.
    + intros ?. auto.
    + intros [Hf|[-> ->]]; [by apply Hsup|]. right. by exists dep.
Qed.

Ltac follows_auto :=
  repeat first [ apply follows_try | apply follows_ret | apply follows_raise
               | apply follows_bind; [|intros ?] | case_decide
               | match goal with |- follows (if ?b then _ else _) => destruct b end ].

Lemma follows_try_or a da b db : follows (try_or a da b db).
Proof. unfold try_or. follows_auto. Qed.

Lemma follows_soft left right dep_l dep_r dep_n info_l info_r :
  follows (_soft left right dep_l dep_r dep_n info_l info_r).
Proof. unfold _soft. follows_auto. Qed.

Lemma follows_aggressive left right dep_l dep_r dep_n info_l info_r :
  follows (_aggressive left right dep_l dep_r dep_n info_l info_r).
Proof. unfold _aggressive. follows_auto. Qed.

Lemma follows_normal left right dep_l dep_r dep_n info_l info_r :
  follows (_normal left right dep_l dep_r dep_n info_l info_r).
Proof.
  unfold _normal. repeat case_decide; try (by follows_auto).
  - apply follows_get. intros s s' Hs a s1'.
    destruct Hs as (Hi & Hi' & Hrest). rewrite Hi, Hi'.
    assert (ahead s s') as Hs by done.
    case_decide; [by apply follows_ret|].
    assert (follows (do ok <- try_or left dep_l right dep_r;
                     if ok then ret (dep_n, STOP) else ret (dep_r, EXT))%comp) as Hf
      by (follows_auto; apply follows_try_or).
    exact (Hf s s' a s1' Hs).
  - apply follows_get. intros s s' Hs a s1'.
    destruct Hs as (Hi & Hi' & Hrest). rewrite Hi, Hi'.
    assert (ahead s s') as Hs by done.
    case_decide; [by apply follows_ret|].
    assert (follows (do ok <- try_or right dep_r left dep_l;
                     if ok then ret (dep_n, STOP) else ret (dep_l, EXT))%comp) as Hf
      by (follows_auto; apply follows_try_or).
    exact (Hf s s' a s1' Hs).
Qed.

Lemma follows_extract_binary left right rl rr : follows (extract_binary left right rl rr).
Proof.
  unfold extract_binary. apply follows_get. intros s s' Hs a s1'.
  destruct Hs as (Hi & Hi' & Hm & Hm' & Hrest). rewrite Hi, Hi', Hm, Hm'.
  assert (ahead s s') as Hs by done.
  repeat case_decide; try done.
  - by apply follows_normal.
  - by apply follows_soft.
  - by apply follows_aggressive.
Qed.

Lemma follows_extract node : follows (_extract node).
Proof.
  induction node as [n r|v|c IH|c IH|l r IHl IHr|l r IHl IHr|l r IHl IHr
                    |l r IHl IHr|f args IH|c t f IHc IHt IHf]
    using expr_nested_ind; cbn [_extract].
  all: try (by apply follows_raise).
  all: try (by apply follows_bind; [done|intros ?];
            apply follows_bind; [done|intros ?]; apply follows_extract_binary).
  - apply follows_get. intros s s' Hs a s1' [= <- <-]. exists s. split; [|done].
    unfold ret. destruct Hs as (_ & _ & _ & _ & -> & _). done.
  - done.
  - apply follows_bind; [|intros ?; apply follows_ret].
    induction IH as [|x args Hx _ IHargs]; [apply follows_ret|].
    apply follows_bind; [done|intros ?].
    apply follows_bind; [done|intros ?]. apply follows_ret.
  - apply follows_bind; [done|intros ?].
    apply follows_bind; [done|intros ?].
    apply follows_bind; [done|intros ?]. apply follows_ret.
Qed.
End Projection.

Section Facts.
Context {num Header Decls Hoisted Graph : Type}.
Notation session := (session num Header Decls Hoisted Graph).

(** With [look_ahead] set the extractor returns whenever it does without,
    on the same traversal; its dictionary holds what the other holds, and
    else only nodes under tuples the mode turns down. *)
Lemma call_look_ahead md ldaf (self : session) d self' :
  call md true ldaf self = Some (d, self') →
  ∃ d0 self0,
    call md false ldaf self = Some (d0, self0)
    ∧ (∀ key node, filed_in d0 key node → filed_in d key node)
    ∧ (∀ key node, filed_in d key node →
         filed_in d0 key node ∨ rejected (expr_info self) md key).
Proof.
  unfold call, bind, get, modify, ret. simpl.
  set (s0' := {| stmt := stmt self; look_ahead := true; extracted := [] |}).
  set (s0 := {| stmt := stmt self; look_ahead := false; extracted := [] |}).
  destruct (_extract (rvalue (stmt self)) s0') as [[x s1']|] eqn:E; [|done].
  intros [= <- <-]. simpl.
  assert (ahead (expr_info self) md s0 s0') as H0 by (by repeat split; auto).
  destruct (follows_extract _ _ _ _ _ _ _ H0 E) as (s1 & -> & Hs1).
  eexists _, _. split; [done|]. simpl.
  by destruct Hs1 as (_ & _ & _ & _ & _ & _ & ? & ?).
Qed.

End Facts.

Import Examples.

(** In mode only_const on [((a * b) * (X[i] * Y[i])) * (Z[k] * W[k])], with
    [look_ahead] the dictionary holds [a * b], which the extractor files for
    hoisting too, and [Z[k] * W[k]], under a tuple the mode turns down. *)
Lemma look_ahead_abk_only_const :
  call "only_const" true lda_of_rank (session_abk "only_const")
  = Some ([([], [a_times_b]); (["k"], [Z_times_W])],
          {| stmt := stmt_abk; expr_info := info_ik; header := tt; decls := tt;
             hoisted := tt; expr_graph := tt; counter := 1; mode := "only_const";
             look_ahead := true; lda := lda_of_rank;
             extracted := [([], [a_times_b]); (["k"], [Z_times_W])] |})
  ∧ (fst <$> call "only_const" false lda_of_rank (session_abk "only_const"))
    = Some [([], [a_times_b])].
Proof. split; by vm_compute. Qed.


End LookAheadFacts.

Module DivisionFacts.
Import ExpressionRewriter ExpressionRewriterFacts ExtractorInvariants.
Section ReplaceDivAnyDepth.
Context {num : Type} `{Number num}.
Implicit Types (x d t q : expr num).

(** Every division below [t] has an entry or is passed over: no
    [ZeroDivisionError]. *)
Definition divisions_ok t : Prop := Forall (is_Some ∘ division_entry) (find_divs t).

#[local] Instance divisions_ok_dec t : Decision (divisions_ok t).
Proof. unfold divisions_ok. apply _. Defined.

Lemma replacediv_spec t :
  replacediv t = if decide (divisions_ok t) then Some (ast_replace_under to_replace t)
                 else None.
Proof.
  case_decide as Hok.
  - by apply replacediv_eq, replacediv_is_Some.
  - destruct (replacediv t) as [t'|] eqn:E; [|done].
    exfalso. apply Hok, replacediv_is_Some. by eexists.
Qed.

Lemma divisions_ok_app_iff (a b : list (expr num)) :
  Forall (is_Some ∘ division_entry) (a ++ b)
  ↔ Forall (is_Some ∘ division_entry) a ∧ Forall (is_Some ∘ division_entry) b.
Proof. apply Forall_app. Qed.

Lemma divisions_ok_args (args : list (expr num)) :
  Forall (is_Some ∘ division_entry) (concat (map find_divs args))
  ↔ Forall divisions_ok args.
Proof.
  induction args as [|a args IH]; simpl.
  - split; constructor.
  - rewrite Forall_app, Forall_cons, IH. done.
Qed.

Lemma mapM_replacediv (args : list (expr num)) :
  mapM replacediv args
  = if decide (Forall divisions_ok args)
    then Some (map (ast_replace_under to_replace) args) else None.
Proof.
  induction args as [|a args IH]; [done|].
  cbn [mapM]. rewrite IH, replacediv_spec. simpl.
  destruct (decide (divisions_ok a)) as [Ha|Ha];
    destruct (decide (Forall divisions_ok args)) as [Hargs|Hargs]; simpl.
  - rewrite decide_True; [done|by constructor].
  - rewrite decide_False; [done|]. by intros [? ?]%Forall_cons.
  - rewrite decide_False; [done|]. by intros [? ?]%Forall_cons.
  - rewrite decide_False; [done|]. by intros [? ?]%Forall_cons.
Qed.

(** The rewriting leaves the kind of a node alone, unless the node is a
    division by a symbol. *)
Lemma ast_replace_is_Symbol t :
  is_Symbol (ast_replace_under to_replace t) = is_Symbol t.
Proof.
  destruct t as [s r| | | | | | |l r| |]; try done.
  rewrite ast_replace_Div.
  destruct (mjoin (division_entry (Div l r))) as [e|] eqn:E; [|done].
  destruct r as [[name|v] rank| | | | | | | | |]; simpl in E; try done.
  - destruct (isdigit name); simpl in E; [|by injection E as <-].
    destruct (recip _); simpl in E; [by injection E as <-|done].
  - destruct (recip v); simpl in E; [by injection E as <-|done].
Qed.

(** The divisions of the result, for a division by a symbol. *)
Lemma entry_divs x d e q :
  is_Symbol d = true → division_entry (Div x d) = Some (Some e) →
  q ∈ find_divs e →
  q ∈ find_divs x
  ∨ ∃ name rank, q = Div (RawNum one) (Symbol (SStr name) rank) ∧ isdigit name = false.
Proof.
  destruct d as [[name|v] rank| | | | | | | | |]; try done; intros _; simpl.
  - destruct (isdigit name) eqn:Hdig.
    + destruct (recip _); [|done]. simpl. intros [= <-]. simpl.
      rewrite app_nil_r. by left.
    + intros [= <-]. simpl.
      intros [?| ->%list_elem_of_singleton]%elem_of_app; [by left|].
      right. by exists name, rank.
  - destruct (recip v); [|done]. simpl. intros [= <-]. simpl.
    rewrite app_nil_r. by left.
Qed.

Lemma entry_of_symbol_divisor x d :
  is_Symbol d = true → is_Some (division_entry (Div x d)) →
  ∃ e, division_entry (Div x d) = Some (Some e).
Proof.
  destruct d as [[name|v] rank| | | | | | | | |]; try done; intros _; simpl.
  - destruct (isdigit name); [|by eexists].
    destruct (recip _); simpl; [by eexists|by intros [? ?]].
  - destruct (recip v); simpl; [by eexists|by intros [? ?]].
Qed.

Lemma entry_of_compound_divisor x d :
  is_Symbol d = false → division_entry (Div x d) = Some None.
Proof. by destruct d. Qed.

(** What is left of the divisions. *)
Definition left_over (rv q : expr num) : Prop :=
  (∃ x d, q = Div x d ∧ is_Symbol d = false)
  ∨ (∃ name rank, q = Div (RawNum one) (Symbol (SStr name) rank) ∧ isdigit name = false)
  ∨ (∃ x d, Div x d ∈ find_divs rv ∧ is_Symbol d = true ∧ q ∈ find_divs x).

Lemma left_over_mono (sub rv q : expr num) :
  (∀ i, i ∈ find_divs sub → i ∈ find_divs rv) → left_over sub q → left_over rv q.
Proof.
  intros Hsub [?|[?|(x & d & Hin & Hd & Hq)]]; [by left|by right; left|].
  right; right. exists x, d. auto.
Qed.

Lemma ast_replace_left_over t :
  divisions_ok t → ∀ q, q ∈ find_divs (ast_replace_under to_replace t) → left_over t q.
Proof.
  unfold divisions_ok.
  induction t as [n r|v|c IH|c IH|l r IHl IHr|l r IHl IHr|l r IHl IHr
                 |l r IHl IHr|f args IH|c t f IHc IHt IHf]
    using expr_nested_ind; intros Hok q; simpl in Hok.
  - by intros ?%elem_of_nil.
  - by intros ?%elem_of_nil.
  - simpl. intros Hq. eapply left_over_mono; [|by apply IH]. done.
  - simpl. intros Hq. eapply left_over_mono; [|by apply IH]. done.
  - apply Forall_app in Hok as [Hl Hr]. simpl.
    intros [Hq|Hq]%elem_of_app;
      (eapply left_over_mono; [|by eauto]); intros i Hi; simpl;
      apply elem_of_app; auto.
  - apply Forall_app in Hok as [Hl Hr]. simpl.
    intros [Hq|Hq]%elem_of_app;
      (eapply left_over_mono; [|by eauto]); intros i Hi; simpl;
      apply elem_of_app; auto.
  - apply Forall_app in Hok as [Hl Hr]. simpl.
    intros [Hq|Hq]%elem_of_app;
      (eapply left_over_mono; [|by eauto]); intros i Hi; simpl;
      apply elem_of_app; auto.
  - apply Forall_cons in Hok as [He Hok]. apply Forall_app in Hok as [Hl Hr].
    rewrite ast_replace_Div.
    destruct (is_Symbol r) eqn:Hsym.
    + destruct (entry_of_symbol_divisor l r Hsym He) as [e Hentry].
      rewrite Hentry. simpl. intros Hq.
      destruct (entry_divs _ _ _ _ Hsym Hentry Hq) as [Hin|Hrec]; [|by right; left].
      right; right. exists l, r. split; [|done]. simpl. apply elem_of_cons. by left.
    + rewrite (entry_of_compound_divisor l r Hsym). simpl.
      intros [->|Hq]%elem_of_cons.
      * left. eexists _, _. split; [done|]. by rewrite ast_replace_is_Symbol.
      * apply elem_of_app in Hq as [Hq|Hq];
          (eapply left_over_mono; [|by eauto]); intros i Hi; simpl;
          apply elem_of_cons; right; apply elem_of_app; auto.
  - simpl. intros Hq.
    apply divisions_ok_args in Hok.
    apply elem_of_concat in Hq as (ds & Hq & Hds).
    apply list_elem_of_fmap in Hds as (a' & -> & Ha').
    apply list_elem_of_fmap in Ha' as (a & -> & Ha).
    rewrite Forall_forall in IH, Hok.
    eapply left_over_mono; [|by apply (IH a Ha (Hok a Ha))].
    intros i Hi. simpl. apply elem_of_concat.
    exists (find_divs a). split; [done|]. by apply list_elem_of_fmap_2.
  - apply Forall_app in Hok as [Hc Hok]. apply Forall_app in Hok as [Ht Hf]. simpl.
    intros [Hq|[Hq|Hq]%elem_of_app]%elem_of_app;
      (eapply left_over_mono; [|by eauto]); intros i Hi; simpl;
      rewrite !elem_of_app; auto.
Qed.

End ReplaceDivAnyDepth.

Import Examples.


End DivisionFacts.

Module RewriterExtras.
Import ExpressionRewriter ExpressionExpander ExpressionFactorizer.

Section Premultiply.
Context {num : Type} `{Number num}.

Lemma premultiply_few_literals (symbols : list (expr num)) :
  length (filter (λ s, is_literal s = true) symbols) ≤ 1 →
  _premultiply_symbols symbols = symbols.
Proof.
  intros Hlen. unfold _premultiply_symbols. apply Nat.ltb_ge in Hlen. by rewrite Hlen.
Qed.

(** X25: premultiplying twice is premultiplying once. *)
Theorem premultiply_symbols_idempotent (symbols : list (expr num)) :
  _premultiply_symbols (_premultiply_symbols symbols) = _premultiply_symbols symbols.
Proof.
  apply premultiply_few_literals.
  rewrite <- ExpressionFactorizerFacts.length_literal_values,
    ExpressionFactorizerFacts.premultiply_literals.
  destruct (literal_values symbols) as [|v [|w values]]; simpl; try lia.
  destruct (is_one _); simpl; lia.
Qed.
End Premultiply.

Section Expand.
Context {num : Type} (should_expand : expr num → bool).

Lemma expand_group node :
  Forall (λ s, should_expand s = false) (find_symbols node) →
  expandable_tree node = true →
  ∃ m, _expand should_expand node = Some (m, GROUP) ∧ erase m = node.
Proof.
  induction node as [s r|v|c IH|c IH|l r IHl IHr|l r IHl IHr|l r IHl IHr
                    |l r IHl IHr|f args IH|c t f IHc IHt IHf]
    using expr_nested_ind; cbn [find_symbols expandable_tree _expand];
    intros Hs Hx; try discriminate;
    repeat match goal with
           | Hb : _ && _ = true |- _ => apply andb_true_iff in Hb; destruct Hb
           | Hf : Forall _ (_ ++ _) |- _ => apply Forall_app in Hf; destruct Hf
           end.
  - apply Forall_cons in Hs as [-> _]. by eexists.
  - destruct IH as (m & -> & Hm); [done..|]. simpl. eexists. split; [done|].
    simpl. by rewrite Hm.
  - destruct IHl as (ml & -> & Hl); [done..|]. destruct IHr as (mr & -> & Hr); [done..|].
    simpl. eexists. split; [done|]. simpl. by rewrite Hl, Hr.
  - destruct IHl as (ml & -> & Hl); [done..|]. destruct IHr as (mr & -> & Hr); [done..|].
    simpl. eexists. split; [done|]. simpl. by rewrite Hl, Hr.
  - destruct IHl as (ml & -> & Hl); [done..|]. destruct IHr as (mr & -> & Hr); [done..|].
    simpl. eexists. split; [done|]. simpl. by rewrite Hl, Hr.
  - destruct IHl as (ml & -> & Hl); [done..|]. destruct IHr as (mr & -> & Hr); [done..|].
    simpl. eexists. split; [done|]. simpl. by rewrite Hl, Hr.
  - assert (mapM (λ n, erase ∘ fst <$> _expand should_expand n) args = Some args) as ->.
    { apply mapM_Some. induction IH as [|a args Ha _ IHargs]; [constructor|].
      simpl in Hs, Hx. apply Forall_app in Hs as [Hs1 Hs2].
      apply andb_true_iff in Hx as [Hx1 Hx2].
      constructor; [|by apply IHargs].
      destruct (Ha Hs1 Hx1) as (m & -> & Hm). simpl. by rewrite Hm. }
    simpl. by eexists.
Qed.

(** X21: when no symbol of the tree satisfies [should_expand], [expand]
    leaves the tree as it is. *)
Theorem expand_nothing_to_expand (rv : expr num) :
  Forall (λ s, should_expand s = false) (find_symbols rv) →
  expandable_tree rv = true →
  expand should_expand rv = Some rv.
Proof.
  intros Hs Hx. unfold expand.
  destruct (expand_group rv Hs Hx) as (m & -> & Hm). simpl. by rewrite Hm.
Qed.

Lemma expand_Some_expandable node :
  is_Some (_expand should_expand node) → expandable_tree node = true.
Proof.
  induction node as [s r|v|c IH|c IH|l r IHl IHr|l r IHl IHr|l r IHl IHr
                    |l r IHl IHr|f args IH|c t f IHc IHt IHf]
    using expr_nested_ind; cbn [expandable_tree _expand]; intros [x Hx];
    try discriminate; try done.
  - apply IH. destruct (_expand should_expand c); [by eexists|done].
  - destruct (_expand should_expand l) as [[l' lt]|]; [|done].
    destruct (_expand should_expand r) as [[r' rt]|]; [|done].
    rewrite IHl, IHr by by eexists. done.
  - destruct (_expand should_expand l) as [[l' lt]|]; [|done].
    destruct (_expand should_expand r) as [[r' rt]|]; [|done].
    rewrite IHl, IHr by by eexists. done.
  - destruct (_expand should_expand l) as [[l' lt]|]; [|done].
    destruct (_expand should_expand r) as [[r' rt]|]; [|done].
    rewrite IHl, IHr by by eexists. done.
  - destruct (_expand should_expand l) as [[l' lt]|]; [|done].
    destruct (_expand should_expand r) as [[r' rt]|]; [|done].
    rewrite IHl, IHr by by eexists. done.
  - destruct (mapM _ args) as [args'|] eqn:E; [|done].
    apply mapM_Some in E. clear Hx.
    revert args' E. induction IH as [|a args Ha _ IHargs]; intros args' E; [done|].
    inversion E as [|? b ? bs Hab Hrest]; subst. simpl.
    rewrite Ha, (IHargs bs); try done.
    destruct (_expand should_expand a); [by eexists|done].
Qed.

(** X22: [expand] raises exactly on the trees that hold a node it does not
    know: a negation, a ternary or a bare number, wherever it stands. *)
Theorem expand_raises_on_unknown_node (rv : expr num) :
  is_Some (expand should_expand rv) ↔ expandable_tree rv = true.
Proof.
  unfold expand. split.
  - intros Hs. apply expand_Some_expandable.
    destruct (_expand should_expand rv); [by eexists|by destruct Hs].
  - intros Hx.
    destruct (ExpressionExpanderFacts.expand_returns should_expand rv Hx) as [[m k] ->].
    by eexists.
Qed.
End Expand.

Section Reassociate.
Context {num K : Type} (leb : K → K → bool) (reorder : expr num → K).
Notation R := (_reassociate leb reorder).
Notation fs := find_symbols.

Lemma find_symbols_ast_make_expr (x : expr num) rest :
  fs (ast_make_expr x rest) = concat (fs <$> (x :: rest)).
Proof.
  revert x. induction rest as [|y rest IH]; intros x; simpl.
  - by rewrite app_nil_r.
  - by rewrite IH.
Qed.

Lemma concat_fmap_app {A B} (f : A → list B) (l1 l2 : list A) :
  concat (f <$> (l1 ++ l2)) = concat (f <$> l1) ++ concat (f <$> l2).
Proof. by rewrite fmap_app, concat_app. Qed.

Lemma concat_fmap_Permutation {A B} (f : A → list B) (l1 l2 : list A) :
  l1 ≡ₚ l2 → concat (f <$> l1) ≡ₚ concat (f <$> l2).
Proof.
  induction 1; simpl; try done.
  - by f_equiv.
  - rewrite !app_assoc. f_equiv. apply Permutation_app_comm.
  - by etrans.
Qed.

Definition keeps_symbols (n : expr num) : Prop :=
  (∀ n', R n = Some n' → fs n' ≡ₚ fs n)
  ∧ (∀ os ss, reassociate_operands R n = Some (os, ss) →
       concat (fs <$> os) ++ concat (fs <$> ss) ≡ₚ fs n).

Lemma keeps_symbols_other (n : expr num) :
  (∀ n', R n = Some n' → fs n' ≡ₚ fs n) →
  (∀ recur, reassociate_operands recur n = n' ← recur n; Some ([n'], [])) →
  keeps_symbols n.
Proof.
  intros Hn Hop. split; [done|]. intros os ss. rewrite Hop.
  destruct (R n) as [n'|]; [|done]. simpl. intros [= <- <-]. simpl.
  rewrite !app_nil_r. by apply Hn.
Qed.

Lemma reassociate_keeps_symbols (n : expr num) : keeps_symbols n.
Proof.
  induction n as [s r|v|c IH|c IH|l r IHl IHr|l r IHl IHr|l r IHl IHr
                 |l r IHl IHr|f args IH|c t f IHc IHt IHf]
    using expr_nested_ind.
  - split; [by intros n' [= <-]|]. intros os ss [= <- <-]. done.
  - by apply keeps_symbols_other.
  - apply keeps_symbols_other; [|done]. intros n'. cbn [_reassociate].
    destruct (R c) as [c'|] eqn:E; [|done]. simpl. intros [= <-].
    cbn [find_symbols]. by apply (proj1 IH).
  - by apply keeps_symbols_other.
  - apply keeps_symbols_other; [|done]. intros n'. cbn [_reassociate].
    destruct (R l) as [l'|] eqn:El; [|done]. destruct (R r) as [r'|] eqn:Er; [|done].
    simpl. intros [= <-]. cbn [find_symbols].
    f_equiv; [by apply (proj1 IHl)|by apply (proj1 IHr)].
  - apply keeps_symbols_other; [|done]. intros n'. cbn [_reassociate].
    destruct (R l) as [l'|] eqn:El; [|done]. destruct (R r) as [r'|] eqn:Er; [|done].
    simpl. intros [= <-]. cbn [find_symbols].
    f_equiv; [by apply (proj1 IHl)|by apply (proj1 IHr)].
  - assert (Hops : ∀ os ss, reassociate_operands R (Prod l r) = Some (os, ss) →
                concat (fs <$> os) ++ concat (fs <$> ss) ≡ₚ fs (Prod l r)).
    { intros os ss. cbn [reassociate_operands find_symbols].
      destruct (reassociate_operands R l) as [[ol sl]|] eqn:El; [|done].
      destruct (reassociate_operands R r) as [[or sr]|] eqn:Er; [|done].
      simpl. intros [= <- <-].
      rewrite <- (proj2 IHl _ _ El), <- (proj2 IHr _ _ Er), !concat_fmap_app.
      rewrite <- !app_assoc. f_equiv. rewrite !app_assoc. f_equiv.
      apply Permutation_app_comm. }
    split; [|done]. intros n'. cbn [_reassociate].
    destruct (reassociate_operands R l) as [[ol sl]|] eqn:El; [|done].
    destruct (reassociate_operands R r) as [[or sr]|] eqn:Er; [|done].
    simpl.
    destruct ((ol ++ or) ++ sorted leb reorder (sl ++ sr)) as [|x rest] eqn:E; [done|].
    intros [= <-]. rewrite find_symbols_ast_make_expr, <- E.
    rewrite <- (Hops (ol ++ or) (sl ++ sr)).
    + rewrite (concat_fmap_app _ (ol ++ or)). f_equiv.
      apply concat_fmap_Permutation, ExtractorInvariants.sorted_Permutation.
    + cbn [reassociate_operands]. by rewrite El, Er.
  - apply keeps_symbols_other; [|done]. by intros n' [= <-].
  - apply keeps_symbols_other; [|done]. intros n'. cbn [_reassociate find_symbols].
    destruct (mapM R args) as [args'|] eqn:E; [|done]. simpl. intros [= <-].
    cbn [find_symbols]. apply mapM_Some in E.
    revert args' E. induction IH as [|a args Ha _ IHargs]; intros args' E.
    + by inversion E.
    + inversion E as [|? b ? bs Hab Hrest]; subst. simpl.
      f_equiv; [by apply (proj1 Ha)|by apply IHargs].
  - by apply keeps_symbols_other.
Qed.

(** X23: reassociation moves symbols but neither drops nor duplicates one:
    the symbols of the result are those of the expression, up to their
    order. *)
Theorem reassociate_keeps_the_symbols (rv rv' : expr num) :
  reassociate leb reorder rv = Some rv' → find_symbols rv' ≡ₚ find_symbols rv.
Proof. apply reassociate_keeps_symbols. Qed.
End Reassociate.

Section ReplaceDiv.
Context {num : Type} `{Number num}.

(** A division by zero: the divisor is a literal, or a symbol named by a
    string of digits, whose inverse Python refuses to compute. *)
Definition zero_division (i : expr num) : Prop :=
  match i with
  | Div _ (Symbol (SNum v) _) => recip v = None
  | Div _ (Symbol (SStr name) _) => isdigit name = true ∧ recip (float_of_digits name) = None
  | _ => False
  end.

Lemma division_entry_None (i : expr num) : division_entry i = None ↔ zero_division i.
Proof.
  destruct i as [| | | | | | |l r| |]; try done.
  destruct r as [[name|v] rank| | | | | | | | |]; try done; simpl.
  - destruct (isdigit name); [|by split; [|intros [? _]]].
    destruct (recip _); split; try done. by intros [_ ?].
  - by destruct (recip v).
Qed.

(** X24: [replacediv] raises exactly when one of the divisions of the
    expression, at any depth, is a division by zero; nothing is replaced
    then. *)
Theorem replacediv_raises_on_zero_division (rv : expr num) :
  replacediv rv = None ↔ ∃ i, i ∈ find_divs rv ∧ zero_division i.
Proof.
  rewrite eq_None_not_Some, ExpressionRewriterFacts.replacediv_is_Some.
  rewrite <- Exists_exists. split.
  - intros Hn. apply not_Forall_Exists in Hn; [|intros i; apply _].
    eapply Exists_impl; [exact Hn|]. intros i Hi. apply division_entry_None.
    unfold compose in Hi. by destruct (division_entry i); [destruct Hi|].
  - intros Hex Hall. apply Exists_exists in Hex as (i & Hin & Hz).
    apply (proj1 (Forall_forall _ _) Hall) in Hin. unfold compose in Hin.
    apply division_entry_None in Hz. rewrite Hz in Hin. by destruct Hin.
Qed.
End ReplaceDiv.

Import Examples.

Lemma expand_nothing_to_expand_witness :
  Forall (λ s, rank_includes (num:=Q) ["k"] s = false) (find_symbols sum_times_Z)
  ∧ expandable_tree sum_times_Z = true
  ∧ expand (rank_includes ["k"]) sum_times_Z = Some sum_times_Z.
Proof.
  assert (Hs : Forall (λ s, rank_includes (num:=Q) ["k"] s = false)
                 (find_symbols sum_times_Z)).
  { repeat constructor. }
  split; [exact Hs|]. split; [reflexivity|].
  exact (expand_nothing_to_expand (rank_includes ["k"]) sum_times_Z Hs eq_refl).
Defined.

Lemma reassociate_keeps_the_symbols_witness :
  let rv : expr Q := Prod (Prod (sym "c" ["i"; "j"]) (sym "b" ["i"])) (sym "a" []) in
  let rv' : expr Q := Prod (sym "a" []) (Prod (sym "b" ["i"]) (sym "c" ["i"; "j"])) in
  reassociate default_leb default_reorder rv = Some rv'
  ∧ find_symbols rv' ≡ₚ find_symbols rv.
Proof.
  intros rv rv'. split; [reflexivity|].
  exact (reassociate_keeps_the_symbols default_leb default_reorder rv rv' eq_refl).
Defined.

End RewriterExtras.

Module CacheFacts.
Import ExpressionGraph ExpressionExtractor ExpressionRewriter Aggregation AggregationFacts.

Section Invalidate.
Context {num Decl Loop Place Tree : Type} `{Countable num}.
Context (repr : expr num → string).
Notation expander := (@expander num Decl Loop Place Tree _ _).
Implicit Types (self : expander) (exp : expr num).

(** X18: [Cache.invalidate(exp)] drops the entries whose value prints as
    [exp] and no other; it tells whether one of them had been hit; a second
    call finds nothing to drop. *)
Theorem invalidate_drops_stale_entries exp self :
  ∃ (was_hit : bool) self',
    invalidate repr exp self = Some (was_hit, self')
    ∧ (∀ key c, cache_map self' !! key = Some c
                ↔ cache_map self !! key = Some c ∧ repr c ≠ repr exp)
    ∧ (was_hit = true
       ↔ ∃ key c, cache_map self !! key = Some c ∧ repr c = repr exp
                  ∧ 0 < default 0 (cache_hits self !! key))
    ∧ invalidate repr exp self' = Some (false, self').
Proof.
  exists (bool_decide
            (∃ key, key ∈ dom (filter (λ kv, repr kv.2 = repr exp) (cache_map self))
                    ∧ 0 < default 0 (cache_hits self !! key))),
    (without_stale repr exp self).
  split; [reflexivity|]. simpl. split; [|split].
  - intros key c. by rewrite map_lookup_filter_Some.
  - rewrite bool_decide_eq_true. split.
    + intros (key & Hkey & Hhit). apply elem_of_dom in Hkey as [c Hc].
      apply map_lookup_filter_Some in Hc as [Hc Hrepr]. by exists key, c.
    + intros (key & c & Hc & Hrepr & Hhit). exists key. split; [|done].
      apply elem_of_dom. exists c. by apply map_lookup_filter_Some.
  - assert (Hf : filter (λ kv : string * string * expr num, repr kv.2 ≠ repr exp)
                   (filter (λ kv, repr kv.2 ≠ repr exp) (cache_map self))
                 = filter (λ kv, repr kv.2 ≠ repr exp) (cache_map self)).
    { apply map_eq. intros key. apply option_eq. intros c.
      rewrite !map_lookup_filter_Some. tauto. }
    unfold invalidate, bind, get, modify, ret, without_stale. simpl. rewrite Hf.
    rewrite bool_decide_eq_false_2; [done|]. intros (key & Hkey & _).
    apply elem_of_dom in Hkey as [c Hc].
    apply map_lookup_filter_Some in Hc as [Hc Hrepr].
    apply map_lookup_filter_Some in Hc as [_ Hne]. done.
Qed.

End Invalidate.

Section Facts.
Context {num Decl Loop Place Tree : Type} `{Countable num}.
Context (should_expand : expr num → bool).
Context (repr : expr num → string).
Context (loop_dim : Loop → string).
Context (place_has : Tree → Place → Loop → bool).
Context (body_append : Loop → writer num → Tree → option Tree).
Context (insert_at_elem : Place → Decl → Decl → Tree → Tree).
Context (renamed_decl : Decl → string → Decl).
Notation expander := (@expander num Decl Loop Place Tree _ _).
Notation hoist := (_hoist should_expand repr loop_dim place_has body_append
                     insert_at_elem renamed_decl).
Implicit Types (self : expander) (grp exp : expr num) (name : string).

(** X19: an expansion that made a new temporary, or was found in the cache,
    is found in the cache when it is asked for again: the second call
    returns the same symbol and adds no statement, declaration or edge. *)
Theorem hoist_twice_returns_cached self name rank grp info x e self' :
  hoist (Symbol (SStr name) rank) grp info self = Some (Some (x, e), self') →
  e ≠ Symbol (SStr name) rank →
  ∃ self'',
    hoist (Symbol (SStr name) rank) grp info self' = Some (Some (x, e), self'')
    ∧ hoisted self'' = hoisted self' ∧ expr_graph self'' = expr_graph self'
    ∧ expanded_decls self'' = expanded_decls self' ∧ cache_map self'' = cache_map self'
    ∧ tree self'' = tree self'.
Proof.
  set (exp := Symbol (SStr name) rank). intros Hrun Hne.
  assert (Hagain : ∀ s : expander,
    is_Some (hoisted s !! name) → should_expand exp = true →
    cache_map s !! (repr exp, repr grp) = Some e →
    ∃ s', hoist exp grp info s = Some (Some (exp, e), s')
      ∧ hoisted s' = hoisted s ∧ expr_graph s' = expr_graph s
      ∧ expanded_decls s' = expanded_decls s ∧ cache_map s' = cache_map s
      ∧ tree s' = tree s).
  { intros s Hh Hse Hc. unfold _hoist. unfold bind at 1. unfold get at 1. cbv beta iota.
    assert (hoisted_name s exp = Some name) as Hname.
    { simpl. case_decide as Hd; [done|]. exfalso. by apply Hd, elem_of_dom. }
    change (find_symbols exp) with [exp].
    rewrite filter_cons_True; [|split; [by rewrite Hname|done]].
    unfold exp at 1. cbv beta iota.
    unfold bind at 1. unfold retrieve. unfold bind at 1. unfold get at 1.
    fold exp. rewrite Hc. simpl. by eexists. }
  unfold _hoist in Hrun.
  apply bind_inv in Hrun as (self0 & s0 & [= <- <-] & Hrun).
  change (find_symbols exp) with [exp] in Hrun.
  rewrite filter_cons in Hrun.
  destruct (decide (is_Some (hoisted_name self exp) ∧ should_expand exp = true))
    as [[Hname Hse]|]; [|done].
  unfold exp at 1 in Hrun. cbv beta iota in Hrun.
  assert (is_Some (hoisted self !! name)) as Hh.
  { simpl in Hname. case_decide as Hd; [by apply elem_of_dom|by destruct Hname]. }
  apply bind_inv in Hrun as (cached & s1 & Hret & Hrun). fold exp in Hret, Hrun.
  unfold retrieve, bind, get, modify, ret in Hret. simpl in Hret.
  destruct (cache_map self !! (repr exp, repr grp)) as [c|] eqn:Ec.
  - injection Hret as <- <-. injection Hrun as <- <- <-.
    apply Hagain; [exact Hh|exact Hse|exact Ec].
  - injection Hret as <- <-.
    destruct (hoisted self !! name) as [h|] eqn:Eh; [|done].
    destruct (grp_is_hoistable _ _ _ _ _ _ _) as [[|]|]; [|done..].
    apply bind_inv in Hrun as (in_place & s2 & Hin & Hrun).
    assert (hoisted s2 = hoisted self ∧ tree s2 = tree self) as [Hh2 Ht2].
    { destruct (is_read _ _).
      - by injection Hin as <- <-.
      - apply bind_inv in Hin as (was_hit & s2' & Hinv & [= <- <-]).
        unfold invalidate, bind, get, modify, ret in Hinv. simpl in Hinv.
        by injection Hinv as <- <-. }
    destruct in_place.
    + apply bind_inv in Hrun as ([] & s3 & [= <-] & [= <- <- <-]). done.
    + apply bind_inv in Hrun as (e' & s3 & Hnew & [= <- <- <-]).
      unfold expand_as_new, bind, get, modify, ret, raise in Hnew. simpl in Hnew.
      destruct (body_append _ _ _) as [tree1|]; [|done].
      injection Hnew as <- <-.
      destruct (Hagain
        {| hoisted := <[_expanded_sym name (expr_id s2) (size (expanded_decls s2)) :=
                          {| h_stmt := Writer Assign
                               (Symbol (SStr (_expanded_sym name (expr_id s2)
                                                (size (expanded_decls s2)))) rank)
                               (Prod exp grp);
                             h_decl := renamed_decl (h_decl h)
                               (_expanded_sym name (expr_id s2) (size (expanded_decls s2)));
                             h_loop := h_loop h; h_place := h_place h |}]> (hoisted s2);
           expr_graph := add_dependency
                           (SStr (_expanded_sym name (expr_id s2) (size (expanded_decls s2))))
                           (Prod exp grp) (expr_graph s2);
           expanded_decls := <[_expanded_sym name (expr_id s2) (size (expanded_decls s2)) :=
                                 renamed_decl (h_decl h)
                                   (_expanded_sym name (expr_id s2)
                                      (size (expanded_decls s2)))]> (expanded_decls s2);
           cache_map := <[(repr exp, repr grp) :=
                            Symbol (SStr (_expanded_sym name (expr_id s2)
                                            (size (expanded_decls s2)))) rank]>
                          (cache_map s2);
           cache_hits := cache_hits s2; expr_id := expr_id s2; loops := loops s2;
           tree := insert_at_elem (h_place h) (h_decl h)
                     (renamed_decl (h_decl h)
                        (_expanded_sym name (expr_id s2) (size (expanded_decls s2))))
                     tree1 |}) as (s' & Hs' & ?).
      * simpl. rewrite Hh2.
        destruct (decide (_expanded_sym name (expr_id s2) (size (expanded_decls s2)) = name))
          as [->|Hn].
        -- rewrite lookup_insert_eq. by eexists.
        -- rewrite lookup_insert_ne by done. by rewrite Eh.
      * done.
      * simpl. by rewrite lookup_insert_eq.
      * by exists s'.
Qed.
(** The state [_hoist] leaves when it makes a new temporary; [tree1] is the
    header tree once the new statement stands in the loop of the old one. *)
Definition with_new_temporary name (rank : list string) (h : hoisted_info (num:=num))
    grp (tree1 : Tree) self : expander :=
  let new_name := _expanded_sym name (expr_id self) (size (expanded_decls self)) in
  let hoisted_exp := Symbol (SStr new_name) rank in
  let decl := renamed_decl (h_decl h) new_name in
  {| hoisted := <[new_name := {| h_stmt := Writer Assign hoisted_exp
                                             (Prod (Symbol (SStr name) rank) grp);
                                 h_decl := decl; h_loop := h_loop h;
                                 h_place := h_place h |}]> (hoisted self);
     expr_graph := add_dependency (SStr new_name) (Prod (Symbol (SStr name) rank) grp)
                     (expr_graph self);
     expanded_decls := <[new_name := decl]> (expanded_decls self);
     cache_map := <[(repr (Symbol (SStr name) rank), repr grp) := hoisted_exp]>
                    (cache_map self);
     cache_hits := cache_hits self; expr_id := expr_id self; loops := loops self;
     tree := insert_at_elem (h_place h) (h_decl h) decl tree1 |}.

Lemma hoist_new_eq self name rank h grp info tree1 :
  hoisted self !! name = Some h →
  should_expand (Symbol (SStr name) rank) = true →
  cache_map self !! (repr (Symbol (SStr name) rank), repr grp) = None →
  grp_is_hoistable loop_dim place_has info (symbol_names grp) (h_place h) self
    (reverse (loops self)) = Some true →
  is_read (expr_graph self) (SStr name) = true →
  body_append (h_loop h)
    (Writer Assign
       (Symbol (SStr (_expanded_sym name (expr_id self) (size (expanded_decls self)))) rank)
       (Prod (Symbol (SStr name) rank) grp)) (tree self) = Some tree1 →
  hoist (Symbol (SStr name) rank) grp info self
  = Some (Some (Symbol (SStr name) rank,
                Symbol (SStr (_expanded_sym name (expr_id self)
                                (size (expanded_decls self)))) rank),
          with_new_temporary name rank h grp tree1 self).
Proof.
  intros Hh Hse Hmiss Hgrp Hread Happ.
  set (exp := Symbol (SStr name) rank) in *.
  unfold _hoist. unfold bind at 1. unfold get at 1. cbv beta iota.
  assert (hoisted_name self exp = Some name) as Hname.
  { simpl. case_decide as Hd; [done|]. exfalso. apply Hd, elem_of_dom. by eexists. }
  change (find_symbols exp) with [exp].
  rewrite filter_cons_True; [|split; [by rewrite Hname|done]].
  unfold exp at 1. cbv beta iota. fold exp.
  unfold bind at 1. unfold retrieve. unfold bind at 1. unfold get at 1.
  rewrite Hmiss. simpl. rewrite Hh, Hgrp, Hread.
  unfold bind at 1. unfold ret at 1. cbv beta iota.
  unfold bind at 1. unfold expand_as_new. unfold bind at 1. unfold get at 1.
  cbv beta iota zeta. fold exp. rewrite Happ. reflexivity.
Qed.

(** X20: when the graph records a read of the temporary, [_hoist] leaves its
    statement alone and makes a new temporary for the expansion: a symbol
    named after the old one, assigned [Prod(exp, grp)], registered, declared
    and cached under the expansion, with an edge to every symbol of the
    product; [Cache.invalidate] is not called. *)
Theorem hoist_makes_new_temporary self name rank h grp info tree1 :
  hoisted self !! name = Some h →
  should_expand (Symbol (SStr name) rank) = true →
  cache_map self !! (repr (Symbol (SStr name) rank), repr grp) = None →
  grp_is_hoistable loop_dim place_has info (symbol_names grp) (h_place h) self
    (reverse (loops self)) = Some true →
  is_read (expr_graph self) (SStr name) = true →
  body_append (h_loop h)
    (Writer Assign
       (Symbol (SStr (_expanded_sym name (expr_id self) (size (expanded_decls self)))) rank)
       (Prod (Symbol (SStr name) rank) grp)) (tree self) = Some tree1 →
  let new_name := _expanded_sym name (expr_id self) (size (expanded_decls self)) in
  ∃ self',
    hoist (Symbol (SStr name) rank) grp info self
    = Some (Some (Symbol (SStr name) rank, Symbol (SStr new_name) rank), self')
    ∧ (rvalue ∘ h_stmt <$> hoisted self' !! new_name)
      = Some (Prod (Symbol (SStr name) rank) grp)
    ∧ (∀ other, other ≠ new_name → hoisted self' !! other = hoisted self !! other)
    ∧ expanded_decls self' = <[new_name := renamed_decl (h_decl h) new_name]>
                               (expanded_decls self)
    ∧ cache_map self' !! (repr (Symbol (SStr name) rank), repr grp)
      = Some (Symbol (SStr new_name) rank)
    ∧ (∀ key, key ≠ (repr (Symbol (SStr name) rank), repr grp) →
         cache_map self' !! key = cache_map self !! key)
    ∧ has_edge (expr_graph self') (SStr new_name) (SStr name) = true
    ∧ (∀ s, s ∈ symbols_of grp → has_edge (expr_graph self') (SStr new_name) s = true)
    ∧ tree self' = insert_at_elem (h_place h) (h_decl h)
                     (renamed_decl (h_decl h) new_name) tree1.
Proof.
  intros Hh Hse Hmiss Hgrp Hread Happ new_name.
  exists (with_new_temporary name rank h grp tree1 self).
  split; [by apply hoist_new_eq|]. unfold with_new_temporary. fold new_name. simpl.
  rewrite !lookup_insert_eq. simpl.
  split; [done|]. split; [by intros other ?; rewrite lookup_insert_ne|].
  split; [done|]. split; [done|].
  split; [by intros key ?; rewrite lookup_insert_ne|].
  split; [|split; [|done]].
  - unfold has_edge. apply bool_decide_eq_true. simpl.
    apply elem_of_union_l, elem_of_union_l, elem_of_map. exists (SStr name).
    split; [done|]. by apply elem_of_union_l, elem_of_singleton.
  - intros s Hs. unfold has_edge. apply bool_decide_eq_true. simpl.
    apply elem_of_union_l, elem_of_union_l, elem_of_map. exists s.
    split; [done|]. by apply elem_of_union_r.
Qed.
End Facts.

Import Examples.

(** The temporary [Y] of the examples, read by a statement [A[j] = Y[j]]. *)
Definition expander_Y_read
    : Aggregation.expander (num:=Q) (Decl:=unit) (Loop:=string) (Place:=unit) (Tree:=unit) :=
  {| hoisted := hoisted expander_Y;
     expr_graph := add_dependency (SStr "A") Y_j (expr_graph expander_Y);
     expanded_decls := ∅; cache_map := ∅; cache_hits := ∅; expr_id := 0;
     loops := ["i"; "j"]; tree := tt |}.

Lemma expander_Y_read_new :
  _hoist (rank_includes ["j"]) print_name id header_has
    (λ _ _ t, Some t) (λ _ _ _ t, t) (λ d _, d) Y_j F_const info_F expander_Y_read
  = Some (Some (Y_j, sym "Y_EXP_0_0" ["j"]),
          with_new_temporary print_name (λ _ _ _ t, t) (λ d _, d)
            "Y" ["j"] Y_info F_const tt expander_Y_read).
Proof.
  apply (hoist_new_eq (rank_includes ["j"]) print_name id header_has
           (λ _ _ t, Some t) (λ _ _ _ t, t) (λ d _, d)
           expander_Y_read "Y" ["j"] Y_info F_const info_F tt); reflexivity.
Qed.

Lemma hoist_makes_new_temporary_witness :
  ∃ self',
    _hoist (rank_includes ["j"]) print_name id header_has
      (λ _ _ t, Some t) (λ _ _ _ t, t) (λ d _, d) Y_j F_const info_F expander_Y_read
    = Some (Some (Y_j, sym "Y_EXP_0_0" ["j"]), self')
    ∧ (rvalue ∘ h_stmt <$> hoisted self' !! "Y_EXP_0_0") = Some (Prod Y_j F_const)
    ∧ (∀ other, other ≠ "Y_EXP_0_0" →
         hoisted self' !! other = hoisted expander_Y_read !! other)
    ∧ expanded_decls self' = <["Y_EXP_0_0" := tt]> (expanded_decls expander_Y_read)
    ∧ cache_map self' !! (print_name Y_j, print_name F_const)
      = Some (sym "Y_EXP_0_0" ["j"])
    ∧ (∀ key, key ≠ (print_name Y_j, print_name F_const) →
         cache_map self' !! key = cache_map expander_Y_read !! key)
    ∧ has_edge (expr_graph self') (SStr "Y_EXP_0_0") (SStr "Y") = true
    ∧ (∀ s, s ∈ symbols_of F_const →
         has_edge (expr_graph self') (SStr "Y_EXP_0_0") s = true)
    ∧ tree self' = tt.
Proof.
  apply (hoist_makes_new_temporary (rank_includes ["j"]) print_name id header_has
           (λ _ _ t, Some t) (λ _ _ _ t, t) (λ d _, d)
           expander_Y_read "Y" ["j"] Y_info F_const info_F tt); reflexivity.
Defined.

Lemma hoist_twice_returns_cached_witness :
  ∃ self' self'',
    _hoist (rank_includes ["j"]) print_name id header_has
      (λ _ _ t, Some t) (λ _ _ _ t, t) (λ d _, d) Y_j F_const info_F expander_Y_read
    = Some (Some (Y_j, sym "Y_EXP_0_0" ["j"]), self')
    ∧ _hoist (rank_includes ["j"]) print_name id header_has
        (λ _ _ t, Some t) (λ _ _ _ t, t) (λ d _, d) Y_j F_const info_F self'
      = Some (Some (Y_j, sym "Y_EXP_0_0" ["j"]), self'')
    ∧ hoisted self'' = hoisted self' ∧ expr_graph self'' = expr_graph self'
    ∧ expanded_decls self'' = expanded_decls self' ∧ cache_map self'' = cache_map self'
    ∧ tree self'' = tree self'.
Proof.
  destruct (hoist_twice_returns_cached (rank_includes ["j"]) print_name id header_has
              (λ _ _ t, Some t) (λ _ _ _ t, t) (λ d _, d)
              expander_Y_read "Y" ["j"] F_const info_F Y_j (sym "Y_EXP_0_0" ["j"]) _
              expander_Y_read_new)
    as (self'' & Hagain); [done|].
  eexists _, self''. split; [exact expander_Y_read_new|exact Hagain].
Defined.

End CacheFacts.
